(** * Codenames benchmark harness: rules engine, legality filter, turn engine,
      LLM client, game runner and board generation, embedded from the Python
      sources.

    Conventions of the embedding.
    - Python [str] values are Rocq [string]s of 8-bit characters read as
      ASCII text; [upper] and [strip] are [str.upper] and [str.strip] on
      ASCII text. A statement that compares a string with its uppercase
      form carries the condition [ascii_only], since [str.upper] changes
      letters outside ASCII as well.
    - Python [int] is [Z]; list positions are [nat].
    - Python [float] values (utilities, statistics, temperatures) are
      rationals [Qc]; comparisons are the rational ones, which is what
      float comparison does on finite, non-NaN values. Float operations
      that round ([statistics.mean], [statistics.pstdev], the product and
      the difference in [_aggregate_score]) are library functions whose
      results are taken as given.
    - In-place mutation is explicit state passing: a function that mutates
      its argument returns the new value of that argument.
    - A raised exception is a value of [PyExn] returned in place of the
      result; the mutated state is returned next to it. *)

From Stdlib Require Import ZArith QArith Qcanon Ascii String List Bool Lia.
From stdpp Require Import sorting.
From stdpp Require Import base decidable option numbers list gmap sets strings pretty.

Set Warnings "-register-all".

Local Open Scope string_scope.
Local Open Scope list_scope.
Local Open Scope Z_scope.

(** ** Python string primitives (ASCII) *)

Module Py.

(** [c.isspace()] for an ASCII character: TAB, LF, VT, FF, CR, the four
    separators FS, GS, RS, US, and the blank. *)
Definition is_space (c : ascii) : bool :=
  let n := nat_of_ascii c in
  ((9 <=? n) && (n <=? 13) || (28 <=? n) && (n <=? 32))%nat.

Definition is_lower (c : ascii) : bool :=
  let n := nat_of_ascii c in ((97 <=? n) && (n <=? 122))%nat.

Definition is_upper (c : ascii) : bool :=
  let n := nat_of_ascii c in ((65 <=? n) && (n <=? 90))%nat.

(** The character class [[A-Za-z]]. *)
Definition is_alpha (c : ascii) : bool := is_lower c || is_upper c.

Definition upper_char (c : ascii) : ascii :=
  if is_lower c then ascii_of_nat (nat_of_ascii c - 32) else c.

(** The characters of ASCII text. *)
Definition is_ascii (c : ascii) : bool := (nat_of_ascii c <? 128)%nat.

Fixpoint ascii_only (s : string) : bool :=
  match s with
  | EmptyString => true
  | String c r => is_ascii c && ascii_only r
  end.

(** [s.upper()] on ASCII text *)
Fixpoint upper (s : string) : string :=
  match s with
  | EmptyString => EmptyString
  | String c r => String (upper_char c) (upper r)
  end.

(** No character of [s] is a lowercase letter. *)
Fixpoint no_lower (s : string) : bool :=
  match s with
  | EmptyString => true
  | String c r => negb (is_lower c) && no_lower r
  end.

(** Every character of [s] is an uppercase letter. *)
Fixpoint only_upper_letters (s : string) : bool :=
  match s with
  | EmptyString => true
  | String c r => is_upper c && only_upper_letters r
  end.

(** [s.lstrip()] *)
Fixpoint lstrip (s : string) : string :=
  match s with
  | EmptyString => EmptyString
  | String c r => if is_space c then lstrip r else s
  end.

(** [s.rstrip()]: a trailing run of blanks is dropped. *)
Fixpoint rstrip (s : string) : string :=
  match s with
  | EmptyString => EmptyString
  | String c r =>
      match rstrip r with
      | EmptyString => if is_space c then EmptyString else String c EmptyString
      | r' => String c r'
      end
  end.

(** [s.strip()] on ASCII text *)
Definition strip (s : string) : string := rstrip (lstrip s).

(** [not s] for a string. *)
Definition is_empty (s : string) : bool :=
  match s with EmptyString => true | _ => false end.

(** [needle in hay] for strings. *)
Fixpoint contains (needle hay : string) : bool :=
  String.prefix needle hay
  || match hay with
     | EmptyString => false
     | String _ r => contains needle r
     end.

(** [x in l] followed by [l.index(x)]: the first position of [x], [None]
    where Python's [in] is false (and [index] would raise). *)
Fixpoint index_of (x : string) (l : list string) : option nat :=
  match l with
  | [] => None
  | y :: r => if String.eqb x y then Some 0%nat else S <$> index_of x r
  end.

(** Exceptions the embedded code can raise. *)
Inductive PyExn : Type :=
  | IndexError
  | TypeError
  | ValueError (msg : string)
  | AttributeError
  | RuntimeError (msg : string)
  | HTTPError (status : Z)
  | TransportError
  | KeyError (msg : string)
  | OverflowError
  (** [RuntimeError(f"OpenAI request failed after {retries} retries: {last_err}")] *)
  | RequestFailed (retries : Z) (last_err : option PyExn).

End Py.

(** ** types.py, boards.py, env.py: the rules engine *)

Module Env.
Import Py.

(** [Team = Literal["RED", "BLUE"]] and
    [CardType = Literal["RED", "BLUE", "NEUTRAL", "ASSASSIN"]]; the card
    types "RED" and "BLUE" are [CRed] and [CBlue], the names [RED] and [BLUE]
    being taken by the teams. *)
Inductive Team : Type := RED | BLUE.
Inductive CardType : Type := CRed | CBlue | NEUTRAL | ASSASSIN.

#[global] Instance Team_eq_dec : EqDecision Team.
Proof. solve_decision. Defined.
#[global] Instance CardType_eq_dec : EqDecision CardType.
Proof. solve_decision. Defined.

(** A [Team] literal read as a [CardType] literal: the two Python literal
    types share the strings "RED" and "BLUE". *)
Definition card_of_team (t : Team) : CardType :=
  match t with RED => CRed | BLUE => CBlue end.

Record Board : Type := mkBoard {
  board_id : string;
  words : list string;
  key : list CardType;
  starting_team : Team
}.

Record GameState : Type := mkState {
  board : Board;
  revealed : list bool;
  current_team : Team
}.

(** [GameState.copy]: the board is shared, the bitmap duplicated; with
    state passing the copy is the value itself. *)
Definition copy (s : GameState) : GameState :=
  mkState (board s) (revealed s) (current_team s).

(** [zip(a, b)], stopping at the shorter list. *)
Fixpoint pyzip {A B : Type} (a : list A) (b : list B) : list (A * B) :=
  match a, b with
  | x :: a', y :: b' => (x, y) :: pyzip a' b'
  | _, _ => []
  end.

Definition unrevealed_words (s : GameState) : list string :=
  fst <$> filter (fun wr => snd wr = false) (pyzip (words (board s)) (revealed s)).

(** [sum(1 for t, r in zip(key, revealed) if (not r) and t == team)] *)
Definition remaining_in (ks : list CardType) (rs : list bool) (t : CardType) : nat :=
  length (filter (fun kr => snd kr = false ∧ fst kr = t) (pyzip ks rs)).

Definition remaining (s : GameState) (team : Team) : nat :=
  remaining_in (key (board s)) (revealed s) (card_of_team team).

Record AppliedGuess : Type := mkApplied {
  word : string;
  index : nat;
  card_type : CardType
}.

Inductive StoppedReason : Type :=
  | stop | limit | wrong | assassin | invalid_or_repeat.

#[global] Instance StoppedReason_eq_dec : EqDecision StoppedReason.
Proof. solve_decision. Defined.

Record TurnOutcome : Type := mkOutcome {
  team : Team;
  clue : string;
  number : Z;
  max_allowed : Z;
  guesses : list string;
  applied : list AppliedGuess;
  stopped_reason : StoppedReason;
  game_over : bool;
  winner : option Team;
  loser : option Team
}.

Definition other_team (t : Team) : Team :=
  match t with RED => BLUE | BLUE => RED end.

(** The local variables of [apply_turn] that the loop reads and writes,
    with the [revealed] list of the state it mutates. *)
Record Loop : Type := mkLoop {
  l_revealed : list bool;
  l_applied : list AppliedGuess;
  l_seen : gset string;
  l_reason : StoppedReason;
  l_game_over : bool;
  l_winner : option Team;
  l_loser : option Team
}.

Inductive Step : Type :=
  | Continue (l : Loop)
  | Break (l : Loop)
  | Raise (l : Loop) (e : PyExn).

Definition set_reason (r : StoppedReason) (l : Loop) : Loop :=
  mkLoop (l_revealed l) (l_applied l) (l_seen l) r
         (l_game_over l) (l_winner l) (l_loser l).

Definition set_over (w lo : Team) (l : Loop) : Loop :=
  mkLoop (l_revealed l) (l_applied l) (l_seen l) (l_reason l)
         true (Some w) (Some lo).

(** The normalisation of one guess: [guess.strip().upper()]. *)
Definition norm (guess : string) : string := upper (strip guess).

(** One iteration of [for j, guess in enumerate(guesses)]. *)
Definition guess_step (b : Board) (tm : Team) (max_all : Z) (enforce : bool)
    (j : nat) (guess : string) (l : Loop) : Step :=
  if enforce && (max_all <=? Z.of_nat j) then Break (set_reason limit l)
  else
    let g := norm guess in
    if is_empty g then Break (set_reason invalid_or_repeat l)
    else if bool_decide (g ∈ l_seen l) then Break (set_reason invalid_or_repeat l)
    else
      let l1 := mkLoop (l_revealed l) (l_applied l) ({[ g ]} ∪ l_seen l)
                       (l_reason l) (l_game_over l) (l_winner l) (l_loser l) in
      match index_of g (words b) with
      | None => Break (set_reason invalid_or_repeat l1)
      | Some idx =>
          match l_revealed l1 !! idx with
          | None => Raise l1 IndexError
          | Some true => Break (set_reason invalid_or_repeat l1)
          | Some false =>
              let rev' := <[ idx := true ]> (l_revealed l1) in
              let l2 := mkLoop rev' (l_applied l1) (l_seen l1)
                               (l_reason l1) (l_game_over l1) (l_winner l1) (l_loser l1) in
              match key b !! idx with
              | None => Raise l2 IndexError
              | Some ctype =>
                  let l3 := mkLoop rev' (l_applied l1 ++ [mkApplied g idx ctype]) (l_seen l1)
                                   (l_reason l1) (l_game_over l1) (l_winner l1) (l_loser l1) in
                  if bool_decide (ctype = ASSASSIN) then
                    Break (set_reason assassin (set_over (other_team tm) tm l3))
                  else if bool_decide (ctype ≠ card_of_team tm) then
                    let l4 := set_reason wrong l3 in
                    if (remaining_in (key b) rev' (card_of_team (other_team tm)) =? 0)%nat
                    then Break (set_over (other_team tm) tm l4)
                    else Break l4
                  else if (remaining_in (key b) rev' (card_of_team tm) =? 0)%nat
                    then Break (set_over tm (other_team tm) l3)
                    else Continue l3
              end
          end
      end.

(** The [for] loop from position [j] on. *)
Fixpoint guess_loop (b : Board) (tm : Team) (max_all : Z) (enforce : bool)
    (j : nat) (gs : list string) (l : Loop) : Loop * option PyExn :=
  match gs with
  | [] => (l, None)
  | g :: rest =>
      match guess_step b tm max_all enforce j g l with
      | Continue l' => guess_loop b tm max_all enforce (S j) rest l'
      | Break l' => (l', None)
      | Raise l' e => (l', Some e)
      end
  end.

Definition init_loop (s : GameState) : Loop :=
  mkLoop (revealed s) [] ∅ stop false None None.

(** [apply_turn(state, team, clue, number, guesses, enforce_max_allowed=...)]:
    the state after the call, and the outcome or the exception raised. *)
Definition apply_turn (s : GameState) (tm : Team) (cl : string) (num : Z)
    (gs : list string) (enforce : bool) : GameState * (PyExn + TurnOutcome) :=
  let max_all := Z.max 0 (num + 1) in
  let '(l, e) := guess_loop (board s) tm max_all enforce 0 gs (init_loop s) in
  let s' := mkState (board s) (l_revealed l) (current_team s) in
  match e with
  | Some ex => (s', inl ex)
  | None =>
      (s', inr (mkOutcome tm cl num max_all gs (l_applied l) (l_reason l)
                          (l_game_over l) (l_winner l) (l_loser l)))
  end.

(** What a reveal does to the loop variables: the guess, normalised to [g],
    is the word at the first position [index a] holding it, that position was
    unrevealed, is now revealed, and [a] is appended to [applied]. *)
Record Reveals (b : Board) (g : string) (l l' : Loop) (a : AppliedGuess) : Prop :=
  mkReveals {
    rv_word : word a = g;
    rv_index : index_of g (words b) = Some (index a);
    rv_key : key b !! index a = Some (card_type a);
    rv_was : l_revealed l !! index a = Some false;
    rv_now : l_revealed l' = <[ index a := true ]> (l_revealed l);
    rv_app : l_applied l' = l_applied l ++ [a]
  }.

Definition same_flags (l l' : Loop) : Prop :=
  l_game_over l' = l_game_over l ∧ l_winner l' = l_winner l ∧ l_loser l' = l_loser l.

Definition over (l' : Loop) (w lo : Team) : Prop :=
  l_game_over l' = true ∧ l_winner l' = Some w ∧ l_loser l' = Some lo.

(** A loop that breaks on the guess [g] ignores what follows [g]. *)
Definition cut_at (b : Board) (tm : Team) (ma : Z) (enf : bool) (j : nat)
    (gs : list string) (l l' : Loop) (w : string) : Prop :=
  ∃ pre g post, gs = pre ++ g :: post ∧ norm g = w
    ∧ ∀ post', guess_loop b tm ma enf j (pre ++ g :: post') l = (l', None).

(** The bitmap after the positions of the applied guesses are set, in order. *)
Definition reveal_all (r : list bool) (app : list AppliedGuess) : list bool :=
  fold_left (fun r a => <[ index a := true ]> r) app r.

(** The outcome with another echo of the guess list; every other field kept. *)
Definition with_guesses (gs : list string) (o : TurnOutcome) : TurnOutcome :=
  mkOutcome (team o) (clue o) (number o) (max_allowed o) gs (applied o)
            (stopped_reason o) (game_over o) (winner o) (loser o).

Definition init_game_state (b : Board) : GameState :=
  mkState b (replicate 25 false) (starting_team b).

(** [[i for i, r in enumerate(self.revealed) if not r]], from position [i]. *)
Fixpoint unrevealed_from (i : nat) (rs : list bool) : list nat :=
  match rs with
  | [] => []
  | r :: rest => if r then unrevealed_from (S i) rest else i :: unrevealed_from (S i) rest
  end.

Definition unrevealed_indices (s : GameState) : list nat := unrevealed_from 0 (revealed s).

(** [out[t] += 1] on the dict of the four card types. *)
Definition bump (out : CardType → nat) (t : CardType) : CardType → nat :=
  fun t' => if decide (t' = t) then S (out t') else out t'.

(** [GameState.remaining_by_type]: the dict as a function of its key. *)
Definition remaining_by_type (s : GameState) : CardType → nat :=
  fold_left (fun (out : CardType → nat) (tr : CardType * bool) =>
               if snd tr then out else bump out (fst tr))
            (pyzip (key (board s)) (revealed s)) (fun _ => 0%nat).

End Env.



(** ** legality.py: the legality filter *)

Module Legality.
Import Py.

Definition _BANNED_CLUES : gset string :=
  list_to_set
    ["NONE"; "NIL"; "ZERO"; "STOP"; "PASS"; "SKIP";
     "LEFT"; "RIGHT"; "TOP"; "BOTTOM"; "FIRST"; "SECOND"; "THIRD"].

(** [re.sub(r"[^A-Za-z]", "", s)] *)
Fixpoint letters_only (s : string) : string :=
  match s with
  | EmptyString => EmptyString
  | String c r => if is_alpha c then String c (letters_only r) else letters_only r
  end.

Definition normalize_token (s : string) : string := upper (letters_only s).

(** Every character of [s] is in the class [[A-Za-z']]. *)
Fixpoint word_chars (s : string) : bool :=
  match s with
  | EmptyString => true
  | String c r => (is_alpha c || Ascii.eqb c "'"%char) && word_chars r
  end.

(** [re.fullmatch(r"[A-Za-z][A-Za-z']{0,31}", clue.strip())] *)
Definition is_single_word (clue : string) : bool :=
  match strip clue with
  | EmptyString => false
  | String c r => is_alpha c && word_chars r && (String.length r <=? 31)%nat
  end.

(** The three tests of the loop body on one board word; the reason when one
    of them rejects the clue. *)
Definition word_conflict (clue_norm w_raw w_norm : string) : option string :=
  if String.eqb clue_norm w_norm then Some ("matches_board_word:" +:+ w_raw)
  else if negb (is_empty clue_norm) && negb (is_empty w_norm)
          && (contains clue_norm w_norm || contains w_norm clue_norm)
  then Some ("substring_overlap:" +:+ w_raw)
  else if String.eqb (clue_norm +:+ "S") w_norm || String.eqb (w_norm +:+ "S") clue_norm
  then Some ("plural_variant:" +:+ w_raw)
  else None.

(** [for w_raw, w_norm in zip(board_words, board_norm)], then [return True, "ok"]. *)
Fixpoint check_board (clue_norm : string) (pairs : list (string * string)) : bool * string :=
  match pairs with
  | [] => (true, "ok")
  | (w_raw, w_norm) :: rest =>
      match word_conflict clue_norm w_raw w_norm with
      | Some reason => (false, reason)
      | None => check_board clue_norm rest
      end
  end.

Definition is_legal_clue (clue : string) (board_words : list string) : bool * string :=
  let clue_raw := strip clue in
  if is_empty clue_raw then (false, "empty")
  else if negb (is_single_word clue_raw) then (false, "not_single_word")
  else
    let clue_norm := normalize_token clue_raw in
    if is_empty clue_norm then (false, "no_letters")
    else if bool_decide (clue_norm ∈ _BANNED_CLUES) then (false, "banned_meta_word")
    else
      let board_norm := normalize_token <$> board_words in
      check_board clue_norm (Env.pyzip board_words board_norm).

End Legality.

(** ** JSON values and the Python operations applied to them *)

Module Json.
Import Py.

(** A value produced by [json.loads]; a dict is the list of its items, with
    distinct keys. [JNull] is Python's [None]. *)
Inductive json : Type :=
  | JNull
  | JBool (b : bool)
  | JInt (z : Z)
  | JFloat (q : Qc)
  | JStr (s : string)
  | JList (l : list json)
  | JDict (d : list (string * json)).

Definition dict : Type := list (string * json).

(** [d.get(k)]: [None] where the key is missing. *)
Fixpoint lookup_key (k : string) (d : dict) : option json :=
  match d with
  | [] => None
  | (k', v) :: r => if String.eqb k k' then Some v else lookup_key k r
  end.

(** [d.get(k, default)] *)
Definition get (k : string) (default : json) (d : dict) : json :=
  match lookup_key k d with Some v => v | None => default end.

(** [bool(v)], as used by [v or []]. *)
Definition truthy (v : json) : bool :=
  match v with
  | JNull => false
  | JBool b => b
  | JInt z => negb (z =? 0)
  | JFloat q => negb (bool_decide (q = Q2Qc 0))
  | JStr s => negb (is_empty s)
  | JList l => match l with [] => false | _ => true end
  | JDict d => match d with [] => false | _ => true end
  end.

(** [v == "s"] for a string literal. *)
Definition is_str (s : string) (v : option json) : bool :=
  match v with Some (JStr s') => String.eqb s' s | _ => false end.

Fixpoint chars (s : string) : list json :=
  match s with
  | EmptyString => []
  | String c r => JStr (String c EmptyString) :: chars r
  end.

(** [for x in v]: the items Python iterates over, or the [TypeError] of a
    value that is not iterable. *)
Definition py_iter (v : json) : PyExn + list json :=
  match v with
  | JList l => inr l
  | JStr s => inr (chars s)
  | JDict d => inr ((fun kv => JStr (fst kv)) <$> d)
  | _ => inl TypeError
  end.

(** Library functions whose results are taken as given: [str()] of a value
    that is not a string, [int()] and [float()] of a string, [float()] of
    an integer beyond 2^53 (where it rounds), [json.loads],
    [statistics.mean] and [statistics.pstdev], the float product and
    difference, and the SHA-256 digest used as cache key. *)
Class PyBuiltins : Type := {
  repr_of : json → string;
  int_of_str : string → option Z;
  float_of_str : string → option Qc;
  float_of_int : Z → Qc;
  json_loads : string → option json;
  mean : list Qc → Qc;
  pstdev : list Qc → Qc;
  float_mul : Qc → Qc → Qc;
  float_sub : Qc → Qc → Qc
}.

Section Conversions.
Context `{PyBuiltins}.

(** [str(v)] *)
Definition py_str (v : json) : string :=
  match v with JStr s => s | _ => repr_of v end.

(** [int(v)]: truncation toward zero on a float. *)
Definition py_int (v : json) : PyExn + Z :=
  match v with
  | JInt z => inr z
  | JBool b => inr (if b then 1 else 0)
  | JFloat q => inr (Z.quot (Qnum (this q)) (Z.pos (Qden (this q))))
  | JStr s => match int_of_str s with
              | Some z => inr z
              | None => inl (ValueError "invalid literal for int()")
              end
  | _ => inl TypeError
  end.

(** The least integer that [float()] cannot convert: halfway between the
    largest double, 2^1024 - 2^971, and 2^1024. *)
Definition float_overflow : Z := 2 ^ 1024 - 2 ^ 970.

(** [float(v)]: exact on an integer up to 2^53, rounded beyond, and
    OverflowError ("int too large to convert to float") from
    [float_overflow] on. *)
Definition py_float (v : json) : PyExn + Qc :=
  match v with
  | JInt z =>
      if Z.abs z <? float_overflow
      then inr (if Z.abs z <=? 2 ^ 53 then Q2Qc (inject_Z z) else float_of_int z)
      else inl OverflowError
  | JBool b => inr (Q2Qc (inject_Z (if b then 1 else 0)))
  | JFloat q => inr q
  | JStr s => match float_of_str s with
              | Some q => inr q
              | None => inl (ValueError "could not convert string to float")
              end
  | _ => inl TypeError
  end.

End Conversions.

End Json.

(** ** openai_responses.py: the LLM client *)

Module Client.
Import Py Env Json.

(** The message list of a request, by the arguments prompts.py builds it
    from; the template text is outside the model. *)
Inductive Messages : Type :=
  | SpymasterMessages (prompt_id : string) (board_words : list string)
      (key : list CardType) (revealed : list bool) (team : Team)
  | GuesserMessages (prompt_id : string) (board_words : list string)
      (revealed : list bool) (clue : string) (number : Z) (max_allowed : Z).

(** The keys of the two prompt registries of prompts.py. *)
Definition _SPYMASTER_PROMPTS : list string := ["spymaster_v1"; "spymaster_v2"].
Definition _GUESSER_PROMPTS : list string := ["guesser_v1"; "guesser_v2"].

(** [spymaster_messages] and [guesser_messages]: KeyError on a prompt id
    that is not registered. *)
Definition spymaster_messages (prompt_id : string) (board_words : list string)
    (key : list CardType) (revealed : list bool) (team : Team) : PyExn + Messages :=
  if bool_decide (prompt_id ∈ _SPYMASTER_PROMPTS)
  then inr (SpymasterMessages prompt_id board_words key revealed team)
  else inl (KeyError ("Unknown spymaster prompt_id: " +:+ prompt_id)).

Definition guesser_messages (prompt_id : string) (board_words : list string)
    (revealed : list bool) (clue : string) (number : Z) (max_allowed : Z)
    : PyExn + Messages :=
  if bool_decide (prompt_id ∈ _GUESSER_PROMPTS)
  then inr (GuesserMessages prompt_id board_words revealed clue number max_allowed)
  else inl (KeyError ("Unknown guesser prompt_id: " +:+ prompt_id)).

(** schemas.py, by the arguments that vary. *)
Inductive Schema : Type :=
  | spymaster_single_schema
  | spymaster_list_schema (max_candidates : Z)
  | guesser_schema (unrevealed_words : list string) (max_guesses : Z).

(** The keyword arguments of [create_json]. *)
Record Request : Type := mkRequest {
  rq_model : string;
  rq_input_items : Messages;
  rq_schema_name : string;
  rq_schema : Schema;
  rq_temperature : Qc;
  rq_top_p : Qc;
  rq_max_output_tokens : Z;
  rq_store : bool;
  rq_mode : string;
  rq_retries : Z;
  rq_cache_deterministic_only : bool
}.

Record LLMResponse : Type := mkResponse {
  parsed : json;
  raw : json;
  output_text : string;
  usage : json;
  response_id : option json;
  model : option json
}.

(** The request body: [text.format] carries name, schema and strict only in
    mode json_schema. *)
Record Payload : Type := mkPayload {
  p_model : string;
  p_input : Messages;
  p_temperature : Qc;
  p_top_p : Qc;
  p_max_output_tokens : Z;
  p_store : bool;
  p_format_type : string;
  p_format_schema : option (string * Schema)
}.

(** What one [requests.post] does: it raises, or gives a response with a
    status code and a body, the body [None] where [resp.json()] raises. *)
Inductive HttpResult : Type :=
  | PostRaises
  | Response (status_code : Z) (body : option json).

(** The world the client acts on: the responses the server gives to the
    successive posts, the number of posts made, the arguments of
    [time.sleep] so far (latest first), and the cache table ([None] when the
    client has no cache). *)
Record World : Type := mkWorld {
  server : nat → HttpResult;
  posts : nat;
  slept : list Qc;
  cache : option (gmap string json)
}.

Definition raises (A : Type) : Type := (PyExn + A)%type.

Section Client.
Context `{PyBuiltins}.
(** [self._cache_key]: the SHA-256 of the payload dumped with sorted keys. *)
Variable _cache_key : Payload → string.

(** The inner loop of [extract_output_text] over the content parts of one
    assistant message: [Some] when it returns or raises, [None] when the
    parts are exhausted. *)
Fixpoint scan_content (parts : list json) : option (raises json) :=
  match parts with
  | [] => None
  | JDict c :: rest =>
      if is_str "output_text" (lookup_key "type" c)
      then Some (inr (get "text" (JStr "") c))
      else if is_str "refusal" (lookup_key "type" c)
      then Some (inl (RuntimeError ("Model refusal: " +:+ py_str (get "refusal" (JStr "") c))))
      else scan_content rest
  | _ :: _ => Some (inl AttributeError)
  end.

(** The outer loop over [resp_json["output"]]. *)
Fixpoint scan_output (items : list json) : option (raises json) :=
  match items with
  | [] => None
  | JDict item :: rest =>
      if is_str "message" (lookup_key "type" item)
         && is_str "assistant" (lookup_key "role" item)
      then
        let content := get "content" (JList []) item in
        match py_iter (if truthy content then content else JList []) with
        | inl e => Some (inl e)
        | inr parts =>
            match scan_content parts with
            | Some r => Some r
            | None => scan_output rest
            end
        end
      else scan_output rest
  | _ :: _ => Some (inl AttributeError)
  end.

Definition extract_output_text (resp_json : json) : raises json :=
  match resp_json with
  | JDict d =>
      let output := get "output" (JList []) d in
      match py_iter (if truthy output then output else JList []) with
      | inl e => inl e
      | inr items =>
          match scan_output items with
          | Some r => r
          | None =>
              match lookup_key "output_text" d with
              | Some (JStr s) => inr (JStr s)
              | _ => inl (RuntimeError "No output_text found in response JSON.")
              end
          end
      end
  | _ => inl AttributeError
  end.

(** [text.find("{")]: the first position of [c] from position [i] on. *)
Fixpoint find_from (c : ascii) (i : nat) (s : string) : option nat :=
  match s with
  | EmptyString => None
  | String c' r => if Ascii.eqb c' c then Some i else find_from c (S i) r
  end.

(** [text.rfind("}")]: the last position of [c]. *)
Fixpoint rfind_from (c : ascii) (i : nat) (s : string) : option nat :=
  match s with
  | EmptyString => None
  | String c' r =>
      match rfind_from c (S i) r with
      | Some k => Some k
      | None => if Ascii.eqb c' c then Some i else None
      end
  end.

Definition _salvage_json (text : string) : raises json :=
  match find_from "{"%char 0 text, rfind_from "}"%char 0 text with
  | Some start, Some e =>
      if (start <? e)%nat then
        match json_loads (String.substring start (e + 1 - start) text) with
        | Some v => inr v
        | None => inl (ValueError "JSONDecodeError")
        end
      else inl (ValueError "JSONDecodeError")
  | _, _ => inl (ValueError "JSONDecodeError")
  end.

(** [self._parse_response(data)]: a text that is not a string makes
    [json.loads] fail and the salvage raise on [text.find]. *)
Definition _parse_response (data : json) : raises LLMResponse :=
  match extract_output_text data with
  | inl e => inl e
  | inr (JStr text) =>
      let finish (p : json) :=
        match data with
        | JDict d =>
            let u := get "usage" (JDict []) d in
            inr (mkResponse p data text (if truthy u then u else JDict [])
                            (lookup_key "id" d) (lookup_key "model" d))
        | _ => inl AttributeError
        end in
      match json_loads text with
      | Some p => finish p
      | None =>
          match _salvage_json text with
          | inr p => finish p
          | inl e => inl e
          end
      end
  | inr _ => inl AttributeError
  end.

(** The body of the [try] of one attempt, after [requests.post] returned a
    response that is not retryable by its status: [raise_for_status], then
    [resp.json()], the cache write, and the parse. The cache is written
    before the response is parsed. *)
Definition finish_attempt (use_cache : bool) (key : string)
    (status_code : Z) (body : option json) (w : World) : raises LLMResponse * World :=
  if (400 <=? status_code) && (status_code <? 600) then (inl (HTTPError status_code), w)
  else
    match body with
    | None => (inl (ValueError "JSONDecodeError"), w)
    | Some data =>
        let w' :=
          if use_cache
          then mkWorld (server w) (posts w) (slept w) (insert key data <$> cache w)
          else w in
        (_parse_response data, w')
    end.

Definition sleep (backoff : Qc) (w : World) : World :=
  mkWorld (server w) (posts w) (backoff :: slept w) (cache w).

Definition post (w : World) : HttpResult * World :=
  (server w (posts w), mkWorld (server w) (S (posts w)) (slept w) (cache w)).

(** [for attempt in range(retries)] with [attempts] iterations left; the
    result is the response returned from inside the loop, or the last error
    when the loop runs out. *)
Fixpoint attempt_loop (use_cache : bool) (key : string) (attempts : nat)
    (backoff : Qc) (last_err : option PyExn) (w : World)
    : (option PyExn + LLMResponse) * World :=
  match attempts with
  | O => (inl last_err, w)
  | S n =>
      let '(r, w1) := post w in
      match r with
      | PostRaises =>
          attempt_loop use_cache key n (backoff * Q2Qc 2)%Qc (Some TransportError)
                       (sleep backoff w1)
      | Response status_code body =>
          if (status_code =? 429) || (500 <=? status_code) && (status_code <? 600)
          then attempt_loop use_cache key n (backoff * Q2Qc 2)%Qc last_err (sleep backoff w1)
          else
            match finish_attempt use_cache key status_code body w1 with
            | (inr resp, w2) => (inr resp, w2)
            | (inl e, w2) =>
                attempt_loop use_cache key n (backoff * Q2Qc 2)%Qc (Some e) (sleep backoff w2)
            end
      end
  end.

(** The arguments of [time.sleep] over [k] failed attempts that start with
    [backoff], latest first: backoff * 2^(k-1), ..., backoff * 2, backoff. *)
Fixpoint backoffs (k : nat) (backoff : Qc) : list Qc :=
  match k with
  | O => []
  | S k' => backoffs k' (backoff * Q2Qc 2)%Qc ++ [backoff]
  end.

Definition payload_of (rq : Request) : Payload :=
  mkPayload (rq_model rq) (rq_input_items rq) (rq_temperature rq) (rq_top_p rq)
            (rq_max_output_tokens rq) (rq_store rq) (rq_mode rq)
            (if String.eqb (rq_mode rq) "json_schema"
             then Some (rq_schema_name rq, rq_schema rq) else None).

(** [use_cache]: the client has a cache, and the call is deterministic or
    the caller lifted that condition. *)
Definition use_cache (rq : Request) (w : World) : bool :=
  match cache w with
  | None => false
  | Some _ =>
      negb (rq_cache_deterministic_only rq)
      || bool_decide (rq_temperature rq = Q2Qc 0) && bool_decide (rq_top_p rq = Q2Qc 1)
  end.

(** [self.cache.get(cache_key)], read under [if cached is not None]. *)
Definition cache_get (key : string) (w : World) : option json :=
  match cache w with
  | Some tbl => match tbl !! key with Some JNull => None | c => c end
  | None => None
  end.

(** [OpenAIResponsesClient.create_json] *)
Definition create_json (rq : Request) (w : World) : raises LLMResponse * World :=
  if negb (String.eqb (rq_mode rq) "json_schema" || String.eqb (rq_mode rq) "json_object")
  then (inl (ValueError "mode must be json_schema or json_object"), w)
  else
    let key := _cache_key (payload_of rq) in
    match (if use_cache rq w then cache_get key w else None) with
    | Some data => (_parse_response data, w)
    | None =>
        match attempt_loop (use_cache rq w) key (Z.to_nat (rq_retries rq)) (Q2Qc 1) None w with
        | (inr resp, w') => (inr resp, w')
        | (inl last_err, w') => (inl (RequestFailed (rq_retries rq) last_err), w')
        end
    end.

(** A response that [raise_for_status] lets through and in which
    [extract_output_text] finds a refusal part with message [msg]. *)
Definition refusal_response (r : HttpResult) (msg : string) : Prop :=
  ∃ status_code data,
    r = Response status_code (Some data)
    ∧ ¬ (400 ≤ status_code < 600)
    ∧ extract_output_text data = inl (RuntimeError ("Model refusal: " +:+ msg)).

End Client.

End Client.

(** ** scoring.py and agent.py: the turn engine *)

Module Agent.
Import Py Env Json Client Legality.

Local Open Scope Qc_scope.

(** *** types.py: configuration *)

Record LLMConfig : Type := mkLLMConfig {
  c_provider : string;
  c_model : string;
  c_prompt_id : string;
  c_temperature : Qc;
  c_top_p : Qc;
  c_max_output_tokens : Z;
  c_output_mode : string
}.

Record SelectionConfig : Type := mkSelectionConfig {
  eval_samples_per_candidate : Z;
  eval_temperature : Qc;
  eval_top_p : Qc;
  aggregate : string;
  lambda_std : Qc;
  max_eval_candidates : option Z
}.

(** [SpymasterConfig(LLMConfig)]: the inherited fields are [sp_llm]. *)
Record SpymasterConfig : Type := mkSpymasterConfig {
  sp_llm : LLMConfig;
  candidates_per_turn : Z;
  generation_mode : string
}.

Record AgentConfig : Type := mkAgentConfig {
  name : string;
  spymaster : SpymasterConfig;
  guesser : LLMConfig;
  selection : SelectionConfig
}.

(** *** scoring.py *)

Record Weights : Type := mkWeights {
  w_correct : Qc;
  w_opponent : Qc;
  w_neutral : Qc;
  w_assassin : Qc
}.

Definition DEFAULT_WEIGHTS : Weights :=
  mkWeights (Q2Qc 1) (Q2Qc (-1)) (Q2Qc (-3 # 10)) (Q2Qc (-10)).

Definition turn_utility (outcome : TurnOutcome) (weights : option Weights) : Qc :=
  let w := default DEFAULT_WEIGHTS weights in
  fold_left
    (fun score a =>
       if bool_decide (card_type a = card_of_team (team outcome)) then score + w_correct w
       else if bool_decide (card_type a = ASSASSIN) then score + w_assassin w
       else if bool_decide (card_type a = CRed ∨ card_type a = CBlue) then score + w_opponent w
       else score + w_neutral w)
    (applied outcome) (Q2Qc 0).

(** *** agent.py: records *)

Record Candidate : Type := mkCandidate {
  cand_clue : string;
  cand_number : Z;
  intended_targets : json;
  danger_words : json;
  cand_raw : json
}.

Record CandidateEvalSample : Type := mkSample {
  s_guesses : list string;
  s_confidences : list Qc;
  s_outcome : TurnOutcome;
  s_utility : Qc
}.

Record CandidateEvaluation : Type := mkEvaluation {
  candidate : Candidate;
  samples : list CandidateEvalSample;
  mean_utility : Qc;
  std_utility : Qc;
  selection_score : Qc
}.

(** The dicts [take_turn] builds from the raw candidates: the keys "clue",
    "number", "intended_targets", "danger_words" and "_raw"; a key that a
    dict lacks reads [JNull], which is what [c.get(k, None)] reads. *)
Record CandDict : Type := mkCandDict {
  d_clue : json;
  d_number : json;
  d_intended_targets : json;
  d_danger_words : json;
  d_raw : json
}.

(** The entries of the rejected lists, by their keys. *)
Inductive Rejected : Type :=
  | RejectedRaw (_reject_reason : string) (_raw : json)
  | RejectedCall (_reject_reason : string) (error : PyExn)
  | RejectedCand (_reject_reason : string) (c : CandDict)
  | FallbackUsed (fallback : CandDict).

Record Chosen : Type := mkChosen {
  ch_clue : string;
  ch_number : Z;
  ch_mean_utility : Qc;
  ch_std_utility : Qc;
  ch_selection_score : Qc
}.

Record TurnLog : Type := mkTurnLog {
  tl_team : Team;
  generated_candidates : nat;
  legal_candidates : nat;
  rejected_candidates : list Rejected;
  candidate_evaluations : list CandidateEvaluation;
  chosen : Chosen;
  actual_guesses : list string;
  actual_outcome : TurnOutcome
}.

Record TeamAgent : Type := mkTeamAgent {
  cfg : AgentConfig;
  selection_weights : option Weights
}.

(** The two rejection entries the default generation mode writes. *)
Definition generation_failure (r : Rejected) : Prop :=
  (∃ e, r = RejectedCall "spymaster_call_failed" e)
  ∨ (∃ p, r = RejectedRaw "spymaster_non_dict" p).

(** A sample of [_evaluate_candidate]: its outcome is what [apply_turn] returns
    for the sample's guesses on a copy of the state, and its utility is the
    [turn_utility] of that outcome under the agent's weights. *)
Definition rollout_of (weights : option Weights) (state : GameState) (tm : Team)
    (cand : Candidate) (s : CandidateEvalSample) : Prop :=
  (∃ sim, apply_turn (copy state) tm (cand_clue cand) (cand_number cand)
                     (s_guesses s) true = (sim, inr (s_outcome s)))
  ∧ s_utility s = turn_utility (s_outcome s) weights.

(** *** Helpers of agent.py *)

Section Helpers.
Context `{PyBuiltins}.

(** [filter_legal_clues] of legality.py on the dicts of [take_turn]. *)
Fixpoint filter_legal_clues (candidates : list CandDict) (board_words : list string)
    : list CandDict * list Rejected :=
  match candidates with
  | [] => ([], [])
  | c :: rest =>
      let cl := strip (py_str (d_clue c)) in
      let c' := mkCandDict (JStr cl) (d_number c) (d_intended_targets c)
                           (d_danger_words c) (d_raw c) in
      let '(legal, rejected) := filter_legal_clues rest board_words in
      let '(ok, reason) := is_legal_clue cl board_words in
      if ok then (c' :: legal, rejected) else (legal, RejectedCand reason c' :: rejected)
  end.

(** The clue [filter_legal_clues] tests, [str(c.get("clue", "")).strip()],
    and the dict it passes on, [{**c, "clue": clue}]. *)
Definition stripped_clue (c : CandDict) : string := strip (py_str (d_clue c)).

Definition with_stripped_clue (c : CandDict) : CandDict :=
  mkCandDict (JStr (stripped_clue c)) (d_number c) (d_intended_targets c)
             (d_danger_words c) (d_raw c).

(** [max(0.0, min(1.0, c))] *)
Definition clamp01 (c : Qc) : Qc :=
  let m := if bool_decide (Q2Qc 1 < c) then Q2Qc 1 else c in
  if bool_decide (Q2Qc 0 < m) then m else Q2Qc 0.

(** The loop of [_parse_guesser_output] over the items of "guesses". *)
Fixpoint parse_items (items : list json) : list string * list Qc :=
  match items with
  | [] => ([], [])
  | JDict item :: rest =>
      let w := upper (strip (py_str (get "word" (JStr "") item))) in
      let c := match py_float (get "confidence" (JFloat (Q2Qc (1 # 2))) item) with
               | inr c => c
               | inl _ => Q2Qc (1 # 2)
               end in
      let '(gs, cs) := parse_items rest in
      if is_empty w then (gs, cs) else (w :: gs, clamp01 c :: cs)
  | _ :: rest => parse_items rest
  end.

Definition _parse_guesser_output (obj : json) : list string * list Qc :=
  match obj with
  | JDict d =>
      match get "guesses" (JList []) d with
      | JList g => parse_items g
      | _ => ([], [])
      end
  | _ => ([], [])
  end.

(** The loop of [_sanitize_guesses], with its variables [out] and [seen]. *)
Fixpoint sanitize_loop (max_allowed : Z) (guesses : list string)
    (out : list string) (seen : gset string) : list string :=
  match guesses with
  | [] => out
  | g :: rest =>
      let gg := upper (strip g) in
      if is_empty gg || bool_decide (gg ∈ seen) then sanitize_loop max_allowed rest out seen
      else
        let seen' := {[ gg ]} ∪ seen in
        let out' := out ++ [gg] in
        if (max_allowed <=? Z.of_nat (length out'))%Z then out'
        else sanitize_loop max_allowed rest out' seen'
  end.

Definition _sanitize_guesses (guesses : list string) (max_allowed : Z) : list string :=
  sanitize_loop max_allowed guesses [] ∅.

Definition _aggregate_score (mean_u std_u : Qc) (utilities : list Qc)
    (aggregate : string) (lambda_std : Qc) : Qc :=
  if String.eqb aggregate "mean" then mean_u
  else if String.eqb aggregate "mean_minus_lambda_std"
  then float_sub mean_u (float_mul lambda_std std_u)
  else if String.eqb aggregate "p10" then
    match utilities with
    | [] => mean_u
    | _ =>
        let utilities_sorted := merge_sort Qcle utilities in
        (* int(0.1 * (len - 1)) *)
        let idx := Z.to_nat ((Z.of_nat (length utilities_sorted) - 1) / 10) in
        default mean_u (utilities_sorted !! idx)
    end
  else float_sub mean_u (float_mul lambda_std std_u).

(** The key of [max] in [take_turn]. *)
Definition key_of (e : CandidateEvaluation) : Qc * Qc * Qc :=
  (selection_score e, mean_utility e, - std_utility e).

(** [a > b] on 3-tuples of floats: the first position where the two differ
    decides. *)
Definition key_gt (a b : Qc * Qc * Qc) : bool :=
  let '(a1, a2, a3) := a in
  let '(b1, b2, b3) := b in
  if negb (bool_decide (a1 = b1)) then bool_decide (b1 < a1)
  else if negb (bool_decide (a2 = b2)) then bool_decide (b2 < a2)
  else if negb (bool_decide (a3 = b3)) then bool_decide (b3 < a3)
  else false.

(** The loop of the builtin [max(iterable, key=...)]: the running maximum
    is replaced only by an item whose key is greater. *)
Fixpoint max_from (best : CandidateEvaluation) (rest : list CandidateEvaluation)
    : CandidateEvaluation :=
  match rest with
  | [] => best
  | e :: r => if key_gt (key_of e) (key_of best) then max_from e r else max_from best r
  end.

(** [max(evals, key=lambda e: (e.selection_score, e.mean_utility, -e.std_utility))] *)
Definition pick_best (evals : list CandidateEvaluation) : raises CandidateEvaluation :=
  match evals with
  | [] => inl (ValueError "max() arg is an empty sequence")
  | e :: r => inr (max_from e r)
  end.

(** The preference of the selection, in the words of the specification:
    [e1] is preferred to [e2] when its selection score is higher, or the
    scores are equal and its mean is higher, or scores and means are equal
    and its standard deviation is lower. *)
Definition preferred (e1 e2 : CandidateEvaluation) : Prop :=
  selection_score e2 < selection_score e1
  ∨ (selection_score e1 = selection_score e2
     ∧ (mean_utility e2 < mean_utility e1
        ∨ (mean_utility e1 = mean_utility e2 ∧ std_utility e1 < std_utility e2))).

Definition same_statistics (e1 e2 : CandidateEvaluation) : Prop :=
  selection_score e1 = selection_score e2
  ∧ mean_utility e1 = mean_utility e2
  ∧ std_utility e1 = std_utility e2.

(** A sanitised guess: no lowercase letter, not empty. *)
Definition clean (g : string) : Prop := no_lower g = true ∧ g ≠ "".

(** A guess in the form [apply_turn] normalises to: not empty, and unchanged
    by trimming and uppercasing. *)
Definition tidy (g : string) : Prop := g ≠ "" ∧ norm g = g.

(** A candidate dict as the legality filter returns it in its legal list. *)
Definition passed_filter (bw : list string) (c : CandDict) : Prop :=
  ∃ cl r, d_clue c = JStr cl ∧ is_legal_clue cl bw = (true, r).

(** [l[:n]] *)
Definition slice_to {A : Type} (n : Z) (l : list A) : list A :=
  if (0 <=? n)%Z then take (Z.to_nat n) l
  else take (length l - Z.to_nat (- n)) l.

(** The number-range pass of [take_turn] over the legal candidates. *)
Fixpoint filter_numbers (rem : nat) (legal : list CandDict) : list CandDict * list Rejected :=
  match legal with
  | [] => ([], [])
  | c :: rest =>
      let '(final_legal, rejected_number) := filter_numbers rem rest in
      match py_int (d_number c) with
      | inl _ => (final_legal, RejectedCand "bad_number" c :: rejected_number)
      | inr n =>
          if (n <? 1)%Z then (final_legal, RejectedCand "number_lt_1" c :: rejected_number)
          else if (Z.min 9 (Z.of_nat rem) <? n)%Z
          then (final_legal,
                RejectedCand ("number_gt_remaining(" +:+ pretty rem +:+ ")") c :: rejected_number)
          else (c :: final_legal, rejected_number)
      end
  end.

End Helpers.

(** *** The methods of [TeamAgent], over any client *)

Section TeamAgent.
Context `{PyBuiltins}.
(** The state of the client and of what it talks to, and its [create_json]. *)
Context {W : Type}.
Variable create_json : Request → W → raises LLMResponse * W.

(** A computation that may raise and acts on the client. *)
Definition M (A : Type) : Type := W → raises A * W.
Definition ret {A : Type} (a : A) : M A := fun w => (inr a, w).
Definition throw {A : Type} (e : PyExn) : M A := fun w => (inl e, w).
Definition bind {A B : Type} (m : M A) (k : A → M B) : M B :=
  fun w => match m w with
           | (inr a, w') => k a w'
           | (inl e, w') => (inl e, w')
           end.
(** [try: m  except Exception as e: h e] *)
Definition try_except {A : Type} (m : M A) (h : PyExn → M A) : M A :=
  fun w => match m w with
           | (inr a, w') => (inr a, w')
           | (inl e, w') => h e w'
           end.
Definition lift {A : Type} (r : raises A) : M A := fun w => (r, w).

#[local] Instance M_bind : MBind M := fun A B k m => bind m k.

Variable self : TeamAgent.

(** The messages of a spymaster call, [spymaster_messages(...)] on the
    configured prompt id, and the keyword arguments of the call. *)
Definition spymaster_msgs (state : GameState) (tm : Team) : raises Messages :=
  spymaster_messages (c_prompt_id (sp_llm (spymaster (cfg self))))
    (words (board state)) (key (board state)) (revealed state) tm.

Definition spymaster_request (msgs : Messages) (schema_name : string)
    (schema : Schema) (temperature top_p : Qc) : Request :=
  let sp := sp_llm (spymaster (cfg self)) in
  mkRequest (c_model sp) msgs
    schema_name schema temperature top_p (c_max_output_tokens sp) false
    (c_output_mode sp) 5 true.

(** The same for a guesser call. *)
Definition guesser_msgs (state : GameState) (cl : string) (num max_all : Z)
    : raises Messages :=
  guesser_messages (c_prompt_id (guesser (cfg self)))
    (words (board state)) (revealed state) cl num max_all.

Definition guesser_request (state : GameState) (msgs : Messages) (max_all : Z)
    (temperature top_p : Qc) : Request :=
  let gs := guesser (cfg self) in
  mkRequest (c_model gs) msgs
    "guesser_output"
    (guesser_schema (unrevealed_words state) (Z.min max_all 10))
    temperature top_p (c_max_output_tokens gs) false (c_output_mode gs) 5 true.

(** The loop over the candidates of the one-call mode. *)
Fixpoint split_candidates (cands : list json) : list dict * list Rejected :=
  match cands with
  | [] => ([], [])
  | c :: rest =>
      let '(results, rejected) := split_candidates rest in
      match c with
      | JDict d => (d :: results, rejected)
      | _ => (results, RejectedRaw "non_dict_candidate" c :: rejected)
      end
  end.

(** [for i in range(K)] of the default mode, with [k] calls left. Each
    iteration builds the messages, outside the [try], and then makes the
    call inside it; [msgs] is what [spymaster_messages(...)] gives, its
    arguments being the same at every iteration. *)
Fixpoint k_calls (msgs : raises Messages) (rq_of : Messages → Request) (k : nat)
    (results : list dict) (rejected : list Rejected)
    : M (list dict * list Rejected) :=
  match k with
  | O => ret (results, rejected)
  | S k' =>
      fun w =>
        match msgs with
        | inl e => (inl e, w)
        | inr m =>
            match create_json (rq_of m) w with
            | (inr resp, w') =>
                match parsed resp with
                | JDict d => k_calls msgs rq_of k' (results ++ [d]) rejected w'
                | p => k_calls msgs rq_of k' results
                         (rejected ++ [RejectedRaw "spymaster_non_dict" p]) w'
                end
            | (inl e, w') =>
                k_calls msgs rq_of k' results
                  (rejected ++ [RejectedCall "spymaster_call_failed" e]) w'
            end
        end
  end.

Definition _generate_candidates (state : GameState) (tm : Team)
    : M (list dict * list Rejected) :=
  let sp := spymaster (cfg self) in
  let K := Z.max 1 (candidates_per_turn sp) in
  if String.eqb (generation_mode sp) "one_call_list" then
    msgs ← lift (spymaster_msgs state tm);
    resp ← create_json (spymaster_request msgs "spymaster_candidates"
                          (spymaster_list_schema K)
                          (c_temperature (sp_llm sp)) (c_top_p (sp_llm sp)));
    let cands := match parsed resp with
                 | JDict d => get "candidates" (JList []) d
                 | _ => JList []
                 end in
    items ← lift (py_iter cands);
    ret (split_candidates items)
  else
    k_calls (spymaster_msgs state tm)
            (fun msgs => spymaster_request msgs "spymaster_clue" spymaster_single_schema
                           (c_temperature (sp_llm sp)) (c_top_p (sp_llm sp)))
            (Z.to_nat K) [] [].

(** The hardcoded fallback. *)
Definition MYSTERY : CandDict :=
  mkCandDict (JStr "MYSTERY") (JInt 1) JNull JNull (JDict [("fallback", JBool true)]).

(** [_fallback_candidate]: the messages are built before the [try]. *)
Definition _fallback_candidate (state : GameState) (tm : Team) : M CandDict :=
  let sp := spymaster (cfg self) in
  let t := c_temperature (sp_llm sp) in
  msgs ← lift (spymaster_msgs state tm);
  try_except
    (resp ← create_json (spymaster_request msgs "spymaster_clue" spymaster_single_schema
                           (if bool_decide (t < Q2Qc (1 # 5)) then t else Q2Qc (1 # 5))
                           (Q2Qc 1));
     let p := match parsed resp with JDict d => d | _ => [] end in
     let cl := strip (py_str (get "clue" (JStr "MYSTERY") p)) in
     number ← lift (py_int (get "number" (JInt 1) p));
     ret (mkCandDict (JStr cl) (JInt number) JNull JNull (JDict p)))
    (fun _ => ret MYSTERY).

(** The guess list of one guesser response: [_parse_guesser_output], then
    [_sanitize_guesses] with max_allowed = min(number + 1, |unrevealed|). *)
Definition guesses_of (state : GameState) (num : Z) (p : json) : list string * list Qc :=
  let max_all := Z.min (num + 1) (Z.of_nat (length (unrevealed_words state))) in
  let '(gs, confidences) := _parse_guesser_output p in
  (_sanitize_guesses gs max_all, confidences).

(** [for g in range(G)] of [_evaluate_candidate], with [g] rollouts left. *)
Fixpoint rollouts (state : GameState) (tm : Team) (cand : Candidate) (g : nat)
    (samples : list CandidateEvalSample) : M (list CandidateEvalSample) :=
  match g with
  | O => ret samples
  | S g' =>
      let max_all := Z.min (cand_number cand + 1)
                           (Z.of_nat (length (unrevealed_words state))) in
      let sel := selection (cfg self) in
      msgs ← lift (guesser_msgs state (cand_clue cand) (cand_number cand) max_all);
      resp ← create_json (guesser_request state msgs max_all
                            (eval_temperature sel) (eval_top_p sel));
      let '(gs, confidences) := guesses_of state (cand_number cand) (parsed resp) in
      let sim_state := copy state in
      match apply_turn sim_state tm (cand_clue cand) (cand_number cand) gs true with
      | (_, inl e) => throw e
      | (_, inr outcome) =>
          let util := turn_utility outcome (selection_weights self) in
          rollouts state tm cand g' (samples ++ [mkSample gs confidences outcome util])
      end
  end.

Definition _evaluate_candidate (state : GameState) (tm : Team) (cand : Candidate)
    : M CandidateEvaluation :=
  let sel := selection (cfg self) in
  let G := Z.max 1 (eval_samples_per_candidate sel) in
  samples ← rollouts state tm cand (Z.to_nat G) [];
  let utilities := match s_utility <$> samples with [] => [Q2Qc 0] | us => us end in
  let mean_u := mean utilities in
  let std_u := if (1 <? length utilities)%nat then pstdev utilities else Q2Qc 0 in
  let score := _aggregate_score mean_u std_u utilities (aggregate sel) (lambda_std sel) in
  ret (mkEvaluation cand samples mean_u std_u score).

(** [for c in eval_candidates] of [take_turn]. *)
Fixpoint evaluate_all (state : GameState) (tm : Team) (cs : list CandDict)
    : M (list CandidateEvaluation) :=
  match cs with
  | [] => ret []
  | c :: rest =>
      number ← lift (py_int (d_number c));
      ev ← _evaluate_candidate state tm
             (mkCandidate (strip (py_str (d_clue c))) number
                          (d_intended_targets c) (d_danger_words c) (d_raw c));
      evs ← evaluate_all state tm rest;
      ret (ev :: evs)
  end.

Definition cand_dict_of (c : dict) : CandDict :=
  mkCandDict (get "clue" (JStr "") c) (get "number" (JInt 1) c)
             (get "intended_targets" JNull c) (get "danger_words" JNull c) (JDict c).

(** [TeamAgent.take_turn]: the state after the turn, and the tuple returned. *)
Definition take_turn (state : GameState) (tm : Team)
    : M (GameState * (string * Z * list string * TurnLog)) :=
  '(candidates_raw, rejected_generation) ← _generate_candidates state tm;
  let cand_dicts := cand_dict_of <$> candidates_raw in
  let '(legal, rejected_legality) := filter_legal_clues cand_dicts (words (board state)) in
  let rem := remaining state tm in
  let '(final_legal0, rejected_number) := filter_numbers rem legal in
  let rejected_all0 := rejected_generation ++ rejected_legality ++ rejected_number in
  '(final_legal, rejected_all) ←
    match final_legal0 with
    | [] =>
        fallback ← _fallback_candidate state tm;
        ret ([fallback], rejected_all0 ++ [FallbackUsed fallback])
    | _ => ret (final_legal0, rejected_all0)
    end;
  let max_eval :=
    match max_eval_candidates (selection (cfg self)) with
    | Some n => if (n =? 0)%Z then Z.of_nat (length final_legal) else n
    | None => Z.of_nat (length final_legal)
    end in
  let eval_candidates := slice_to max_eval final_legal in
  evals ← evaluate_all state tm eval_candidates;
  best ← lift (pick_best evals);
  let chosen := candidate best in
  let max_all := Z.min (cand_number chosen + 1)
                       (Z.of_nat (length (unrevealed_words state))) in
  msgs ← lift (guesser_msgs state (cand_clue chosen) (cand_number chosen) max_all);
  resp ← create_json (guesser_request state msgs max_all
                        (c_temperature (guesser (cfg self)))
                        (c_top_p (guesser (cfg self))));
  let '(gs, confidences) := guesses_of state (cand_number chosen) (parsed resp) in
  match apply_turn state tm (cand_clue chosen) (cand_number chosen) gs true with
  | (_, inl e) => throw e
  | (state', inr outcome) =>
      ret (state',
           (cand_clue chosen, cand_number chosen, gs,
            mkTurnLog tm (length candidates_raw) (length final_legal) rejected_all evals
              (mkChosen (cand_clue chosen) (cand_number chosen) (mean_utility best)
                        (std_utility best) (selection_score best))
              gs outcome))
  end.

End TeamAgent.

End Agent.

(** ** runner.py: the game runner *)

Module Runner.
Import Py Env Json Client Agent.

(** The dict [play_game] returns. *)
Record GameRecord : Type := mkGameRecord {
  g_board_id : string;
  g_words : list string;
  g_key : list CardType;
  g_starting_team : Team;
  g_winner : option Team;
  g_loser : option Team;
  end_reason : string;
  turns : list TurnLog
}.

(** One line of the results file: [{**game_meta, **game}]. *)
Record MatchRecord : Type := mkMatchRecord {
  run_id : string;
  red_agent : string;
  blue_agent : string;
  mirror : bool;
  game : GameRecord
}.

Section Runner.
Context `{PyBuiltins}.
Context {W : Type}.
Variable create_json : Request → W → raises LLMResponse * W.

(** The local variables of [play_game] that its loop writes. *)
Record Play : Type := mkPlay {
  p_state : GameState;
  p_turns : list TurnLog;
  p_winner : option Team;
  p_loser : option Team;
  p_end_reason : string
}.

(** [for turn_idx in range(max_turns)] with [n] turns left. *)
Fixpoint turn_loop (red_cfg blue_cfg : AgentConfig) (n : nat) (p : Play) : M (W := W) Play :=
  match n with
  | O => ret p
  | S n' =>
      let tm := current_team (p_state p) in
      let agent := mkTeamAgent (if bool_decide (tm = RED) then red_cfg else blue_cfg) None in
      bind (take_turn create_json agent (p_state p) tm)
        (fun '(state', (_, _, _, tlog)) =>
           let turns' := p_turns p ++ [tlog] in
           let outcome := actual_outcome tlog in
           if game_over outcome then
             ret (mkPlay state' turns' (winner outcome) (loser outcome)
                    (if bool_decide (stopped_reason outcome = assassin)
                     then "assassin" else "completed_agents"))
           else
             turn_loop red_cfg blue_cfg n'
               (mkPlay (mkState (board state') (revealed state') (other_team tm))
                       turns' (p_winner p) (p_loser p) (p_end_reason p)))
  end.

Definition play_game (b : Board) (red_cfg blue_cfg : AgentConfig) (max_turns : Z)
    : M (W := W) GameRecord :=
  bind (turn_loop red_cfg blue_cfg (Z.to_nat max_turns)
          (mkPlay (init_game_state b) [] None None "unknown"))
    (fun p =>
       let reason := match p_winner p with
                     | None => "max_turns"
                     | Some _ => p_end_reason p
                     end in
       ret (mkGameRecord (board_id b) (words b) (key b) (starting_team b)
              (p_winner p) (p_loser p) reason (p_turns p))).

(** The world of [run_match]: the client's world and the lines written to
    the results file so far. *)
Definition Out : Type := (W * list MatchRecord)%type.

(** The body of [for r in range(replicates)] for one [r]. *)
Definition run_replicate (b : Board) (red_cfg blue_cfg : AgentConfig) (with_mirror : bool)
    (max_turns : Z) (r : nat) (o : Out) : raises unit * Out :=
  let '(w, file) := o in
  match play_game b red_cfg blue_cfg max_turns w with
  | (inl e, w1) => (inl e, (w1, file))
  | (inr g, w1) =>
      let file1 :=
        file ++ [mkMatchRecord (board_id b +:+ "::rep" +:+ pretty r +:+ "::Ared")
                   (name red_cfg) (name blue_cfg) false g] in
      if with_mirror then
        match play_game b blue_cfg red_cfg max_turns w1 with
        | (inl e, w2) => (inl e, (w2, file1))
        | (inr g2, w2) =>
            (inr tt,
             (w2, file1 ++ [mkMatchRecord (board_id b +:+ "::rep" +:+ pretty r +:+ "::Ablue")
                              (name blue_cfg) (name red_cfg) true g2]))
        end
      else (inr tt, (w1, file1))
  end.

(** [for r in range(replicates)], from [r] on, [n] iterations left. *)
Fixpoint replicate_loop (b : Board) (red_cfg blue_cfg : AgentConfig) (with_mirror : bool)
    (max_turns : Z) (r n : nat) (o : Out) : raises unit * Out :=
  match n with
  | O => (inr tt, o)
  | S n' =>
      match run_replicate b red_cfg blue_cfg with_mirror max_turns r o with
      | (inl e, o') => (inl e, o')
      | (inr _, o') => replicate_loop b red_cfg blue_cfg with_mirror max_turns (S r) n' o'
      end
  end.

(** [for b in boards] *)
Fixpoint board_loop (boards : list Board) (red_cfg blue_cfg : AgentConfig)
    (replicates : Z) (with_mirror : bool) (max_turns : Z) (o : Out) : raises unit * Out :=
  match boards with
  | [] => (inr tt, o)
  | b :: rest =>
      match replicate_loop b red_cfg blue_cfg with_mirror max_turns 0 (Z.to_nat replicates) o with
      | (inl e, o') => (inl e, o')
      | (inr _, o') => board_loop rest red_cfg blue_cfg replicates with_mirror max_turns o'
      end
  end.

(** [run_match]: the results file is opened for writing, hence empty, and
    one line is written and flushed after each game. *)
Definition run_match (boards : list Board) (red_cfg blue_cfg : AgentConfig)
    (replicates : Z) (with_mirror : bool) (max_turns : Z) (w : W) : raises unit * Out :=
  board_loop boards red_cfg blue_cfg replicates with_mirror max_turns (w, []).

(** The games of a match in the order in which [run_match] plays them: for
    each board and each replicate the main orientation, then, with
    [mirror], the game with the two configurations swapped. *)
Record Scheduled : Type := mkScheduled {
  sc_board : Board;
  sc_red : AgentConfig;
  sc_blue : AgentConfig;
  sc_run_id : string;
  sc_mirror : bool
}.

Definition games_of_replicate (b : Board) (red_cfg blue_cfg : AgentConfig)
    (with_mirror : bool) (r : nat) : list Scheduled :=
  mkScheduled b red_cfg blue_cfg (board_id b +:+ "::rep" +:+ pretty r +:+ "::Ared") false
  :: (if with_mirror
      then [mkScheduled b blue_cfg red_cfg
              (board_id b +:+ "::rep" +:+ pretty r +:+ "::Ablue") true]
      else []).

Definition schedule (boards : list Board) (red_cfg blue_cfg : AgentConfig)
    (replicates : Z) (with_mirror : bool) : list Scheduled :=
  b ← boards;
  r ← seq 0 (Z.to_nat replicates);
  games_of_replicate b red_cfg blue_cfg with_mirror r.

(** One scheduled game: played, and its record written if it returns. *)
Definition play_scheduled (max_turns : Z) (g : Scheduled) (o : Out) : raises unit * Out :=
  let '(w, file) := o in
  match play_game (sc_board g) (sc_red g) (sc_blue g) max_turns w with
  | (inl e, w1) => (inl e, (w1, file))
  | (inr rec, w1) =>
      (inr tt,
       (w1, file ++ [mkMatchRecord (sc_run_id g) (name (sc_red g)) (name (sc_blue g))
                       (sc_mirror g) rec]))
  end.

(** Scheduled games played in order until one raises. *)
Fixpoint play_all (max_turns : Z) (gs : list Scheduled) (o : Out) : raises unit * Out :=
  match gs with
  | [] => (inr tt, o)
  | g :: rest =>
      match play_scheduled max_turns g o with
      | (inl e, o') => (inl e, o')
      | (inr _, o') => play_all max_turns rest o'
      end
  end.

(** The team to move in turn [i] of a game that [start] opens. *)
Definition turn_of (start : Team) (i : nat) : Team :=
  if Nat.even i then start else other_team start.

(** A logged turn that did not end the game. *)
Definition goes_on (log : TurnLog) : Prop := game_over (actual_outcome log) = false.

(** The values [play_game] gives to end_reason. *)
Definition end_reasons : list string := ["assassin"; "completed_agents"; "max_turns"].

End Runner.

End Runner.

(** ** boards.py: word lists and board generation *)

Module Boards.
Import Py Env.

(** [w.startswith("#")] *)
Definition starts_with_hash (w : string) : bool :=
  match w with
  | String c _ => Ascii.eqb c "#"%char
  | EmptyString => false
  end.

(** [" " in w or "\t" in w] *)
Definition has_blank (w : string) : bool :=
  contains " " w || contains (String (ascii_of_nat 9) EmptyString) w.

(** The loop of [load_wordlist] over the lines of the file
    ([p.read_text().splitlines()]). *)
Fixpoint keep_words (lines : list string) : list string :=
  match lines with
  | [] => []
  | line :: rest =>
      let w := strip line in
      if is_empty w || starts_with_hash w then keep_words rest
      else
        let w' := upper w in
        if has_blank w' then keep_words rest else w' :: keep_words rest
  end.

(** [list(dict.fromkeys(words))]: the first occurrence of each word, in
    order; [seen] holds the keys already in the dict. *)
Fixpoint fromkeys (ws : list string) (seen : list string) : list string :=
  match ws with
  | [] => []
  | w :: rest =>
      if bool_decide (w ∈ seen) then fromkeys rest seen
      else w :: fromkeys rest (w :: seen)
  end.

Definition too_small (n : nat) : PyExn :=
  ValueError ("Wordlist too small after filtering: " +:+ pretty n
              +:+ " words. Provide a larger list.").

(** [load_wordlist], from the lines of the file on. *)
Definition load_wordlist (lines : list string) : PyExn + list string :=
  let dedup := fromkeys (keep_words lines) [] in
  if (length dedup <? 50)%nat then inl (too_small (length dedup)) else inr dedup.

(** What [generate_board] can raise. *)
Inductive GenExn : Type :=
  | GenValueError (msg : string)
  | AssertionError.

(** The key before the shuffle: the counts dict in insertion order, the
    starting team first. *)
Definition key_in_order (start : Team) : list CardType :=
  replicate 9 (card_of_team start) ++ replicate 8 (card_of_team (other_team start))
  ++ replicate 7 NEUTRAL ++ replicate 1 ASSASSIN.

Section Generate.
(** The state of a [random.Random] and the three methods used. *)
Context {Rng : Type}.
Variable rng_sample : Rng → list string → nat → list string * Rng.
(** [rng.choice(["RED", "BLUE"])] *)
Variable rng_choice : Rng → Team * Rng.
Variable rng_shuffle : Rng → list CardType → list CardType * Rng.

Definition generate_board (rng : Rng) (wordlist : list string) (board_id : string)
    : (GenExn + Board) * Rng :=
  if (length wordlist <? 25)%nat
  then (inl (GenValueError "Wordlist must contain at least 25 unique words."), rng)
  else
    let '(ws, rng1) := rng_sample rng wordlist 25 in
    let '(start, rng2) := rng_choice rng1 in
    let '(ks, rng3) := rng_shuffle rng2 (key_in_order start) in
    if negb (length ks =? 25)%nat then (inl AssertionError, rng3)
    else (inr (mkBoard board_id ws ks start), rng3).

End Generate.

End Boards.

(** A board with the standard distribution (RED starts: 9 RED, 8 BLUE,
    7 NEUTRAL, 1 ASSASSIN), used to run the definitions. *)
Module Sample.
Import Py Env Json Client Legality Agent.

Definition sample_words : list string :=
  ["APPLE"; "BRIDGE"; "CAT"; "DRAGON"; "EAGLE"; "FOREST"; "GHOST"; "HAMMER"; "ISLAND";
   "JUNGLE"; "KNIGHT"; "LEMON"; "MOUNTAIN"; "NEEDLE"; "OCEAN"; "PIANO"; "QUEEN";
   "RIVER"; "SHADOW"; "TABLE"; "UMBRELLA"; "VIOLIN"; "WHALE"; "YACHT";
   "ZEBRA"].

Definition sample_key : list CardType :=
  replicate 9 CRed ++ replicate 8 CBlue ++ replicate 7 NEUTRAL ++ [ASSASSIN].

Definition sample_board : Board := mkBoard "board-000000" sample_words sample_key RED.

Definition sample_state : GameState := init_game_state sample_board.

(** The same board late in the game: BLUE has only QUEEN left. *)
Definition late_state : GameState :=
  mkState sample_board
    (replicate 9 false ++ replicate 7 true ++ [false] ++ replicate 8 false) RED.

(** Scenario 1: the assassin is guessed first. *)
Definition c1_state' : GameState :=
  mkState sample_board (replicate 24 false ++ [true]) RED.
Definition c1_applied : AppliedGuess := mkApplied "ZEBRA" 24 ASSASSIN.
Definition c1_outcome : TurnOutcome :=
  mkOutcome RED "BEACH" 2 3 ["ZEBRA"] [c1_applied] assassin true (Some BLUE) (Some RED).

(** Scenario 4: RED reveals BLUE's last card. *)
Definition c2_state' : GameState :=
  mkState sample_board (replicate 9 false ++ replicate 8 true ++ replicate 8 false) RED.
Definition c2_applied : AppliedGuess := mkApplied "QUEEN" 16 CBlue.
Definition c2_outcome : TurnOutcome :=
  mkOutcome RED "CROWN" 1 2 ["queen"; "CAT"] [c2_applied] wrong true (Some BLUE) (Some RED).

(** Scenario 3: number 0 and three guesses, without and with the cap. *)
Definition c3_outcome : TurnOutcome :=
  mkOutcome RED "FRUIT" 0 1 ["APPLE"; "BRIDGE"; "CAT"]
    [mkApplied "APPLE" 0 CRed; mkApplied "BRIDGE" 1 CRed; mkApplied "CAT" 2 CRed]
    stop false None None.
Definition c3_state' : GameState :=
  mkState sample_board ([true] ++ replicate 24 false) RED.
Definition c3_limited : TurnOutcome :=
  mkOutcome RED "FRUIT" 0 1 ["APPLE"; "BRIDGE"; "CAT"]
    [mkApplied "APPLE" 0 CRed] limit false None None.

(** A guess repeated within the turn. *)
Definition x6_outcome : TurnOutcome :=
  mkOutcome RED "FRUIT" 2 3 ["apple"; "APPLE "; "CAT"]
    [mkApplied "APPLE" 0 CRed] invalid_or_repeat false None None.

(** A sanitised list whose second guess is not on the board. *)
Definition x14_outcome : TurnOutcome :=
  mkOutcome RED "FRUIT" 2 3 ["APPLE"; "ZZZ"]
    [mkApplied "APPLE" 0 CRed] invalid_or_repeat false None None.

(** Scenario 2: a correct guess, then a neutral card. *)
Definition c4_state' : GameState :=
  mkState sample_board
    ([true] ++ replicate 16 false ++ [true] ++ replicate 7 false) RED.
Definition c4_outcome : TurnOutcome :=
  mkOutcome RED "FRUIT" 2 3 ["apple "; "river"; "CAT"]
    [mkApplied "APPLE" 0 CRed; mkApplied "RIVER" 17 NEUTRAL]
    wrong false None None.

(** The library functions on the values the examples pass to them: [str()]
    of None, of a bool and of an int, and float arithmetic without
    rounding, which is exact on the few small utilities of the examples; the
    other functions are not reached by the examples and answer with their
    failure value. *)
#[global] Instance sample_builtins : PyBuiltins := {|
  repr_of v := match v with
               | JNull => "None"
               | JBool true => "True"
               | JBool false => "False"
               | JInt z => pretty z
               | _ => ""
               end;
  int_of_str _ := None;
  float_of_str _ := None;
  float_of_int z := Q2Qc (inject_Z z);
  json_loads _ := None;
  mean us := Qcdiv (fold_left Qcplus us (Q2Qc 0)) (Q2Qc (inject_Z (Z.of_nat (length us))));
  pstdev _ := Q2Qc 0;
  float_mul := Qcmult;
  float_sub := Qcminus
|}.


(** An agent configuration: two spymaster calls per turn, one rollout per
    candidate. *)
Definition sample_cfg : AgentConfig :=
  mkAgentConfig "baseline"
    (mkSpymasterConfig
       (mkLLMConfig "openai_responses" "model-a" "spymaster_v1" (Q2Qc (8 # 10)) (Q2Qc 1)
                    256 "json_schema")
       2 "k_calls")
    (mkLLMConfig "openai_responses" "model-a" "guesser_v1" (Q2Qc 0) (Q2Qc 1) 256 "json_schema")
    (mkSelectionConfig 1 (Q2Qc (3 # 10)) (Q2Qc 1) "mean_minus_lambda_std" (Q2Qc (7 # 10)) None).

Definition sample_agent : TeamAgent := mkTeamAgent sample_cfg None.

Definition response_of (p : json) : LLMResponse :=
  mkResponse p (JDict []) "" (JDict []) None None.

(** A client whose spymaster model proposes the board word APPLE as clue on
    every call, and whose guesser model guesses BRIDGE; its state counts the
    calls. *)
Definition board_word_clue : json :=
  JDict [("clue", JStr "APPLE"); ("number", JInt 1);
         ("intended_targets", JList [JStr "BRIDGE"]); ("danger_words", JList [])].

Definition bridge_guess : json :=
  JDict [("guesses", JList [JDict [("word", JStr "BRIDGE"); ("confidence", JFloat (Q2Qc (9 # 10)))]]);
         ("stop_reason", JStr "")].

Definition stubborn_client (rq : Request) (calls : nat) : raises LLMResponse * nat :=
  (inr (response_of (if String.eqb (rq_schema_name rq) "guesser_output"
                     then bridge_guess else board_word_clue)),
   S calls).

(** A client whose spymaster model proposes the clue "fruit" for two cards
    and whose guesser model guesses APPLE. *)
Definition fruit_clue : json :=
  JDict [("clue", JStr " fruit"); ("number", JInt 2);
         ("intended_targets", JList [JStr "APPLE"]); ("danger_words", JList [])].

Definition apple_guess : json :=
  JDict [("guesses", JList [JDict [("word", JStr "apple"); ("confidence", JFloat (Q2Qc (9 # 10)))]]);
         ("stop_reason", JStr "")].

Definition helpful_client (rq : Request) (calls : nat) : raises LLMResponse * nat :=
  (inr (response_of (if String.eqb (rq_schema_name rq) "guesser_output"
                     then apple_guess else fruit_clue)),
   S calls).

(** A random generator without randomness: [sample] takes the first
    words, [choice] the first team, [shuffle] leaves the list as it is. *)
Definition first_sample (r : unit) (l : list string) (k : nat) : list string * unit :=
  (take k l, r).
Definition first_choice (r : unit) : Team * unit := (RED, r).
Definition no_shuffle (r : unit) (l : list CardType) : list CardType * unit := (l, r).

(** A client on which every call fails. *)
Definition failing_client (rq : Request) (calls : nat) : raises LLMResponse * nat :=
  (inl (RequestFailed 5 (Some TransportError)), S calls).

(** A client that answers like [helpful_client] for its first fifteen calls
    and fails from then on. *)
Definition tiring_client (rq : Request) (calls : nat) : raises LLMResponse * nat :=
  if (calls <? 15)%nat then helpful_client rq calls else failing_client rq calls.

(** A server that answers every post with status 200 and a refusal. *)
Definition refusal_body : json :=
  JDict [("id", JStr "resp_1"); ("model", JStr "model-a");
         ("output",
          JList [JDict [("type", JStr "message"); ("role", JStr "assistant");
                        ("content",
                         JList [JDict [("type", JStr "refusal");
                                       ("refusal", JStr "I cannot help with that.")]])]])].

Definition refusing_world : World :=
  mkWorld (fun _ => Response 200 (Some refusal_body)) 0 [] None.

(** The same server, asked by a client with an empty cache. *)
Definition caching_refusing_world : World :=
  mkWorld (fun _ => Response 200 (Some refusal_body)) 0 [] (Some ∅).

(** A server that answers every post with status 200 and the text of an
    empty JSON object, a client with an empty cache, and a [json.loads] that
    reads that text. *)
Definition empty_object_body : json :=
  JDict [("id", JStr "resp_2"); ("model", JStr "model-a");
         ("output",
          JList [JDict [("type", JStr "message"); ("role", JStr "assistant");
                        ("content",
                         JList [JDict [("type", JStr "output_text");
                                       ("text", JStr "{}")]])]])].

Definition answering_world : World :=
  mkWorld (fun _ => Response 200 (Some empty_object_body)) 0 [] (Some ∅).

Definition reading_builtins : PyBuiltins := {|
  repr_of := repr_of;
  int_of_str := int_of_str;
  float_of_str := float_of_str;
  float_of_int := float_of_int;
  json_loads s := if String.eqb s "{}" then Some (JDict []) else None;
  mean := mean;
  pstdev := pstdev;
  float_mul := float_mul;
  float_sub := float_sub
|}.

Definition sample_cache_key (p : Payload) : string := "0f3a".

Definition sample_request : Request :=
  mkRequest "model-a"
    (GuesserMessages "guesser_v1" sample_words (revealed sample_state) "FRUIT" 2 3)
    "guesser_output" (guesser_schema sample_words 3)
    (Q2Qc 0) (Q2Qc 1) 256 false "json_schema" 5 true.

End Sample.
(** ** Facts about one loop iteration *)

Module EnvFacts.
Import Py Env.

Lemma guess_step_spec b tm ma enf j guess l :
  match guess_step b tm ma enf j guess l with
  | Continue l' =>
      ∃ a, Reveals b (norm guess) l l' a
           ∧ card_type a = card_of_team tm
           ∧ l_reason l' = l_reason l ∧ same_flags l l'
           ∧ (enf = true → Z.of_nat j < ma)
  | Break l' =>
      (l_revealed l' = l_revealed l ∧ l_applied l' = l_applied l ∧ same_flags l l'
       ∧ ((l_reason l' = limit ∧ enf = true ∧ ma ≤ Z.of_nat j)
          ∨ (l_reason l' = invalid_or_repeat ∧ (enf = true → Z.of_nat j < ma))))
      ∨ (∃ a, Reveals b (norm guess) l l' a
              ∧ (enf = true → Z.of_nat j < ma)
              ∧ ((card_type a = ASSASSIN ∧ l_reason l' = assassin
                  ∧ over l' (other_team tm) tm)
                 ∨ (card_type a ≠ ASSASSIN ∧ card_type a ≠ card_of_team tm
                    ∧ l_reason l' = wrong
                    ∧ (if (remaining_in (key b) (l_revealed l')
                                        (card_of_team (other_team tm)) =? 0)%nat
                       then over l' (other_team tm) tm else same_flags l l'))
                 ∨ (card_type a = card_of_team tm ∧ l_reason l' = l_reason l
                    ∧ remaining_in (key b) (l_revealed l') (card_of_team tm) = 0%nat
                    ∧ over l' tm (other_team tm))))
  | Raise _ _ => True
  end.
Proof.
  unfold guess_step.
  destruct (enf && (ma <=? Z.of_nat j)) eqn:Hlim.
  { left. simpl. apply andb_true_iff in Hlim as [-> Hle].
    apply Z.leb_le in Hle. unfold same_flags. tauto. }
  assert (Hlt : enf = true → Z.of_nat j < ma).
  { intros ->. simpl in Hlim. apply Z.leb_gt in Hlim. lia. }
  destruct (is_empty _); [left; unfold same_flags; simpl; tauto|].
  destruct (bool_decide _); [left; unfold same_flags; simpl; tauto|].
  destruct (index_of _ _) as [idx|] eqn:Hidx;
    [|left; unfold same_flags; simpl; tauto].
  simpl. destruct (l_revealed l !! idx) as [[|]|] eqn:Hrev; [|  |exact I].
  { left; unfold same_flags; simpl; tauto. }
  destruct (key b !! idx) as [ctype|] eqn:Hkey; [|exact I].
  set (a := mkApplied (norm guess) idx ctype).
  destruct (bool_decide (ctype = ASSASSIN)) eqn:Ha.
  { apply bool_decide_eq_true in Ha. right. exists a.
    split; [by constructor|]. split; [done|]. left. by unfold over. }
  apply bool_decide_eq_false in Ha.
  destruct (bool_decide (ctype ≠ card_of_team tm)) eqn:Hw.
  { apply bool_decide_eq_true in Hw.
    destruct (remaining_in _ _ _ =? 0)%nat eqn:Hrem;
      (right; exists a; split; [by constructor|]; split; [done|]; right; left;
       simpl; rewrite Hrem; by unfold over, same_flags). }
  apply bool_decide_eq_false in Hw.
  assert (ctype = card_of_team tm) as Hc by (destruct (decide (ctype = card_of_team tm)); tauto).
  destruct (remaining_in _ _ _ =? 0)%nat eqn:Hrem.
  { apply Nat.eqb_eq in Hrem. right. exists a.
    split; [by constructor|]. split; [done|]. right; right. by unfold over. }
  exists a. split; [by constructor|]. by unfold same_flags.
Qed.

(** Unfolding [apply_turn] at a returned outcome. *)
Lemma apply_turn_inr s tm cl num gs enf s' o :
  apply_turn s tm cl num gs enf = (s', inr o) →
  ∃ l, guess_loop (board s) tm (Z.max 0 (num + 1)) enf 0 gs (init_loop s) = (l, None)
       ∧ s' = mkState (board s) (l_revealed l) (current_team s)
       ∧ o = mkOutcome tm cl num (Z.max 0 (num + 1)) gs (l_applied l) (l_reason l)
                       (l_game_over l) (l_winner l) (l_loser l).
Proof.
  unfold apply_turn. destruct (guess_loop _ _ _ _ _ _ _) as [l [e|]]; intros H.
  - inversion H.
  - exists l. inversion H; subst. auto.
Qed.

Lemma apply_turn_of_loop s tm cl num gs enf l :
  guess_loop (board s) tm (Z.max 0 (num + 1)) enf 0 gs (init_loop s) = (l, None) →
  apply_turn s tm cl num gs enf
  = (mkState (board s) (l_revealed l) (current_team s),
     inr (mkOutcome tm cl num (Z.max 0 (num + 1)) gs (l_applied l) (l_reason l)
                    (l_game_over l) (l_winner l) (l_loser l))).
Proof. unfold apply_turn. intros ->. reflexivity. Qed.

Lemma card_of_team_not_assassin tm : card_of_team tm ≠ ASSASSIN.
Proof. by destruct tm. Qed.

Lemma cut_at_cons b tm ma enf j g0 gs l l1 l' w :
  guess_step b tm ma enf j g0 l = Continue l1 →
  cut_at b tm ma enf (S j) gs l1 l' w →
  cut_at b tm ma enf j (g0 :: gs) l l' w.
Proof.
  intros Hs (pre & g & post & -> & Hw & Hcut).
  exists (g0 :: pre), g, post. split; [done|]. split; [done|].
  intros post'. simpl. rewrite Hs. apply Hcut.
Qed.

Lemma cut_at_here b tm ma enf j g gs l l' :
  guess_step b tm ma enf j g l = Break l' →
  cut_at b tm ma enf j (g :: gs) l l' (norm g).
Proof.
  intros Hs. exists [], g, gs. split; [done|]. split; [done|].
  intros post'. simpl. by rewrite Hs.
Qed.

(** The loop invariant behind C1: as long as the loop runs, no applied
    guess is the assassin. *)
Lemma loop_assassin b tm ma enf gs : ∀ j l l' a,
  Forall (λ x, card_type x ≠ ASSASSIN) (l_applied l) →
  guess_loop b tm ma enf j gs l = (l', None) →
  a ∈ l_applied l' → card_type a = ASSASSIN →
  l_reason l' = assassin ∧ over l' (other_team tm) tm
  ∧ last (l_applied l') = Some a
  ∧ cut_at b tm ma enf j gs l l' (word a).
Proof.
  induction gs as [|g rest IH]; intros j l l' a Hinv Hloop Hin Hass.
  - simpl in Hloop. inversion Hloop; subst.
    rewrite Forall_forall in Hinv. by apply Hinv in Hin.
  - simpl in Hloop. pose proof (guess_step_spec b tm ma enf j g l) as Hs.
    destruct (guess_step b tm ma enf j g l) as [l1|l1|l1 e] eqn:E.
    + destruct Hs as (a1 & Hr & Hct & _).
      destruct (IH (S j) l1 l' a) as (H1 & H2 & H3 & H4); try done.
      { rewrite (rv_app _ _ _ _ _ Hr). apply Forall_app. split; [done|].
        constructor; [|constructor]. rewrite Hct. apply card_of_team_not_assassin. }
      split_and!; try done. by eapply cut_at_cons.
    + inversion Hloop; subst l1. destruct Hs as [(_ & Happ & _)|(a1 & Hr & _ & Hk)].
      { rewrite Happ in Hin. rewrite Forall_forall in Hinv. by apply Hinv in Hin. }
      rewrite (rv_app _ _ _ _ _ Hr) in Hin |- *.
      apply elem_of_app in Hin as [Hin|Hin].
      { rewrite Forall_forall in Hinv. by apply Hinv in Hin. }
      apply list_elem_of_singleton in Hin. subst a1.
      destruct Hk as [(_ & Hre & Hov)|[(Hna & _)|(Hc & _)]].
      * split_and!; try done.
        { by rewrite last_snoc. }
        rewrite (rv_word _ _ _ _ _ Hr). by apply cut_at_here.
      * done.
      * rewrite Hc in Hass. by apply card_of_team_not_assassin in Hass.
    + inversion Hloop.
Qed.

(** The loop invariant behind C2: as long as the loop runs, every applied
    guess is a card of the guessing team. *)
Lemma loop_wrong b tm ma enf gs : ∀ j l l' a,
  Forall (λ x, card_type x = card_of_team tm) (l_applied l) →
  guess_loop b tm ma enf j gs l = (l', None) →
  a ∈ l_applied l' → card_type a ≠ ASSASSIN → card_type a ≠ card_of_team tm →
  l_reason l' = wrong
  ∧ last (l_applied l') = Some a
  ∧ cut_at b tm ma enf j gs l l' (word a)
  ∧ (remaining_in (key b) (l_revealed l') (card_of_team (other_team tm)) = 0%nat →
     over l' (other_team tm) tm).
Proof.
  induction gs as [|g rest IH]; intros j l l' a Hinv Hloop Hin Hna Hnt.
  - simpl in Hloop. inversion Hloop; subst.
    rewrite Forall_forall in Hinv. by apply Hinv in Hin.
  - simpl in Hloop. pose proof (guess_step_spec b tm ma enf j g l) as Hs.
    destruct (guess_step b tm ma enf j g l) as [l1|l1|l1 e] eqn:E.
    + destruct Hs as (a1 & Hr & Hct & _).
      destruct (IH (S j) l1 l' a) as (H1 & H2 & H3 & H4); try done.
      { rewrite (rv_app _ _ _ _ _ Hr). apply Forall_app. split; [done|].
        by constructor. }
      split_and!; try done. by eapply cut_at_cons.
    + inversion Hloop; subst l1. destruct Hs as [(_ & Happ & _)|(a1 & Hr & _ & Hk)].
      { rewrite Happ in Hin. rewrite Forall_forall in Hinv. by apply Hinv in Hin. }
      rewrite (rv_app _ _ _ _ _ Hr) in Hin |- *.
      apply elem_of_app in Hin as [Hin|Hin].
      { rewrite Forall_forall in Hinv. by apply Hinv in Hin. }
      apply list_elem_of_singleton in Hin. subst a1.
      destruct Hk as [(Hass & _)|[(_ & _ & Hre & Hov)|(Hc & _)]]; try done.
      split; [done|]. split; [by rewrite last_snoc|].
      split; [rewrite (rv_word _ _ _ _ _ Hr); by apply cut_at_here|].
      intros Hz. rewrite Hz in Hov. exact Hov.
    + inversion Hloop.
Qed.

(** *** The bitmap and the counts *)

Lemma remaining_in_insert ks : ∀ rs i t,
  (remaining_in ks (<[ i := true ]> rs) t ≤ remaining_in ks rs t)%nat.
Proof.
  unfold remaining_in.
  induction ks as [|k ks IH]; intros [|r rs] i t; simpl; try lia.
  destruct i as [|i]; simpl.
  - rewrite !filter_cons. simpl.
    destruct (decide (true = false ∧ k = t)) as [[? _]|_]; [done|].
    destruct (decide (r = false ∧ k = t)); simpl; lia.
  - rewrite !filter_cons. specialize (IH rs i t).
    destruct (decide (snd (k, r) = false ∧ fst (k, r) = t)); simpl; lia.
Qed.

Lemma remaining_in_reveal_all ks app : ∀ rs t,
  (remaining_in ks (reveal_all rs app) t ≤ remaining_in ks rs t)%nat.
Proof.
  induction app as [|a app IH]; intros rs t; simpl; [lia|].
  etrans; [apply IH|]. apply remaining_in_insert.
Qed.

Lemma length_reveal_all app : ∀ rs, length (reveal_all rs app) = length rs.
Proof.
  induction app as [|a app IH]; intros rs; simpl; [done|].
  by rewrite IH, length_insert.
Qed.

Lemma lookup_reveal_all app : ∀ (rs : list bool) (i : nat),
  Forall (λ a, (index a < length rs)%nat) app →
  reveal_all rs app !! i
  = if bool_decide (i ∈ index <$> app) then Some true else rs !! i.
Proof.
  induction app as [|a app IH]; intros rs i Hr.
  - unfold reveal_all. simpl fold_left. rewrite fmap_nil.
    case_bool_decide as H; [by apply not_elem_of_nil in H|done].
  - apply Forall_cons in Hr as [Ha Hr].
    change (reveal_all rs (a :: app)) with (reveal_all (<[index a := true]> rs) app).
    rewrite IH; [|by eapply Forall_impl; [exact Hr|]; intros x; rewrite length_insert].
    rewrite fmap_cons.
    destruct (decide (i = index a)) as [->|Hne].
    + rewrite (bool_decide_eq_true_2 (index a ∈ index a :: _)); [|by left].
      rewrite list_lookup_insert_eq; [|done]. by case_bool_decide.
    + rewrite list_lookup_insert_ne; [|done].
      case_bool_decide as H1; case_bool_decide as H2; try done.
      * exfalso. apply H2. by right.
      * exfalso. apply elem_of_cons in H2 as [?|?]; done.
Qed.

(** The loop invariant behind C4. *)
Lemma loop_frame b tm ma enf gs : ∀ j l l',
  guess_loop b tm ma enf j gs l = (l', None) →
  ∃ new, l_applied l' = l_applied l ++ new
         ∧ l_revealed l' = reveal_all (l_revealed l) new
         ∧ Forall (λ a, l_revealed l !! index a = Some false) new
         ∧ NoDup (index <$> new).
Proof.
  induction gs as [|g rest IH]; intros j l l' Hloop; simpl in Hloop.
  - inversion Hloop; subst. exists []. rewrite app_nil_r. split_and!; try done.
    constructor.
  - pose proof (guess_step_spec b tm ma enf j g l) as Hs.
    destruct (guess_step b tm ma enf j g l) as [l1|l1|l1 e] eqn:E.
    + destruct Hs as (a1 & Hr & _).
      destruct (IH _ _ _ Hloop) as (new & Happ & Hrev & Hall & Hnd).
      destruct Hr as [_ _ _ Hwas Hnow Ha1].
      assert (Hlt : (index a1 < length (l_revealed l))%nat)
        by (by eapply lookup_lt_Some).
      assert (Hfresh : ∀ a, a ∈ new → index a ≠ index a1).
      { intros a Ha Heq. rewrite Forall_forall in Hall. apply Hall in Ha.
        rewrite Hnow, Heq, list_lookup_insert_eq in Ha; [done|done]. }
      exists (a1 :: new). split_and!.
      * by rewrite Happ, Ha1, <- app_assoc.
      * by rewrite Hrev, Hnow.
      * constructor; [done|]. rewrite Forall_forall in Hall |- *.
        intros a Ha. specialize (Hall a Ha).
        rewrite Hnow, list_lookup_insert_ne in Hall; [done|].
        intros Heq. by apply (Hfresh a Ha).
      * simpl. constructor; [|done]. intros Hin.
        apply list_elem_of_fmap in Hin as (a & Heq & Ha). by apply (Hfresh a Ha).
    + inversion Hloop; subst l1.
      destruct Hs as [(Hrev & Happ & _)|(a1 & [_ _ _ Hwas Hnow Ha1] & _)].
      * exists []. rewrite app_nil_r. split_and!; try done. constructor.
      * exists [a1]. split_and!; try done.
        { by constructor. }
        simpl. apply NoDup_singleton.
    + inversion Hloop.
Qed.

(** *** The cap on the number of guesses *)

Lemma loop_cap b tm ma gs : ∀ j l l',
  guess_loop b tm ma true j gs l = (l', None) →
  length (l_applied l) = j → Z.of_nat j ≤ ma → l_reason l ≠ limit →
  Z.of_nat (length (l_applied l')) ≤ ma
  ∧ (l_reason l' = limit →
     Z.of_nat (length (l_applied l')) = ma ∧ ma < Z.of_nat (j + length gs)).
Proof.
  induction gs as [|g rest IH]; intros j l l' Hloop Hlen Hj Hnl; simpl in Hloop.
  - inversion Hloop; subst. split; [lia|done].
  - pose proof (guess_step_spec b tm ma true j g l) as Hs.
    destruct (guess_step b tm ma true j g l) as [l1|l1|l1 e] eqn:E.
    + destruct Hs as (a1 & Hr & _ & Hre & _ & Hlt). specialize (Hlt eq_refl).
      destruct (IH _ _ _ Hloop) as [H1 H2].
      { rewrite (rv_app _ _ _ _ _ Hr), length_app. simpl. lia. }
      { lia. }
      { by rewrite Hre. }
      split; [done|]. intros Hl. destruct (H2 Hl). simpl. split; lia.
    + inversion Hloop; subst l1.
      destruct Hs as [(_ & Happ & _ & [(_ & _ & Hle)|(Hre & _)])|(a1 & Hr & Hlt & Hk)].
      * rewrite Happ. split; [lia|]. intros _. simpl. split; lia.
      * rewrite Happ. split; [lia|]. by rewrite Hre.
      * specialize (Hlt eq_refl). rewrite (rv_app _ _ _ _ _ Hr), length_app. simpl.
        split; [lia|]. intros Hl.
        destruct Hk as [(_ & Hre & _)|[(_ & _ & Hre & _)|(_ & Hre & _)]];
          rewrite Hre in Hl; done.
    + inversion Hloop.
Qed.

(** A prefix that is processed to its end without stopping the turn leaves
    the loop at the next position. *)
Lemma loop_through b tm ma enf pre : ∀ j l l1 rest,
  guess_loop b tm ma enf j pre l = (l1, None) →
  l_reason l = stop → l_game_over l = false →
  l_reason l1 = stop → l_game_over l1 = false →
  guess_loop b tm ma enf j (pre ++ rest) l
  = guess_loop b tm ma enf (j + length pre) rest l1
  ∧ length (l_applied l1) = (length (l_applied l) + length pre)%nat.
Proof.
  induction pre as [|g pre IH]; intros j l l1 rest Hloop Hr Hg Hr1 Hg1; simpl in *.
  - inversion Hloop; subst. rewrite Nat.add_0_r. split; [done|lia].
  - pose proof (guess_step_spec b tm ma enf j g l) as Hs.
    destruct (guess_step b tm ma enf j g l) as [l2|l2|l2 e] eqn:E.
    + destruct Hs as (a1 & Hrv & _ & Hre & (Hgo & _) & _).
      destruct (IH (S j) l2 l1 rest Hloop) as [H1 H2]; try congruence.
      rewrite H1, H2, (rv_app _ _ _ _ _ Hrv), length_app. simpl.
      split; [f_equal; lia|lia].
    + inversion Hloop; subst l2. exfalso.
      destruct Hs as [(_ & _ & _ & [(Hre & _)|(Hre & _)])|(a1 & _ & _ & Hk)];
        try congruence.
      destruct Hk as [(_ & Hre & _)|[(_ & _ & Hre & _)|(_ & _ & _ & Hov & _)]];
        congruence.
    + inversion Hloop.
Qed.

End EnvFacts.

(** ** The rules engine: claims C1 to C4 *)

Module Rules.
Import Py Env EnvFacts Sample.

(** On a state whose bitmap and key cover the word list, [apply_turn] raises
    nothing: it returns an outcome. *)
Lemma guess_loop_returns b tm ma enf gs : ∀ j l,
  (length (words b) ≤ length (l_revealed l))%nat →
  (length (words b) ≤ length (key b))%nat →
  ∃ l', guess_loop b tm ma enf j gs l = (l', None).
Proof.
  induction gs as [|g rest IH]; intros j l Hr Hk; simpl; [by eexists|].
  pose proof (guess_step_spec b tm ma enf j g l) as Hs.
  destruct (guess_step b tm ma enf j g l) as [l1|l1|l1 e] eqn:E.
  - destruct Hs as (a & Hrv & _). apply IH; [|done].
    by rewrite (rv_now _ _ _ _ _ Hrv), length_insert.
  - by eexists.
  - exfalso. clear Hs. unfold guess_step in E.
    destruct (enf && _); [done|]. destruct (is_empty _); [done|].
    destruct (bool_decide _); [done|].
    destruct (index_of _ _) as [idx|] eqn:Hidx; [|done]. simpl in E.
    assert (Hlt : (idx < length (words b))%nat).
    { clear -Hidx. revert idx Hidx. induction (words b) as [|w ws IHw]; intros idx; simpl; [done|].
      destruct (String.eqb _ w); [intros [= <-]; lia|].
      destruct (index_of _ ws) as [i|]; simpl; [|done].
      intros [= <-]. specialize (IHw i eq_refl). lia. }
    destruct (l_revealed l !! idx) as [[|]|] eqn:Hl; [done| |].
    + destruct (key b !! idx) eqn:Hkk.
      * repeat case_match; done.
      * apply lookup_ge_None in Hkk. lia.
    + apply lookup_ge_None in Hl. lia.
Qed.

Lemma apply_turn_returns s tm cl num gs enf :
  (length (words (board s)) ≤ length (revealed s))%nat →
  (length (words (board s)) ≤ length (key (board s)))%nat →
  ∃ s' o, apply_turn s tm cl num gs enf = (s', inr o).
Proof.
  intros Hr Hk.
  destruct (guess_loop_returns (board s) tm (Z.max 0 (num + 1)) enf gs 0 (init_loop s))
    as [l Hl]; [done|done|].
  eexists _, _. by apply apply_turn_of_loop.
Qed.

(** C1. Whenever a guess of the turn reveals the ASSASSIN card, the outcome
    has stopped_reason "assassin", the game is over, the opponent is the
    winner and the guessing team the loser, the assassin reveal is the last
    applied guess, and no guess after it is processed: state and outcome are
    the same whatever follows that guess in the list. *)
Theorem C1_assassin_ends_turn s tm cl num gs enf s' o a :
  apply_turn s tm cl num gs enf = (s', inr o) →
  a ∈ applied o → card_type a = ASSASSIN →
  stopped_reason o = assassin ∧ game_over o = true
  ∧ winner o = Some (other_team tm) ∧ loser o = Some tm
  ∧ last (applied o) = Some a
  ∧ ∃ pre g post, gs = pre ++ g :: post ∧ norm g = word a
      ∧ ∀ post', apply_turn s tm cl num (pre ++ g :: post') enf
                 = (s', inr (with_guesses (pre ++ g :: post') o)).
Proof.
  intros Hat Hin Hass.
  apply apply_turn_inr in Hat as (l & Hloop & -> & ->). simpl in *.
  destruct (loop_assassin _ _ _ _ _ _ (init_loop s) _ _ (Forall_nil_2 _) Hloop Hin Hass)
    as (Hre & (Hgo & Hw & Hl) & Hlast & (pre & g & post & -> & Hn & Hcut)).
  split_and!; try done.
  exists pre, g, post. split_and!; try done.
  intros post'. by rewrite (apply_turn_of_loop _ _ _ _ _ _ _ (Hcut post')).
Qed.

Lemma C1_witness :
  apply_turn sample_state RED "BEACH" 2 ["ZEBRA"] true = (c1_state', inr c1_outcome)
  ∧ stopped_reason c1_outcome = assassin ∧ game_over c1_outcome = true
  ∧ winner c1_outcome = Some BLUE ∧ loser c1_outcome = Some RED
  ∧ last (applied c1_outcome) = Some c1_applied.
Proof.
  assert (H : apply_turn sample_state RED "BEACH" 2 ["ZEBRA"] true
              = (c1_state', inr c1_outcome)) by (vm_compute; reflexivity).
  split; [exact H|].
  destruct (C1_assassin_ends_turn _ _ _ _ _ _ _ _ c1_applied H)
    as (H1 & H2 & H3 & H4 & H5 & _); [by left|reflexivity|].
  split_and!; assumption.
Defined.

(** C2. Whenever a processed guess reveals a card that is neither the
    ASSASSIN nor of the guessing team's colour, the outcome has
    stopped_reason "wrong" and nothing after that guess is processed; if the
    opponent has no unrevealed card left after the reveal, the game is over,
    the opponent wins and the guessing team loses. *)
Theorem C2_wrong_ends_turn s tm cl num gs enf s' o a :
  apply_turn s tm cl num gs enf = (s', inr o) →
  a ∈ applied o → card_type a ≠ ASSASSIN → card_type a ≠ card_of_team tm →
  stopped_reason o = wrong
  ∧ last (applied o) = Some a
  ∧ (∃ pre g post, gs = pre ++ g :: post ∧ norm g = word a
      ∧ ∀ post', apply_turn s tm cl num (pre ++ g :: post') enf
                 = (s', inr (with_guesses (pre ++ g :: post') o)))
  ∧ (remaining s' (other_team tm) = 0%nat →
     game_over o = true ∧ winner o = Some (other_team tm) ∧ loser o = Some tm).
Proof.
  intros Hat Hin Hna Hnt.
  apply apply_turn_inr in Hat as (l & Hloop & -> & ->). simpl in *.
  destruct (loop_wrong _ _ _ _ _ _ (init_loop s) _ _ (Forall_nil_2 _) Hloop Hin Hna Hnt)
    as (Hre & Hlast & (pre & g & post & -> & Hn & Hcut) & Hov).
  split_and!; try done.
  exists pre, g, post. split_and!; try done.
  intros post'. by rewrite (apply_turn_of_loop _ _ _ _ _ _ _ (Hcut post')).
Qed.

Lemma C2_witness :
  apply_turn late_state RED "CROWN" 1 ["queen"; "CAT"] true = (c2_state', inr c2_outcome)
  ∧ remaining c2_state' BLUE = 0%nat
  ∧ stopped_reason c2_outcome = wrong
  ∧ game_over c2_outcome = true ∧ winner c2_outcome = Some BLUE
  ∧ loser c2_outcome = Some RED.
Proof.
  assert (H : apply_turn late_state RED "CROWN" 1 ["queen"; "CAT"] true
              = (c2_state', inr c2_outcome)) by (vm_compute; reflexivity).
  assert (Hz : remaining c2_state' (other_team RED) = 0%nat) by (vm_compute; reflexivity).
  split; [exact H|]. split; [exact Hz|].
  destruct (C2_wrong_ends_turn _ _ _ _ _ _ _ _ c2_applied H)
    as (H1 & _ & _ & H4); [by left|discriminate|discriminate|].
  destruct (H4 Hz) as (H5 & H6 & H7).
  split_and!; assumption.
Defined.

(** C3 as stated fails: with [enforce_max_allowed=False] the cap is not
    applied. Number 0 gives max_allowed 1, and three guesses are applied. *)
Lemma C3_counterexample :
  snd (apply_turn sample_state RED "FRUIT" 0 ["APPLE"; "BRIDGE"; "CAT"] false)
  = inr c3_outcome
  ∧ max_allowed c3_outcome = Z.max 0 (0 + 1)
  ∧ ¬ (Z.of_nat (length (applied c3_outcome)) ≤ max_allowed c3_outcome).
Proof.
  split; [vm_compute; reflexivity|]. split; [reflexivity|].
  vm_compute. intros H. apply H. reflexivity.
Qed.

(** C3, amended. For every call that leaves [enforce_max_allowed] at its
    default [True]: max_allowed is max(0, number + 1), at most max_allowed
    guesses are applied, and the stop reason is one of the five values. The
    reason is "limit" only when exactly max_allowed guesses were applied and a
    further guess was left in the list; and when the first max_allowed guesses
    are all applied without stopping the turn, the guess at index max_allowed
    is not applied and the reason is "limit". *)
Theorem C3_cap_on_applied s tm cl num gs s' o :
  apply_turn s tm cl num gs true = (s', inr o) →
  max_allowed o = Z.max 0 (num + 1)
  ∧ Z.of_nat (length (applied o)) ≤ max_allowed o
  ∧ (stopped_reason o = stop ∨ stopped_reason o = limit ∨ stopped_reason o = wrong
     ∨ stopped_reason o = assassin ∨ stopped_reason o = invalid_or_repeat)
  ∧ (stopped_reason o = limit →
     Z.of_nat (length (applied o)) = max_allowed o
     ∧ max_allowed o < Z.of_nat (length gs))
  ∧ (∀ pre g post sp op,
       gs = pre ++ g :: post → Z.of_nat (length pre) = max_allowed o →
       apply_turn s tm cl num pre true = (sp, inr op) →
       stopped_reason op = stop → game_over op = false →
       s' = sp ∧ stopped_reason o = limit ∧ applied o = applied op
       ∧ length (applied o) = length pre ∧ game_over o = false).
Proof.
  intros Hat.
  apply apply_turn_inr in Hat as (l & Hloop & -> & ->). simpl.
  destruct (loop_cap _ _ _ _ _ (init_loop s) _ Hloop) as [Hcap Hlim];
    [done|simpl; lia|done|].
  split_and!; try done.
  - destruct (l_reason l); tauto.
  - intros pre g post sp op -> Hlen Hpre Hst Hgo.
    apply apply_turn_inr in Hpre as (lp & Hlp & -> & ->). simpl in *.
    destruct (loop_through _ _ _ _ _ _ _ _ (g :: post) Hlp) as [Heq Hlen'];
      try done.
    rewrite Heq in Hloop. simpl in Hloop. unfold guess_step in Hloop.
    rewrite (proj2 (Z.leb_le _ _)) in Hloop by lia. simpl in Hloop.
    inversion Hloop; subst l. simpl. split_and!; try done.
Qed.

Lemma C3_witness :
  apply_turn sample_state RED "FRUIT" 0 ["APPLE"; "BRIDGE"; "CAT"] true
  = (c3_state', inr c3_limited)
  ∧ max_allowed c3_limited = 1
  ∧ Z.of_nat (length (applied c3_limited)) ≤ max_allowed c3_limited
  ∧ stopped_reason c3_limited = limit.
Proof.
  assert (H : apply_turn sample_state RED "FRUIT" 0 ["APPLE"; "BRIDGE"; "CAT"] true
              = (c3_state', inr c3_limited)) by (vm_compute; reflexivity).
  split; [exact H|].
  destruct (C3_cap_on_applied _ _ _ _ _ _ _ H) as (H1 & H2 & _ & _ & H5).
  split; [exact H1|]. split; [exact H2|].
  destruct (H5 ["APPLE"] "BRIDGE" ["CAT"] c3_state'
               (mkOutcome RED "FRUIT" 0 1 ["APPLE"] [mkApplied "APPLE" 0 CRed]
                          stop false None None))
    as (_ & H6 & _);
    [reflexivity|reflexivity|vm_compute; reflexivity|reflexivity|reflexivity|].
  exact H6.
Defined.

(** C4. The bitmap after the call is the bitmap before it with the
    positions of the applied guesses set to true; each of these positions was
    false before, no position is listed twice, every other position keeps its
    value, so no flag goes from true to false and the count of unrevealed
    cards of either team does not grow. Board and current team are unchanged. *)
Theorem C4_reveal_frame s tm cl num gs enf s' o :
  apply_turn s tm cl num gs enf = (s', inr o) →
  revealed s' = reveal_all (revealed s) (applied o)
  ∧ Forall (λ a, revealed s !! index a = Some false
                 ∧ revealed s' !! index a = Some true) (applied o)
  ∧ NoDup (index <$> applied o)
  ∧ (∀ i : nat, i ∉ index <$> applied o → revealed s' !! i = revealed s !! i)
  ∧ (∀ i : nat, revealed s !! i = Some true → revealed s' !! i = Some true)
  ∧ (∀ t, remaining s' t ≤ remaining s t)%nat
  ∧ board s' = board s ∧ current_team s' = current_team s.
Proof.
  intros Hat.
  apply apply_turn_inr in Hat as (l & Hloop & -> & ->). simpl.
  destruct (loop_frame _ _ _ _ _ _ _ _ Hloop) as (new & Happ & Hrev & Hall & Hnd).
  simpl in Happ, Hrev, Hall. subst new.
  assert (Hrange : Forall (λ a, (index a < length (revealed s))%nat) (l_applied l)).
  { eapply Forall_impl; [exact Hall|]. intros a Ha. simpl in Ha.
    by apply lookup_lt_Some in Ha. }
  pose proof (lookup_reveal_all (l_applied l) (revealed s)) as Hlk.
  split_and!; try done.
  - rewrite Forall_forall in Hall |- *. intros a Ha. split; [by apply Hall|].
    rewrite Hrev, Hlk by done. rewrite bool_decide_eq_true_2; [done|].
    apply list_elem_of_fmap. by exists a.
  - intros i Hi. rewrite Hrev, Hlk by done. by rewrite bool_decide_eq_false_2.
  - intros i Hi. rewrite Hrev, Hlk by done. by case_bool_decide.
  - intros t. unfold remaining. simpl. rewrite Hrev. apply remaining_in_reveal_all.
Qed.

Lemma C4_witness :
  apply_turn sample_state RED "FRUIT" 2 ["apple "; "river"; "CAT"] true
  = (c4_state', inr c4_outcome)
  ∧ revealed c4_state' = reveal_all (revealed sample_state) (applied c4_outcome)
  ∧ (remaining c4_state' RED ≤ remaining sample_state RED)%nat
  ∧ board c4_state' = board sample_state.
Proof.
  assert (H : apply_turn sample_state RED "FRUIT" 2 ["apple "; "river"; "CAT"] true
              = (c4_state', inr c4_outcome)) by (vm_compute; reflexivity).
  split; [exact H|].
  destruct (C4_reveal_frame _ _ _ _ _ _ _ _ H) as (H1 & _ & _ & _ & _ & H6 & H7 & _).
  split; [exact H1|]. split; [exact (H6 RED)|exact H7].
Defined.

End Rules.

(** ** The legality filter: claim C5 *)

Module LegalityFacts.
Import Py Env Legality Sample.

(** A clue that passes the tests on the clue alone is decided by the loop
    over the board words. *)
Lemma is_legal_clue_board clue bw :
  is_empty (strip clue) = false →
  is_single_word (strip clue) = true →
  is_empty (normalize_token (strip clue)) = false →
  bool_decide (normalize_token (strip clue) ∈ _BANNED_CLUES) = false →
  is_legal_clue clue bw
  = check_board (normalize_token (strip clue)) (pyzip bw (normalize_token <$> bw)).
Proof. unfold is_legal_clue. by intros -> -> -> ->. Qed.

(** The loop rejects the clue as soon as some board word conflicts with it. *)
Lemma check_board_rejects c w bw :
  w ∈ bw → word_conflict c w (normalize_token w) ≠ None →
  fst (check_board c (pyzip bw (normalize_token <$> bw))) = false.
Proof.
  intros Hin Hc. induction bw as [|x bw IH]; [by apply not_elem_of_nil in Hin|].
  simpl. destruct (word_conflict c x (normalize_token x)) eqn:E; [done|].
  apply IH. apply elem_of_cons in Hin as [->|Hin]; [by rewrite E in Hc|done].
Qed.

(** The reason names the first board word that conflicts. *)
Lemma check_board_first c pre w post r :
  Forall (λ x, word_conflict c x (normalize_token x) = None) pre →
  word_conflict c w (normalize_token w) = Some r →
  check_board c (pyzip (pre ++ w :: post) (normalize_token <$> pre ++ w :: post))
  = (false, r).
Proof.
  intros Hpre Hw. induction pre as [|x pre IH]; simpl.
  - by rewrite Hw.
  - apply Forall_cons in Hpre as [Hx Hpre]. rewrite Hx. by apply IH.
Qed.

(** The plural test never decides for a board word with a letter: a word
    and its plural contain one another, and the substring test comes first. *)
Lemma prefix_app a b : String.prefix a (a +:+ b) = true.
Proof.
  induction a as [|c a IH]; simpl; [by destruct b|].
  destruct (ascii_dec c c); [done|done].
Qed.

Lemma contains_app a b : contains a (a +:+ b) = true.
Proof.
  pose proof (prefix_app a b) as H.
  destruct (a +:+ b); cbn [contains]; by rewrite H.
Qed.

Lemma plural_variant_shadowed c w wn r :
  is_empty c = false → is_empty wn = false →
  word_conflict c w wn = Some r →
  r = "matches_board_word:" +:+ w ∨ r = "substring_overlap:" +:+ w.
Proof.
  intros Hc Hw. unfold word_conflict. rewrite Hc, Hw. simpl.
  destruct (String.eqb c wn); [intros [= <-]; by left|].
  destruct (contains c wn || contains wn c) eqn:E; [intros [= <-]; by right|].
  apply orb_false_iff in E as [E1 E2].
  destruct (String.eqb (c +:+ "S") wn) eqn:P1.
  { apply String.eqb_eq in P1. subst wn. by rewrite contains_app in E1. }
  destruct (String.eqb (wn +:+ "S") c) eqn:P2.
  { apply String.eqb_eq in P2. subst c. by rewrite contains_app in E2. }
  done.
Qed.

(** C5 as stated fails: with CAT on the board the clue CATS is rejected for
    substring overlap, not as a plural variant; and when an earlier board
    word conflicts with the clue, the reason names that word instead of CAT. *)
Lemma C5_counterexample :
  "CAT" ∈ sample_words
  ∧ is_legal_clue "CATS" sample_words = (false, "substring_overlap:CAT")
  ∧ is_legal_clue "CATS" sample_words ≠ (false, "plural_variant:CAT")
  ∧ is_legal_clue "CATNIP" ["NIP"; "CAT"] = (false, "substring_overlap:NIP")
  ∧ is_legal_clue "CATNIP" ["NIP"; "CAT"] ≠ (false, "substring_overlap:CAT").
Proof.
  split; [right; right; left|].
  split; [vm_compute; reflexivity|]. split; [vm_compute; discriminate|].
  split; [vm_compute; reflexivity|vm_compute; discriminate].
Qed.

(** C5, amended. For every board-word list containing CAT, the clues CATS
    and CATNIP are both rejected; and when CAT is the first board word that
    conflicts with CATNIP, the result for CATNIP is
    (False, "substring_overlap:CAT"). *)
Theorem C5_cat_rejected (bw : list string) :
  "CAT" ∈ bw →
  fst (is_legal_clue "CATS" bw) = false
  ∧ fst (is_legal_clue "CATNIP" bw) = false
  ∧ (∀ pre post, bw = pre ++ "CAT" :: post →
       Forall (λ x, word_conflict "CATNIP" x (normalize_token x) = None) pre →
       is_legal_clue "CATNIP" bw = (false, "substring_overlap:CAT")).
Proof.
  intros Hin.
  rewrite (is_legal_clue_board "CATS"), (is_legal_clue_board "CATNIP")
    by (vm_compute; reflexivity).
  split_and!.
  - by eapply check_board_rejects.
  - by eapply check_board_rejects.
  - intros pre post -> Hpre. by apply check_board_first.
Qed.

Lemma C5_witness :
  "CAT" ∈ sample_words
  ∧ fst (is_legal_clue "CATS" sample_words) = false
  ∧ is_legal_clue "CATNIP" sample_words = (false, "substring_overlap:CAT").
Proof.
  assert (Hin : "CAT" ∈ sample_words) by (right; right; left).
  destruct (C5_cat_rejected sample_words Hin) as (H1 & _ & H3).
  split; [exact Hin|]. split; [exact H1|].
  apply (H3 ["APPLE"; "BRIDGE"] (drop 3 sample_words)); [reflexivity|].
  repeat constructor.
Defined.

End LegalityFacts.

(** ** The turn engine: claims C6, C7 and C10 *)

Module AgentFacts.
Import Py Env EnvFacts Json Client Legality Agent Sample.

(** *** Sanitised guesses (C7) *)

Lemma upper_char_not_lower c : is_lower (upper_char c) = false.
Proof. destruct c as [[] [] [] [] [] [] [] []]; vm_compute; reflexivity. Qed.

Lemma upper_no_lower s : no_lower (upper s) = true.
Proof. induction s as [|c s IH]; simpl; [done|]. by rewrite upper_char_not_lower, IH. Qed.

Lemma is_empty_false s : is_empty s = false → s ≠ "".
Proof. by destruct s. Qed.

(** The invariant of the loop: [out] holds clean, distinct strings, all of
    them in [seen]. *)
Lemma sanitize_loop_spec ma gs : ∀ out seen,
  Forall clean out → NoDup out → (∀ x, x ∈ out → x ∈ seen) →
  Forall clean (sanitize_loop ma gs out seen)
  ∧ NoDup (sanitize_loop ma gs out seen)
  ∧ (Z.of_nat (length out) < ma →
     Z.of_nat (length (sanitize_loop ma gs out seen)) ≤ ma).
Proof.
  induction gs as [|g gs IH]; intros out seen Hc Hnd Hseen; simpl.
  - split_and!; [done|done|lia].
  - destruct (is_empty (upper (strip g))) eqn:He; simpl.
    { by apply IH. }
    case_bool_decide as Hin; simpl.
    { by apply IH. }
    assert (Hc' : Forall clean (out ++ [upper (strip g)])).
    { apply Forall_app. split; [done|]. constructor; [|done].
      split; [apply upper_no_lower|by apply is_empty_false]. }
    assert (Hnd' : NoDup (out ++ [upper (strip g)])).
    { apply NoDup_app. split_and!; [done| |apply NoDup_singleton].
      intros x Hx Hx'. apply list_elem_of_singleton in Hx'. subst x. auto. }
    destruct (ma <=? Z.of_nat (length (out ++ [upper (strip g)]))) eqn:Hle.
    + split_and!; [done|done|]. rewrite length_app. simpl. lia.
    + apply Z.leb_gt in Hle.
      destruct (IH (out ++ [upper (strip g)]) ({[upper (strip g)]} ∪ seen))
        as (H1 & H2 & H3); [done|done| |].
      { intros x Hx. apply elem_of_union. apply elem_of_app in Hx as [Hx|Hx].
        - right. by apply Hseen.
        - left. apply list_elem_of_singleton in Hx. by apply elem_of_singleton. }
      split_and!; [done|done|]. intros _. by apply H3.
Qed.







(** *** The choice among the evaluations *)

Local Open Scope Qc_scope.

Lemma Qcopp_lt_iff (a b : Qc) : - b < - a ↔ a < b.
Proof.
  split; intros Hlt.
  - destruct (Qclt_le_dec a b) as [|Hle]; [done|].
    apply Qcopp_le_compat in Hle. by apply Qcle_not_lt in Hle.
  - destruct (Qclt_le_dec (- b) (- a)) as [|Hle]; [done|].
    apply Qcopp_le_compat in Hle. rewrite !Qcopp_involutive in Hle.
    by apply Qcle_not_lt in Hle.
Qed.

Lemma Qcopp_eq_iff (a b : Qc) : - a = - b ↔ a = b.
Proof.
  split; [|by intros ->]. intros Heq.
  by rewrite <- (Qcopp_involutive a), Heq, Qcopp_involutive.
Qed.

(** The tuple comparison of the code is the preference of the specification. *)
Lemma key_gt_preferred e1 e2 :
  key_gt (key_of e1) (key_of e2) = true ↔ preferred e1 e2.
Proof.
  unfold key_gt, key_of, preferred.
  destruct (decide (selection_score e1 = selection_score e2)) as [Hs|Hs].
  - rewrite (bool_decide_eq_true_2 _ Hs). simpl.
    destruct (decide (mean_utility e1 = mean_utility e2)) as [Hm|Hm].
    + rewrite (bool_decide_eq_true_2 _ Hm). simpl.
      destruct (decide (- std_utility e1 = - std_utility e2)) as [Hd|Hd].
      * rewrite (bool_decide_eq_true_2 _ Hd). simpl. split; [done|].
        apply (proj1 (Qcopp_eq_iff _ _)) in Hd.
        intros [Hp|(_ & [Hp|(_ & Hp)])]; apply Qclt_not_eq in Hp; congruence.
      * rewrite (bool_decide_eq_false_2 _ Hd). simpl.
        rewrite bool_decide_eq_true, Qcopp_lt_iff. split.
        -- intros Hp. right. split; [done|]. right. by split.
        -- intros [Hp|(_ & [Hp|(_ & Hp)])]; [| |done];
             apply Qclt_not_eq in Hp; congruence.
    + rewrite (bool_decide_eq_false_2 _ Hm). simpl.
      rewrite bool_decide_eq_true. split.
      * intros Hp. right. split; [done|]. by left.
      * intros [Hp|(_ & [Hp|(Hm' & _)])]; [|done|done].
        apply Qclt_not_eq in Hp. congruence.
  - rewrite (bool_decide_eq_false_2 _ Hs). simpl.
    rewrite bool_decide_eq_true. split; [by left|].
    intros [Hp|(Hs' & _)]; done.
Qed.

Lemma preferred_total e1 e2 :
  preferred e1 e2 ∨ preferred e2 e1 ∨ same_statistics e2 e1.
Proof.
  unfold preferred, same_statistics.
  destruct (Qc_dec (selection_score e1) (selection_score e2)) as [[?|?]|Hs];
    [tauto|tauto|].
  destruct (Qc_dec (mean_utility e1) (mean_utility e2)) as [[?|?]|Hm];
    [right; left; right; split; [done|by left]
    |left; right; split; [done|by left]|].
  destruct (Qc_dec (std_utility e1) (std_utility e2)) as [[?|?]|Hd].
  - left. right. split; [done|]. right. by split.
  - right. left. right. split; [done|]. right. by split.
  - right; right. by rewrite Hs, Hm, Hd.
Qed.

Lemma preferred_trans e1 e2 e3 :
  preferred e1 e2 → preferred e2 e3 ∨ same_statistics e2 e3 → preferred e1 e3.
Proof.
  unfold preferred, same_statistics. intros H12 [H23|(Hs & Hm & Hd)].
  - destruct H12 as [H12|(Hs12 & H12)], H23 as [H23|(Hs23 & H23)].
    + left. by eapply Qclt_trans.
    + left. by rewrite <- Hs23.
    + left. by rewrite Hs12.
    + right. split; [congruence|].
      destruct H12 as [H12|(Hm12 & H12)], H23 as [H23|(Hm23 & H23)].
      * left. by eapply Qclt_trans.
      * left. by rewrite <- Hm23.
      * left. by rewrite Hm12.
      * right. split; [congruence|]. by eapply Qclt_trans.
  - by rewrite <- Hs, <- Hm, <- Hd.
Qed.

(** The invariant of the loop of [max]: the running maximum is preferred to
    every item seen so far, except for items with the same statistics, which
    come after it. *)
Lemma max_from_spec rest : ∀ pre best (i : nat),
  pre !! i = Some best →
  (∀ (j : nat) e, pre !! j = Some e →
     preferred best e ∨ (same_statistics best e ∧ (i ≤ j)%nat)) →
  ∃ i' : nat, (pre ++ rest) !! i' = Some (max_from best rest)
    ∧ ∀ (j : nat) e, (pre ++ rest) !! j = Some e →
        preferred (max_from best rest) e
        ∨ (same_statistics (max_from best rest) e ∧ (i' ≤ j)%nat).
Proof.
  induction rest as [|x rest IH]; intros pre best i Hi Hbest.
  - rewrite app_nil_r. by exists i.
  - cbn [max_from]. rewrite (cons_middle x pre rest), app_assoc.
    pose proof (lookup_lt_Some _ _ _ Hi) as Hlt.
    destruct (key_gt (key_of x) (key_of best)) eqn:K.
    + apply key_gt_preferred in K.
      apply (IH (pre ++ [x]) x (length pre)).
      { by rewrite lookup_app_r, Nat.sub_diag. }
      intros j e Hj. destruct (decide (j < length pre)%nat) as [Hjl|Hjl].
      * rewrite lookup_app_l in Hj by done. left.
        eapply preferred_trans; [exact K|].
        destruct (Hbest j e Hj) as [?|[? _]]; [by left|by right].
      * rewrite lookup_app_r in Hj by lia.
        destruct (j - length pre)%nat eqn:Hd; [|by destruct n].
        simpl in Hj. inversion Hj; subst e. right. split; [done|lia].
    + apply (IH (pre ++ [x]) best i).
      { by rewrite lookup_app_l. }
      intros j e Hj. destruct (decide (j < length pre)%nat) as [Hjl|Hjl].
      * rewrite lookup_app_l in Hj by done. by apply Hbest.
      * rewrite lookup_app_r in Hj by lia.
        destruct (j - length pre)%nat eqn:Hd; [|by destruct n].
        simpl in Hj. inversion Hj; subst e.
        destruct (preferred_total x best) as [Hp|[Hp|Hp]].
        -- apply key_gt_preferred in Hp. congruence.
        -- by left.
        -- right. split; [done|lia].
Qed.

(** The [max] of [take_turn] on a non-empty list: the evaluation chosen is
    an item of the list that is preferred to every other item (higher
    selection score; on equal scores higher mean; on equal scores and means
    lower standard deviation), except for items with the same three
    statistics, none of which comes before it. *)
Lemma pick_best_preferred (e0 : CandidateEvaluation) (rest : list CandidateEvaluation) :
  ∃ (i : nat) best,
    pick_best (e0 :: rest) = inr best
    ∧ (e0 :: rest) !! i = Some best
    ∧ ∀ (j : nat) e, (e0 :: rest) !! j = Some e →
        preferred best e ∨ (same_statistics best e ∧ (i ≤ j)%nat).
Proof.
  destruct (max_from_spec rest [e0] e0 0%nat) as (i & Hi & Hmax); [done| |].
  { intros [|j] e Hj; [|done]. inversion Hj; subst. right. split; [done|lia]. }
  exists i, (max_from e0 rest). simpl. split; [done|]. split; [exact Hi|exact Hmax].
Qed.

(** *** The clue that is played (C10) *)

Local Close Scope Qc_scope.

Section Played.
Context `{PyBuiltins} {W : Type}.
Variable create_json : Request → W → raises LLMResponse * W.

Lemma bind_inr {A B : Type} (m : M (W := W) A) (k : A → M B) w b w' :
  bind m k w = (inr b, w') →
  ∃ a w1, m w = (inr a, w1) ∧ k a w1 = (inr b, w').
Proof.
  unfold bind. destruct (m w) as [[e|a] w1]; [done|]. intros Hk. by exists a, w1.
Qed.

Lemma lift_inr {A : Type} (r : raises A) (w : W) a w' :
  lift r w = (inr a, w') → r = inr a ∧ w' = w.
Proof. unfold lift. by intros [= -> ->]. Qed.

Lemma ret_inr {A : Type} (x : A) (w : W) a w' :
  ret x w = (inr a, w') → a = x ∧ w' = w.
Proof. unfold ret. by intros [= -> ->]. Qed.

(** A clue that passes the legality filter is not a board word. *)
Lemma check_board_ok c bw r :
  check_board c (pyzip bw (normalize_token <$> bw)) = (true, r) →
  ∀ w, w ∈ bw → c ≠ normalize_token w.
Proof.
  induction bw as [|x bw IH]; simpl; intros Hc w Hin.
  - by apply not_elem_of_nil in Hin.
  - destruct (word_conflict c x (normalize_token x)) eqn:E; [done|].
    apply elem_of_cons in Hin as [->|Hin]; [|by apply IH].
    unfold word_conflict in E. destruct (String.eqb c (normalize_token x)) eqn:Eq; [done|].
    by apply String.eqb_neq in Eq.
Qed.

Lemma legal_clue_not_on_board cl bw r :
  is_legal_clue cl bw = (true, r) → strip cl ∉ bw.
Proof.
  unfold is_legal_clue. repeat (case_match; [done|]).
  intros Hc Hin. by apply (check_board_ok _ _ _ Hc _ Hin).
Qed.

Lemma filter_legal_clues_passed bw cs : ∀ legal rejected,
  filter_legal_clues cs bw = (legal, rejected) → Forall (passed_filter bw) legal.
Proof.
  induction cs as [|c cs IH]; simpl; intros legal rejected.
  - by intros [= <- <-].
  - destruct (filter_legal_clues cs bw) as [lg rj].
    destruct (is_legal_clue _ bw) as [[|] reason] eqn:E; intros [= <- <-].
    + constructor; [|by eapply IH]. by eexists _, _.
    + by eapply IH.
Qed.

Lemma filter_numbers_subset rem legal : ∀ final rejected,
  filter_numbers rem legal = (final, rejected) → ∀ c, c ∈ final → c ∈ legal.
Proof.
  induction legal as [|c legal IH]; simpl; intros final rejected.
  - intros [= <- <-] x Hx. by apply not_elem_of_nil in Hx.
  - destruct (filter_numbers rem legal) as [fl rj].
    specialize (IH fl rj eq_refl).
    destruct (py_int (d_number c)) as [e|n]; [intros [= <- <-] x Hx; right; by apply IH|].
    destruct (n <? 1)%Z; [intros [= <- <-] x Hx; right; by apply IH|].
    destruct (Z.min 9 (Z.of_nat rem) <? n)%Z; intros [= <- <-] x Hx.
    + right; by apply IH.
    + apply elem_of_cons in Hx as [->|Hx]; [by left|right; by apply IH].
Qed.

Lemma slice_to_subset {A : Type} (n : Z) (l : list A) x : x ∈ slice_to n l → x ∈ l.
Proof. unfold slice_to. destruct (0 <=? n)%Z; apply subseteq_take. Qed.

Variable self : TeamAgent.

Lemma evaluate_candidate_of state tm cand w ev w' :
  _evaluate_candidate create_json self state tm cand w = (inr ev, w') →
  candidate ev = cand.
Proof.
  unfold _evaluate_candidate, mbind, M_bind. intros Hb.
  apply bind_inr in Hb as (samples & w1 & _ & Hr).
  apply ret_inr in Hr as [-> _]. done.
Qed.

Lemma evaluate_all_clues state tm cs : ∀ w evs w',
  evaluate_all create_json self state tm cs w = (inr evs, w') →
  Forall (λ ev, ∃ c, c ∈ cs ∧ cand_clue (candidate ev) = strip (py_str (d_clue c))) evs.
Proof.
  induction cs as [|c cs IH]; simpl; intros w evs w' Hrun.
  - apply ret_inr in Hrun as [-> _]. constructor.
  - unfold mbind, M_bind in Hrun.
    apply bind_inr in Hrun as (num & w1 & _ & Hrun).
    apply bind_inr in Hrun as (ev & w2 & Hev & Hrun).
    apply bind_inr in Hrun as (evs' & w3 & Hevs & Hrun).
    apply ret_inr in Hrun as [-> _].
    apply evaluate_candidate_of in Hev. constructor.
    + exists c. split; [by left|]. by rewrite Hev.
    + eapply Forall_impl; [by eapply IH|].
      intros ev' (c' & Hc' & Heq). exists c'. split; [by right|done].
Qed.

Lemma max_from_elem rest : ∀ best, max_from best rest ∈ best :: rest.
Proof.
  induction rest as [|e rest IH]; intros best; cbn [max_from]; [by left|].
  destruct (key_gt (key_of e) (key_of best)).
  - right. apply IH.
  - specialize (IH best). apply elem_of_cons in IH as [->|IH]; [by left|by right; right].
Qed.

Lemma pick_best_elem evals best : pick_best evals = inr best → best ∈ evals.
Proof. destruct evals as [|e r]; simpl; [done|]. intros [= <-]. apply max_from_elem. Qed.

(** What [take_turn] returns: the clue and number are those of the
    evaluation chosen by [max] among the logged evaluations, the clue is the
    one given to [apply_turn], and unless the fallback was used it is the
    clue of a candidate that passed the legality filter. *)
Lemma take_turn_returns state tm w state' cl num gs log w' :
  take_turn create_json self state tm w = (inr (state', (cl, num, gs, log)), w') →
  (∃ best, pick_best (candidate_evaluations log) = inr best
           ∧ cl = cand_clue (candidate best) ∧ num = cand_number (candidate best))
  ∧ clue (actual_outcome log) = cl
  ∧ ((∃ fb, FallbackUsed fb ∈ rejected_candidates log
            ∧ cl = strip (py_str (d_clue fb)))
     ∨ (∃ c, passed_filter (words (board state)) c ∧ cl = strip (py_str (d_clue c)))).
Proof.
  unfold take_turn, mbind, M_bind. intros Hrun.
  apply bind_inr in Hrun as ([raw rejg] & w1 & _ & Hrun).
  destruct (filter_legal_clues _ _) as [legal rejl] eqn:Hlegal.
  destruct (filter_numbers _ legal) as [fl0 rejn] eqn:Hnum.
  apply bind_inr in Hrun as ([fl rej] & w2 & Hfl & Hrun).
  apply bind_inr in Hrun as (evals & w3 & Hevals & Hrun).
  apply bind_inr in Hrun as (best & w4 & Hbest & Hrun).
  apply lift_inr in Hbest as [Hbest ->].
  apply bind_inr in Hrun as (msgs & w4' & _ & Hrun).
  apply bind_inr in Hrun as (resp & w5 & _ & Hrun).
  destruct (guesses_of _ _ _) as [gs0 cf].
  destruct (apply_turn _ _ _ _ _ _) as [st1 [e|o]] eqn:Hat; [done|].
  apply ret_inr in Hrun as [Heq _]. inversion Heq; subst; clear Heq. simpl.
  apply apply_turn_inr in Hat as (l & _ & _ & ->). simpl.
  split; [by exists best|]. split; [done|].
  apply pick_best_elem in Hbest.
  apply evaluate_all_clues in Hevals. rewrite Forall_forall in Hevals.
  destruct (Hevals _ Hbest) as (c & Hc & Hcl). apply slice_to_subset in Hc.
  destruct fl0 as [|c0 fl0].
  - apply bind_inr in Hfl as (fb & w6 & _ & Hfl).
    apply ret_inr in Hfl as [[= -> ->] _].
    apply list_elem_of_singleton in Hc. subst c. left. exists fb. split; [|done].
    apply elem_of_app. right. by left.
  - apply ret_inr in Hfl as [[= -> ->] _]. right. exists c. split; [|done].
    apply filter_legal_clues_passed in Hlegal. rewrite Forall_forall in Hlegal.
    apply Hlegal. by eapply filter_numbers_subset.
Qed.

(** C6. When [take_turn] returns, the clue and the number it returns, which
    are the ones it plays and logs as chosen, are those of one of the logged
    candidate evaluations, and that evaluation is preferred to every other
    one (higher selection score; on equal scores higher mean; on equal scores
    and means lower standard deviation), except for evaluations with the same
    three statistics, none of which comes before it in the evaluation order:
    among identical statistics the earliest index is chosen. *)
Theorem C6_take_turn_choice state tm w state' cl num gs log w' :
  take_turn create_json self state tm w = (inr (state', (cl, num, gs, log)), w') →
  ∃ (i : nat) best,
    candidate_evaluations log !! i = Some best
    ∧ cl = cand_clue (candidate best) ∧ num = cand_number (candidate best)
    ∧ chosen log = mkChosen cl num (mean_utility best) (std_utility best)
                            (selection_score best)
    ∧ clue (actual_outcome log) = cl ∧ number (actual_outcome log) = num
    ∧ ∀ (j : nat) e, candidate_evaluations log !! j = Some e →
        preferred best e ∨ (same_statistics best e ∧ (i ≤ j)%nat).
Proof.
  unfold take_turn, mbind, M_bind. intros Hrun.
  apply bind_inr in Hrun as ([raw rejg] & w1 & _ & Hrun).
  destruct (filter_legal_clues _ _) as [legal rejl].
  destruct (filter_numbers _ legal) as [fl0 rejn].
  apply bind_inr in Hrun as ([fl rej] & w2 & _ & Hrun).
  apply bind_inr in Hrun as (evals & w3 & _ & Hrun).
  apply bind_inr in Hrun as (best & w4 & Hbest & Hrun).
  apply lift_inr in Hbest as [Hbest ->].
  apply bind_inr in Hrun as (msgs & w4' & _ & Hrun).
  apply bind_inr in Hrun as (resp & w5 & _ & Hrun).
  destruct (guesses_of _ _ _) as [gs0 cf].
  destruct (apply_turn _ _ _ _ _ _) as [st1 [e|o]] eqn:Hat; [done|].
  apply ret_inr in Hrun as [Heq _]. inversion Heq; subst; clear Heq.
  cbn [candidate_evaluations chosen actual_outcome].
  apply apply_turn_inr in Hat as (l & _ & _ & ->). cbn [clue number].
  destruct evals as [|e0 rest]; [done|].
  destruct (pick_best_preferred e0 rest) as (i & best' & Hpick & Hi & Hpref).
  rewrite Hbest in Hpick. injection Hpick as <-.
  exists i, best. by split_and!.
Qed.

(** Without the fallback, the clue that is played is not a board word. *)
Lemma played_clue_off_board state tm w state' cl num gs log w' :
  take_turn create_json self state tm w = (inr (state', (cl, num, gs, log)), w') →
  (∀ fb, FallbackUsed fb ∉ rejected_candidates log) →
  cl ∉ words (board state).
Proof.
  intros Hrun Hnofb.
  destruct (take_turn_returns _ _ _ _ _ _ _ _ _ Hrun)
    as (_ & _ & [(fb & Hfb & _)|(c & (cl0 & r & Hd & Hok) & ->)]).
  - by apply Hnofb in Hfb.
  - rewrite Hd. simpl. by eapply legal_clue_not_on_board.
Qed.

End Played.

Lemma C6_witness :
  ∃ state' cl num gs log calls (i : nat) best,
    take_turn helpful_client sample_agent sample_state RED 0%nat
    = (inr (state', (cl, num, gs, log)), calls)
    ∧ candidate_evaluations log !! i = Some best
    ∧ cl = cand_clue (candidate best) ∧ num = cand_number (candidate best)
    ∧ ∀ (j : nat) e, candidate_evaluations log !! j = Some e →
        preferred best e ∨ (same_statistics best e ∧ (i ≤ j)%nat).
Proof.
  destruct (take_turn helpful_client sample_agent sample_state RED 0%nat)
    as [[e|[state' [[[cl num] gs] log]]] calls] eqn:Hrun.
  - vm_compute in Hrun. discriminate Hrun.
  - destruct (C6_take_turn_choice helpful_client sample_agent sample_state RED 0%nat
                state' cl num gs log calls Hrun)
      as (i & best & Hi & Hcl & Hnum & _ & _ & _ & Hpref).
    exists state', cl, num, gs, log, calls, i, best. split; [reflexivity|].
    split; [exact Hi|]. split; [exact Hcl|]. split; [exact Hnum|exact Hpref].
Defined.

(** C10 fails on the fallback path. A spymaster that proposes the board
    word APPLE on every call has both generated candidates rejected
    (matches_board_word:APPLE); the fallback call gives APPLE again, which is
    put in the legal list unchecked, evaluated, chosen, and given to
    [apply_turn] as the clue of the turn. *)
Theorem C10_fallback_clue_on_board :
  ∃ state' num gs log calls,
    take_turn stubborn_client sample_agent sample_state RED 0%nat
    = (inr (state', ("APPLE", num, gs, log)), calls)
    ∧ clue (actual_outcome log) = "APPLE"
    ∧ "APPLE" ∈ words (board sample_state)
    ∧ legal_candidates log = 1%nat
    ∧ (∃ fb, last (rejected_candidates log) = Some (FallbackUsed fb)
             ∧ d_clue fb = JStr "APPLE").
Proof.
  eexists _, _, _, _, _. split; [vm_compute; reflexivity|].
  split; [reflexivity|]. split; [by left|]. split; [reflexivity|].
  eexists. split; reflexivity.
Qed.

(** The hardcoded fallback is no safer: on a board that holds the word
    MYSTERY and with a spymaster model that cannot be reached, the clue
    MYSTERY is put in the legal list unchecked. *)
Lemma hardcoded_fallback_unchecked (state : GameState) (tm : Team) :
  fst (_fallback_candidate failing_client sample_agent state tm 0%nat) = inr MYSTERY.
Proof. reflexivity. Qed.

End AgentFacts.

(** ** The LLM client: claim C8 *)

Module ClientFacts.
Import Py Env Json Client Sample.

Section Retry.
Context `{PyBuiltins}.
Variable _cache_key : Payload → string.

(** One attempt answered by a refusal: the parse raises inside the [try],
    the handler records the error, sleeps, and the loop goes on. *)
Lemma attempt_refusal uc key n backoff last w msg :
  refusal_response (server w (posts w)) msg →
  ∃ w1, attempt_loop uc key (S n) backoff last w
        = attempt_loop uc key n (backoff * Q2Qc 2)%Qc
            (Some (RuntimeError ("Model refusal: " +:+ msg))) w1
        ∧ server w1 = server w ∧ posts w1 = S (posts w)
        ∧ slept w1 = backoff :: slept w.
Proof.
  intros (sc & data & Hr & Hsc & Hx).
  cbn [attempt_loop]. unfold post. rewrite Hr.
  assert (Hretry : (sc =? 429) || (500 <=? sc) && (sc <? 600) = false).
  { apply orb_false_iff. split; [apply Z.eqb_neq; lia|].
    apply andb_false_iff.
    destruct (Z.leb_spec 500 sc); [right; apply Z.ltb_ge; lia|by left]. }
  rewrite Hretry. unfold finish_attempt.
  assert (Hst : (400 <=? sc) && (sc <? 600) = false).
  { apply andb_false_iff.
    destruct (Z.leb_spec 400 sc); [right; apply Z.ltb_ge; lia|by left]. }
  rewrite Hst. unfold _parse_response. rewrite Hx.
  eexists. split; [reflexivity|]. by destruct uc.
Qed.

(** The loop never takes a post back. *)
Lemma attempt_loop_posts uc key n : ∀ backoff last w r w',
  attempt_loop uc key n backoff last w = (r, w') → (posts w ≤ posts w')%nat.
Proof.
  induction n as [|n IH]; intros backoff last w r w'; cbn [attempt_loop].
  - by intros [= _ <-].
  - unfold post. destruct (server w (posts w)) as [|sc body].
    + intros Hl. apply IH in Hl. simpl in Hl. lia.
    + destruct ((sc =? 429) || (500 <=? sc) && (sc <? 600)).
      * intros Hl. apply IH in Hl. simpl in Hl. lia.
      * destruct (finish_attempt uc key sc body _) as [[e|resp] w2] eqn:Hf.
        -- intros Hl. apply IH in Hl. simpl in Hl.
           unfold finish_attempt in Hf. repeat case_match; simplify_eq; simpl in *; lia.
        -- intros [= _ <-].
           unfold finish_attempt in Hf. repeat case_match; simplify_eq; simpl in *; lia.
Qed.

(** Refusals on every remaining attempt use up the retry budget. *)
Lemma attempt_loop_refusals uc key msg n : ∀ backoff last w,
  (∀ k, (k < n)%nat → refusal_response (server w (posts w + k)) msg) →
  ∃ w', attempt_loop uc key n backoff last w
        = (inl (match n with
                | O => last
                | S _ => Some (RuntimeError ("Model refusal: " +:+ msg))
                end), w')
        ∧ posts w' = (posts w + n)%nat
        ∧ length (slept w') = (length (slept w) + n)%nat.
Proof.
  induction n as [|n IH]; intros backoff last w Hall.
  - exists w. cbn [attempt_loop]. split; [done|]. split; lia.
  - destruct (attempt_refusal uc key n backoff last w msg) as (w1 & Heq & Hs & Hp & Hsl).
    { specialize (Hall 0%nat). rewrite Nat.add_0_r in Hall. apply Hall. lia. }
    destruct (IH (backoff * Q2Qc 2)%Qc (Some (RuntimeError ("Model refusal: " +:+ msg))) w1)
      as (w' & Heq' & Hp' & Hsl').
    { intros k Hk. rewrite Hs, Hp. replace (S (posts w) + k)%nat with (posts w + S k)%nat by lia.
      apply Hall. lia. }
    exists w'. rewrite Heq, Heq'. split; [by destruct n|].
    rewrite Hp', Hsl', Hp, Hsl. simpl. split; lia.
Qed.

(** C8, amended. On a call that misses the cache, a response with a refusal
    part makes the attempt raise RuntimeError("Model refusal: ..."), which is
    caught and retried like any other error: when the budget allows a second
    attempt, a second post is made after the refusal; and when every attempt
    is answered by a refusal, exactly [retries] posts and [retries] sleeps are
    made and the call raises "OpenAI request failed after {retries} retries"
    carrying the refusal as last error. *)
Theorem C8_refusal_is_retried (rq : Request) (w : World) (msg : string) :
  String.eqb (rq_mode rq) "json_schema" || String.eqb (rq_mode rq) "json_object" = true →
  (if use_cache rq w then cache_get (_cache_key (payload_of rq)) w else None) = None →
  refusal_response (server w (posts w)) msg →
  (2 ≤ rq_retries rq →
   (posts w + 2 ≤ posts (snd (create_json _cache_key rq w)))%nat)
  ∧ (1 ≤ rq_retries rq →
     (∀ k, (k < Z.to_nat (rq_retries rq))%nat →
           refusal_response (server w (posts w + k)) msg) →
     ∃ w', create_json _cache_key rq w
           = (inl (RequestFailed (rq_retries rq)
                     (Some (RuntimeError ("Model refusal: " +:+ msg)))), w')
           ∧ posts w' = (posts w + Z.to_nat (rq_retries rq))%nat
           ∧ length (slept w') = (length (slept w) + Z.to_nat (rq_retries rq))%nat).
Proof.
  intros Hmode Hmiss Hfirst. unfold create_json. rewrite Hmode, Hmiss. simpl negb. cbv iota.
  split.
  - intros Hr. destruct (Z.to_nat (rq_retries rq)) as [|[|n]] eqn:Hn; [lia|lia|].
    destruct (attempt_refusal (use_cache rq w) (_cache_key (payload_of rq)) (S n)
                (Q2Qc 1) None w msg Hfirst) as (w1 & Heq & Hs & Hp & _).
    rewrite Heq.
    destruct (attempt_loop _ _ (S n) _ _ w1) as [r w2] eqn:Hl.
    assert (Hp2 : (posts w1 + 1 ≤ posts w2)%nat).
    { revert Hl. cbn [attempt_loop]. unfold post.
      destruct (server w1 (posts w1)) as [|sc body].
      - intros Hl. apply attempt_loop_posts in Hl. simpl in Hl. lia.
      - destruct ((sc =? 429) || (500 <=? sc) && (sc <? 600)).
        + intros Hl. apply attempt_loop_posts in Hl. simpl in Hl. lia.
        + destruct (finish_attempt _ _ sc body _) as [[e|resp] w3] eqn:Hf.
          * intros Hl. apply attempt_loop_posts in Hl. simpl in Hl.
            unfold finish_attempt in Hf. repeat case_match; simplify_eq; simpl in *; lia.
          * intros [= _ <-].
            unfold finish_attempt in Hf. repeat case_match; simplify_eq; simpl in *; lia. }
    destruct r; simpl; lia.
  - intros Hr Hall.
    destruct (attempt_loop_refusals (use_cache rq w) (_cache_key (payload_of rq)) msg
                (Z.to_nat (rq_retries rq)) (Q2Qc 1) None w Hall) as (w' & Heq & Hp & Hsl).
    rewrite Heq. exists w'. split; [|done].
    destruct (Z.to_nat (rq_retries rq)) eqn:Hn; [lia|done].
Qed.

End Retry.

(** C8 as stated fails: a server that answers with a refusal is asked five
    times (the whole retry budget), with five sleeps in between, before the
    call raises. *)
Lemma C8_counterexample :
  refusal_response (server refusing_world (posts refusing_world)) "I cannot help with that."
  ∧ fst (create_json sample_cache_key sample_request refusing_world)
    = inl (RequestFailed 5 (Some (RuntimeError "Model refusal: I cannot help with that.")))
  ∧ posts (snd (create_json sample_cache_key sample_request refusing_world)) = 5%nat
  ∧ posts (snd (create_json sample_cache_key sample_request refusing_world)) ≠ 1%nat
  ∧ length (slept (snd (create_json sample_cache_key sample_request refusing_world))) = 5%nat.
Proof.
  split.
  { exists 200, refusal_body. split; [reflexivity|]. split; [lia|reflexivity]. }
  split; [vm_compute; reflexivity|]. split; [vm_compute; reflexivity|].
  split; [vm_compute; discriminate|vm_compute; reflexivity].
Qed.

Lemma C8_witness :
  (posts refusing_world + 2
   ≤ posts (snd (create_json sample_cache_key sample_request refusing_world)))%nat
  ∧ ∃ w', create_json sample_cache_key sample_request refusing_world
          = (inl (RequestFailed 5
                    (Some (RuntimeError "Model refusal: I cannot help with that."))), w')
          ∧ posts w' = 5%nat.
Proof.
  assert (Hr : ∀ k : nat, refusal_response (server refusing_world k) "I cannot help with that.").
  { intros k. exists 200, refusal_body. split; [reflexivity|]. split; [lia|reflexivity]. }
  destruct (C8_refusal_is_retried sample_cache_key sample_request refusing_world
              "I cannot help with that." eq_refl eq_refl (Hr _)) as [H2 Hall].
  split; [apply H2; simpl; lia|].
  destruct Hall as (w' & Heq & Hp & _); [simpl; lia|intros k _; apply Hr|].
  exists w'. split; [exact Heq|exact Hp].
Defined.

End ClientFacts.

(** ** The game runner: claim C9 *)

Module RunnerFacts.
Import Py Env Json Client Agent Runner Sample.

Section Match.
Context `{PyBuiltins} {W : Type}.
Variable create_json : Request → W → raises LLMResponse * W.

(** [play_all] over a concatenation. *)
Lemma play_all_app mt gs1 gs2 o :
  play_all create_json mt (gs1 ++ gs2) o
  = match play_all create_json mt gs1 o with
    | (inl e, o') => (inl e, o')
    | (inr _, o') => play_all create_json mt gs2 o'
    end.
Proof.
  revert o. induction gs1 as [|g gs1 IH]; intros o; simpl; [done|].
  destruct (play_scheduled create_json mt g o) as [[e|[]] o']; [done|apply IH].
Qed.

(** The nested loops of [run_match] play the scheduled games in order. *)
Lemma run_replicate_scheduled b red blue mir mt r o :
  run_replicate create_json b red blue mir mt r o
  = play_all create_json mt (games_of_replicate b red blue mir r) o.
Proof.
  unfold run_replicate, games_of_replicate. destruct o as [w file]. simpl.
  destruct (play_game create_json b red blue mt w) as [[e|g] w1]; [done|].
  destruct mir; simpl; [|done].
  destruct (play_game create_json b blue red mt w1) as [[e|g2] w2]; done.
Qed.

Lemma replicate_loop_scheduled b red blue mir mt n : ∀ r o,
  replicate_loop create_json b red blue mir mt r n o
  = play_all create_json mt (r' ← seq r n; games_of_replicate b red blue mir r') o.
Proof.
  induction n as [|n IH]; intros r o; cbn [replicate_loop seq]; [done|].
  rewrite bind_cons, play_all_app, <- run_replicate_scheduled.
  destruct (run_replicate _ _ _ _ _ _ _ _) as [[e|[]] o']; [done|apply IH].
Qed.

Lemma run_match_scheduled boards red blue reps mir mt w :
  run_match create_json boards red blue reps mir mt w
  = play_all create_json mt (schedule boards red blue reps mir) (w, []).
Proof.
  unfold run_match, schedule. generalize (w, @nil MatchRecord) as o.
  induction boards as [|b boards IH]; intros o; cbn [board_loop]; [done|].
  rewrite bind_cons, play_all_app, <- replicate_loop_scheduled.
  destruct (replicate_loop _ _ _ _ _ _ _ _ _) as [[e|[]] o']; [done|apply IH].
Qed.

(** [play_game] raises only what a turn raises. *)
Lemma turn_loop_raises red blue n : ∀ p w e w',
  turn_loop create_json red blue n p w = (inl e, w') →
  ∃ agent state tm w0, take_turn create_json agent state tm w0 = (inl e, w').
Proof.
  induction n as [|n IH]; intros p w e w'; simpl; [done|].
  unfold bind at 1.
  destruct (take_turn _ _ _ _ w) as [[e1|[st [[[cl num] gs] tlog]]] w1] eqn:Ht.
  - intros [= <- <-]. by eexists _, _, _, _.
  - destruct (game_over (actual_outcome tlog)); [done|apply IH].
Qed.

Lemma play_game_raises b red blue mt w e w' :
  play_game create_json b red blue mt w = (inl e, w') →
  ∃ agent state tm w0, take_turn create_json agent state tm w0 = (inl e, w').
Proof.
  unfold play_game, bind.
  destruct (turn_loop _ _ _ _ _ w) as [[e1|p] w1] eqn:Hl; [|done].
  intros [= <- <-]. by eapply turn_loop_raises.
Qed.

(** A turn that raises on the first move of a game makes [play_game] raise. *)
Lemma play_game_first_turn_raises b red blue mt w e w' :
  1 ≤ mt →
  take_turn create_json
    (mkTeamAgent (if bool_decide (starting_team b = RED) then red else blue) None)
    (init_game_state b) (starting_team b) w = (inl e, w') →
  play_game create_json b red blue mt w = (inl e, w').
Proof.
  intros Hmt Ht. unfold play_game, bind.
  destruct (Z.to_nat mt) as [|n] eqn:Hn; [lia|]. simpl. unfold bind. by rewrite Ht.
Qed.

(** The end reason of a game that returns is one of three values. *)
Lemma turn_loop_reason red blue n : ∀ p w p' w',
  turn_loop create_json red blue n p w = (inr p', w') →
  p_winner p = None ∨ p_end_reason p ∈ end_reasons →
  p_winner p' = None ∨ p_end_reason p' ∈ end_reasons.
Proof.
  induction n as [|n IH]; intros p w p' w'; simpl.
  - by intros [= <- <-].
  - unfold bind at 1.
    destruct (take_turn _ _ _ _ w) as [[e1|[st [[[cl num] gs] tlog]]] w1]; [done|].
    destruct (game_over (actual_outcome tlog)).
    + intros [= <- <-] _. right. simpl. case_bool_decide; [by left|right; by left].
    + intros Hl Hp. by eapply IH.
Qed.

Lemma play_game_reason b red blue mt w g w' :
  play_game create_json b red blue mt w = (inr g, w') → end_reason g ∈ end_reasons.
Proof.
  unfold play_game, bind.
  destruct (turn_loop _ _ _ _ _ w) as [[e1|p] w1] eqn:Hl; [done|].
  intros [= <- <-]. simpl. apply turn_loop_reason in Hl; [|by left].
  destruct (p_winner p); [|right; right; by left].
  by destruct Hl.
Qed.

Lemma play_all_reasons mt gs : ∀ o r o',
  play_all create_json mt gs o = (r, o') →
  Forall (λ m, end_reason (game m) ∈ end_reasons) (snd o) →
  Forall (λ m, end_reason (game m) ∈ end_reasons) (snd o').
Proof.
  induction gs as [|g gs IH]; intros o r o'; simpl.
  - by intros [= _ <-].
  - unfold play_scheduled. destruct o as [w file].
    destruct (play_game create_json _ _ _ _ w) as [[e|rec] w1] eqn:Hg.
    + by intros [= _ <-].
    + intros Hl Hfile. eapply IH; [exact Hl|]. simpl. apply Forall_app. split; [done|].
      constructor; [|done]. simpl. by eapply play_game_reason.
Qed.

Lemma play_all_length mt gs : ∀ o o',
  play_all create_json mt gs o = (inr tt, o') → length (snd o') = (length (snd o) + length gs)%nat.
Proof.
  induction gs as [|g gs IH]; intros o o'; simpl.
  - intros [= <-]. lia.
  - unfold play_scheduled. destruct o as [w file].
    destruct (play_game create_json _ _ _ _ w) as [[e|rec] w1]; [done|].
    intros Hl. apply IH in Hl. simpl in *. rewrite length_app in Hl. simpl in Hl. lia.
Qed.

(** Turns that return without ending the game are the first turns of any
    longer run of the loop. *)
Lemma turn_loop_continue red blue m k : ∀ p w pk wk,
  turn_loop create_json red blue k p w = (inr pk, wk) →
  Forall goes_on (p_turns pk) →
  turn_loop create_json red blue (k + m) p w = turn_loop create_json red blue m pk wk.
Proof.
  induction k as [|k IH]; intros p w pk wk; cbn [turn_loop Nat.add].
  - by intros [= <- <-].
  - unfold bind.
    destruct (take_turn _ _ _ _ w) as [[e1|[st [[[cl num] gs] tlog]]] w1]; [done|].
    destruct (game_over (actual_outcome tlog)) eqn:Hover.
    + intros [= <- <-] Hall. cbn [p_turns] in Hall.
      apply Forall_app in Hall as [_ Hlast]. apply Forall_cons in Hlast as [Hlast _].
      unfold goes_on in Hlast. congruence.
    + apply IH.
Qed.

(** A turn that raises makes [play_game] raise, whatever the number of
    turns played before it. *)
Lemma play_game_turn_raises b red blue mt w k pk wk e w' :
  (k < Z.to_nat mt)%nat →
  turn_loop create_json red blue k (mkPlay (init_game_state b) [] None None "unknown") w
  = (inr pk, wk) →
  Forall goes_on (p_turns pk) →
  take_turn create_json
    (mkTeamAgent (if bool_decide (current_team (p_state pk) = RED) then red else blue) None)
    (p_state pk) (current_team (p_state pk)) wk = (inl e, w') →
  play_game create_json b red blue mt w = (inl e, w').
Proof.
  intros Hk Hloop Hall Hturn. unfold play_game.
  replace (Z.to_nat mt) with (k + S (Z.to_nat mt - S k))%nat by lia.
  unfold bind at 1. rewrite (turn_loop_continue _ _ _ _ _ _ _ _ Hloop Hall).
  cbn [turn_loop]. unfold bind at 1. by rewrite Hturn.
Qed.

(** C9, amended. An error raised during a turn is raised by [play_game]
    and by [run_match]. When the games scheduled before a game have all
    returned, the first [k] turns of that game have returned without ending
    it, and its next turn raises, then [play_game] raises that error and
    [run_match] raises it too: the results file holds one record for each
    earlier game and none for the failed one, no later game is played (the
    client is left as the failed turn left it), and every record written has
    an end reason among assassin, completed_agents and max_turns. *)
Theorem C9_error_propagates boards red blue reps mir mt w pre g post w1 file1
    k pk wk e w2 :
  schedule boards red blue reps mir = pre ++ g :: post →
  play_all create_json mt pre (w, []) = (inr tt, (w1, file1)) →
  (k < Z.to_nat mt)%nat →
  turn_loop create_json (sc_red g) (sc_blue g) k
    (mkPlay (init_game_state (sc_board g)) [] None None "unknown") w1 = (inr pk, wk) →
  Forall goes_on (p_turns pk) →
  take_turn create_json
    (mkTeamAgent (if bool_decide (current_team (p_state pk) = RED)
                  then sc_red g else sc_blue g) None)
    (p_state pk) (current_team (p_state pk)) wk = (inl e, w2) →
  play_game create_json (sc_board g) (sc_red g) (sc_blue g) mt w1 = (inl e, w2)
  ∧ run_match create_json boards red blue reps mir mt w = (inl e, (w2, file1))
  ∧ length file1 = length pre
  ∧ Forall (λ m, end_reason (game m) ∈ end_reasons) file1.
Proof.
  intros Hs Hpre Hk Hloop Hall Hturn.
  pose proof (play_game_turn_raises _ _ _ _ _ _ _ _ _ _ Hk Hloop Hall Hturn) as Hg.
  split; [exact Hg|].
  rewrite run_match_scheduled, Hs, play_all_app, Hpre. simpl.
  unfold play_scheduled. rewrite Hg. split; [done|].
  split; [by apply play_all_length in Hpre|].
  by apply play_all_reasons in Hpre.
Qed.

End Match.

(** C9 as stated fails: with a client on which every call fails, the
    first game of a two-board match raises in its first turn (the rollout of
    the fallback candidate), [run_match] raises that error, nothing is written
    to the results file, and the second board is never played (four client
    calls in all: two for the candidates, one for the fallback, one rollout). *)
Lemma C9_counterexample :
  run_match failing_client [sample_board; sample_board] sample_cfg sample_cfg 1 false 100 0%nat
  = (inl (RequestFailed 5 (Some TransportError)), (4%nat, []))
  ∧ ¬ (∃ m, m ∈ snd (snd (run_match failing_client [sample_board; sample_board]
                            sample_cfg sample_cfg 1 false 100 0%nat))
            ∧ end_reason (game m) = "error").
Proof.
  split; [vm_compute; reflexivity|].
  intros (m & Hm & _). vm_compute in Hm. by apply not_elem_of_nil in Hm.
Qed.

Lemma C9_witness :
  ∃ file1,
    run_match tiring_client [sample_board; sample_board] sample_cfg sample_cfg 1 false 2
      0%nat
    = (inl (RequestFailed 5 (Some TransportError)), (19%nat, file1))
    ∧ length file1 = 1%nat.
Proof.
  pose (g := mkScheduled sample_board sample_cfg sample_cfg "board-000000::rep0::Ared" false).
  destruct (play_all tiring_client 2 [g] (0%nat, [])) as [[e|[]] [w1 file1]] eqn:Hpre.
  { vm_compute in Hpre. discriminate Hpre. }
  assert (Hw1 : w1 = 10%nat) by (vm_compute in Hpre; by inversion Hpre).
  subst w1.
  destruct (turn_loop tiring_client sample_cfg sample_cfg 1
              (mkPlay (init_game_state sample_board) [] None None "unknown") 10%nat)
    as [[e|pk] wk] eqn:Hloop.
  { vm_compute in Hloop. discriminate Hloop. }
  assert (Hgo : Forall goes_on (p_turns pk)).
  { vm_compute in Hloop. inversion Hloop; subst. by repeat constructor. }
  assert (Hturn : take_turn tiring_client
                    (mkTeamAgent (if bool_decide (current_team (p_state pk) = RED)
                                  then sample_cfg else sample_cfg) None)
                    (p_state pk) (current_team (p_state pk)) wk
                  = (inl (RequestFailed 5 (Some TransportError)), 19%nat)).
  { vm_compute in Hloop. inversion Hloop; subst. vm_compute. reflexivity. }
  destruct (C9_error_propagates tiring_client [sample_board; sample_board]
              sample_cfg sample_cfg 1 false 2 0%nat [g] g [] 10%nat file1
              1%nat pk wk (RequestFailed 5 (Some TransportError)) 19%nat)
    as (_ & Hrun & Hlen & _);
    [vm_compute; reflexivity|exact Hpre|vm_compute; lia|exact Hloop|exact Hgo|exact Hturn|].
  exists file1. split; [exact Hrun|exact Hlen].
Defined.

End RunnerFacts.

(** ** The rules engine: further properties of [apply_turn] *)

Module RulesMore.
Import Py Env EnvFacts Sample.

(** *** Positions in the word list *)

Lemma index_of_lookup g ws : ∀ i, index_of g ws = Some i → ws !! i = Some g.
Proof.
  induction ws as [|w ws IH]; intros i; simpl; [done|].
  destruct (String.eqb g w) eqn:E.
  - apply String.eqb_eq in E. by intros [= <-]; subst.
  - destruct (index_of g ws) as [k|]; simpl; [|done]. intros [= <-]. by apply IH.
Qed.

Lemma index_of_None g ws : index_of g ws = None ↔ g ∉ ws.
Proof.
  induction ws as [|w ws IH]; simpl.
  - split; [intros _; apply not_elem_of_nil|done].
  - destruct (String.eqb g w) eqn:E.
    + apply String.eqb_eq in E. subst. split; [done|]. intros Hn. exfalso. apply Hn. by left.
    + apply String.eqb_neq in E. destruct (index_of g ws) as [k|]; simpl.
      * split; [done|]. intros Hn. exfalso. apply Hn. right.
        destruct (decide (g ∈ ws)) as [|Hn']; [done|]. by apply IH in Hn'.
      * split; [|done]. intros _ Hin. apply elem_of_cons in Hin as [?|Hin]; [done|].
        by apply (proj1 IH).
Qed.

Lemma reveal_all_snoc r app a :
  reveal_all r (app ++ [a]) = <[ index a := true ]> (reveal_all r app).
Proof. unfold reveal_all. by rewrite fold_left_app. Qed.

(** *** X1: no exception on a state that covers its board *)

Lemma guess_step_length b tm ma enf j g l :
  match guess_step b tm ma enf j g l with
  | Continue l' | Break l' | Raise l' _ => length (l_revealed l') = length (l_revealed l)
  end.
Proof.
  unfold guess_step. repeat case_match; simplify_eq; simpl; by rewrite ?length_insert.
Qed.

Lemma guess_loop_length b tm ma enf gs : ∀ j l l' e,
  guess_loop b tm ma enf j gs l = (l', e) → length (l_revealed l') = length (l_revealed l).
Proof.
  induction gs as [|g rest IH]; intros j l l' e; simpl.
  - by intros [= <- _].
  - pose proof (guess_step_length b tm ma enf j g l) as Hs.
    destruct (guess_step b tm ma enf j g l) as [l1|l1|l1 e1].
    + intros Hl. apply IH in Hl. congruence.
    + intros [= <- _]. done.
    + intros [= <- _]. done.
Qed.

(** X1. On a state whose bitmap and key are at least as long as the word
    list, [apply_turn] raises nothing and returns an outcome; the bitmap keeps
    its length and the board is the same, so the state after the call covers
    its board again. *)
Theorem X1_apply_turn_never_raises s tm cl num gs enf :
  (length (words (board s)) ≤ length (revealed s))%nat →
  (length (words (board s)) ≤ length (key (board s)))%nat →
  ∃ s' o, apply_turn s tm cl num gs enf = (s', inr o)
          ∧ length (revealed s') = length (revealed s)
          ∧ board s' = board s
          ∧ guesses o = gs ∧ team o = tm ∧ clue o = cl ∧ number o = num.
Proof.
  intros Hr Hk. destruct (Rules.apply_turn_returns s tm cl num gs enf Hr Hk) as (s' & o & Hat).
  exists s', o. split; [done|].
  apply apply_turn_inr in Hat as (l & Hloop & -> & ->). simpl.
  apply guess_loop_length in Hloop. by rewrite Hloop.
Qed.

Lemma X1_witness :
  ∃ s' o, apply_turn sample_state RED "FRUIT" 2 ["apple "; "river"; "CAT"] true = (s', inr o)
          ∧ length (revealed s') = 25%nat.
Proof.
  destruct (X1_apply_turn_never_raises sample_state RED "FRUIT" 2 ["apple "; "river"; "CAT"] true)
    as (s' & o & H1 & H2 & _); [vm_compute; lia|vm_compute; lia|].
  exists s', o. split; [exact H1|exact H2].
Defined.

(** *** X2: the exception on a state that does not cover its board *)

(** X2. When the first guess names a board word whose position lies
    beyond the bitmap, [apply_turn] raises IndexError and the bitmap is
    unchanged; when the position is in the bitmap and unrevealed but beyond
    the key, it raises IndexError after the reveal: the position is set in the
    state although no outcome is returned. *)
Theorem X2_apply_turn_index_error s tm cl num g rest enf idx :
  (enf = true → 0 ≤ num) →
  norm g ≠ "" →
  index_of (norm g) (words (board s)) = Some idx →
  (revealed s !! idx = None →
   apply_turn s tm cl num (g :: rest) enf
   = (mkState (board s) (revealed s) (current_team s), inl IndexError))
  ∧ (revealed s !! idx = Some false → key (board s) !! idx = None →
     apply_turn s tm cl num (g :: rest) enf
     = (mkState (board s) (<[ idx := true ]> (revealed s)) (current_team s),
        inl IndexError)).
Proof.
  intros Hnum Hne Hidx.
  assert (Hlim : enf && (Z.max 0 (num + 1) <=? Z.of_nat 0) = false).
  { destruct enf; [|done]. simpl. apply Z.leb_gt. specialize (Hnum eq_refl). lia. }
  assert (Hemp : is_empty (norm g) = false) by (by destruct (norm g)).
  split.
  - intros Hr. unfold apply_turn. simpl. unfold guess_step. rewrite Hlim, Hemp. simpl.
    rewrite Hidx. simpl. by rewrite Hr.
  - intros Hr Hk. unfold apply_turn. simpl. unfold guess_step. rewrite Hlim, Hemp. simpl.
    rewrite Hidx. simpl. by rewrite Hr, Hk.
Qed.

Lemma X2_witness :
  apply_turn (mkState (mkBoard "long" (sample_words ++ ["EXTRA"]) (sample_key ++ [NEUTRAL]) RED)
                      (replicate 25 false) RED)
             RED "MORE" 1 ["extra"] true
  = (mkState (mkBoard "long" (sample_words ++ ["EXTRA"]) (sample_key ++ [NEUTRAL]) RED)
             (replicate 25 false) RED, inl IndexError).
Proof.
  refine (proj1 (X2_apply_turn_index_error _ RED "MORE" 1 "extra" [] true 25%nat _ _ _) _).
  - intros _. lia.
  - vm_compute. discriminate.
  - vm_compute. reflexivity.
  - vm_compute. reflexivity.
Defined.

(** *** X3 and X4: how a turn ends *)

(** The invariant of a running loop: nothing decided yet, and only cards of
    the guessing team applied. What the loop state can be when it ends. *)
Lemma loop_endings b tm ma enf gs : ∀ j l l',
  l_reason l = stop → l_game_over l = false → l_winner l = None → l_loser l = None →
  Forall (λ a, card_type a = card_of_team tm) (l_applied l) →
  guess_loop b tm ma enf j gs l = (l', None) →
  ((l_reason l' = stop ∨ l_reason l' = limit ∨ l_reason l' = invalid_or_repeat)
   ∧ Forall (λ a, card_type a = card_of_team tm) (l_applied l')
   ∧ ((l_game_over l' = false ∧ l_winner l' = None ∧ l_loser l' = None)
      ∨ (l_reason l' = stop ∧ over l' tm (other_team tm)
         ∧ remaining_in (key b) (l_revealed l') (card_of_team tm) = 0%nat)))
  ∨ (∃ pre a, l_applied l' = pre ++ [a]
              ∧ Forall (λ a, card_type a = card_of_team tm) pre
              ∧ ((l_reason l' = assassin ∧ card_type a = ASSASSIN
                  ∧ over l' (other_team tm) tm)
                 ∨ (l_reason l' = wrong ∧ card_type a ≠ ASSASSIN
                    ∧ card_type a ≠ card_of_team tm
                    ∧ ((remaining_in (key b) (l_revealed l')
                                     (card_of_team (other_team tm)) = 0%nat
                        ∧ over l' (other_team tm) tm)
                       ∨ (remaining_in (key b) (l_revealed l')
                                       (card_of_team (other_team tm)) ≠ 0%nat
                          ∧ l_game_over l' = false ∧ l_winner l' = None
                          ∧ l_loser l' = None))))).
Proof.
  induction gs as [|g rest IH]; intros j l l' Hr Hg Hw Hl Hall Hloop; simpl in Hloop.
  - inversion Hloop; subst. left. split_and!; [by left|done|by left].
  - pose proof (guess_step_spec b tm ma enf j g l) as Hs.
    destruct (guess_step b tm ma enf j g l) as [l1|l1|l1 e] eqn:E.
    + destruct Hs as (a1 & Hrv & Hct & Hre & (Hf1 & Hf2 & Hf3) & _).
      apply (IH (S j) l1 l'); try congruence.
      rewrite (rv_app _ _ _ _ _ Hrv). apply Forall_app. split; [done|by constructor].
    + inversion Hloop; subst l1.
      destruct Hs as [(_ & Happ & (Hf1 & Hf2 & Hf3) & Hre)|(a1 & Hrv & _ & Hk)].
      * left. rewrite Happ. split_and!; [|done|left; split_and!; congruence].
        destruct Hre as [(-> & _) | (-> & _)]; tauto.
      * destruct Hk as [(Hc & Hre & Hov)|[(Hna & Hnt & Hre & Hif)|(Hc & Hre & Hrem & Hov)]].
        -- right. exists (l_applied l), a1. split; [apply Hrv|]. split; [done|]. by left.
        -- right. exists (l_applied l), a1. split; [apply Hrv|]. split; [done|]. right.
           split_and!; try done.
           destruct (remaining_in _ _ _ =? 0)%nat eqn:Hz.
           ++ left. by apply Nat.eqb_eq in Hz.
           ++ right. apply Nat.eqb_neq in Hz. destruct Hif as (Hf1 & Hf2 & Hf3).
              split_and!; congruence.
        -- left. split_and!.
           ++ left. congruence.
           ++ rewrite (rv_app _ _ _ _ _ Hrv). apply Forall_app. split; [done|by constructor].
           ++ right. split_and!; [congruence|done|done].
    + inversion Hloop.
Qed.

Lemma apply_turn_endings s tm cl num gs enf s' o :
  apply_turn s tm cl num gs enf = (s', inr o) →
  ∃ l, guess_loop (board s) tm (Z.max 0 (num + 1)) enf 0 gs (init_loop s) = (l, None)
       ∧ revealed s' = l_revealed l ∧ board s' = board s
       ∧ applied o = l_applied l ∧ stopped_reason o = l_reason l
       ∧ game_over o = l_game_over l ∧ winner o = l_winner l ∧ loser o = l_loser l.
Proof.
  intros Hat. apply apply_turn_inr in Hat as (l & Hloop & -> & ->). by exists l.
Qed.

(** X3. The verdict of a turn is one of three: the game goes on and winner
    and loser are unset; or the guessing team wins, the stop reason is "stop"
    and the team has no unrevealed card left; or the opponent wins, through
    the assassin or through a wrong guess that left the opponent no unrevealed
    card. Winner and loser are never the same team, and a wrong guess that
    leaves the opponent a card does not end the game. *)
Theorem X3_turn_verdict s tm cl num gs enf s' o :
  apply_turn s tm cl num gs enf = (s', inr o) →
  (game_over o = false ∧ winner o = None ∧ loser o = None
   ∧ (stopped_reason o = wrong → remaining s' (other_team tm) ≠ 0%nat)
   ∧ stopped_reason o ≠ assassin)
  ∨ (game_over o = true ∧ winner o = Some tm ∧ loser o = Some (other_team tm)
     ∧ stopped_reason o = stop ∧ remaining s' tm = 0%nat)
  ∨ (game_over o = true ∧ winner o = Some (other_team tm) ∧ loser o = Some tm
     ∧ (stopped_reason o = assassin
        ∨ (stopped_reason o = wrong ∧ remaining s' (other_team tm) = 0%nat))).
Proof.
  intros Hat.
  apply apply_turn_endings in Hat as (l & Hloop & Hrev & Hb & _ & -> & -> & -> & ->).
  unfold remaining. rewrite Hrev, Hb.
  destruct (loop_endings _ _ _ _ _ _ (init_loop s) _ eq_refl eq_refl eq_refl eq_refl
              (Forall_nil_2 _) Hloop)
    as [(Hre & _ & [(Hg & Hw & Hl)|(Hst & (Hg & Hw & Hl) & Hrem)])
       |(pre & a & _ & _ & [(Hre & _ & Hg & Hw & Hl)
                           |(Hre & _ & _ & [(Hrem & Hg & Hw & Hl)|(Hrem & Hg & Hw & Hl)])])].
  - left. split_and!; try done; destruct Hre as [-> | [-> | ->]]; done.
  - right; left. by split_and!.
  - right; right. split_and!; try done. by left.
  - right; right. split_and!; try done. by right.
  - left. split_and!; try done. by rewrite Hre.
Qed.

Lemma X3_witness :
  apply_turn late_state RED "CROWN" 1 ["queen"; "CAT"] true = (c2_state', inr c2_outcome)
  ∧ game_over c2_outcome = true ∧ winner c2_outcome = Some BLUE
  ∧ remaining c2_state' BLUE = 0%nat.
Proof.
  assert (H : apply_turn late_state RED "CROWN" 1 ["queen"; "CAT"] true
              = (c2_state', inr c2_outcome)) by (vm_compute; reflexivity).
  split; [exact H|].
  destruct (X3_turn_verdict _ _ _ _ _ _ _ _ H)
    as [(Hg & _)|[(_ & Hw & _)|(Hg & Hw & _ & [Hr|(_ & Hrem)])]];
    [discriminate Hg|discriminate Hw|discriminate Hr|].
  split; [exact Hg|]. split; [exact Hw|exact Hrem].
Defined.

(** X4. The stop reason agrees with the card types of the applied guesses:
    with "assassin" the last applied guess is the assassin, with "wrong" it is
    a card of neither the assassin nor the team, and in both cases every
    earlier applied guess is a card of the team; with "stop", "limit" and
    "invalid_or_repeat" every applied guess is a card of the team. *)
Theorem X4_reason_matches_cards s tm cl num gs enf s' o :
  apply_turn s tm cl num gs enf = (s', inr o) →
  match stopped_reason o with
  | assassin =>
      ∃ pre a, applied o = pre ++ [a] ∧ card_type a = ASSASSIN
               ∧ Forall (λ x, card_type x = card_of_team tm) pre
  | wrong =>
      ∃ pre a, applied o = pre ++ [a] ∧ card_type a ≠ ASSASSIN
               ∧ card_type a ≠ card_of_team tm
               ∧ Forall (λ x, card_type x = card_of_team tm) pre
  | stop | limit | invalid_or_repeat =>
      Forall (λ x, card_type x = card_of_team tm) (applied o)
  end.
Proof.
  intros Hat.
  apply apply_turn_endings in Hat as (l & Hloop & _ & _ & -> & -> & _).
  destruct (loop_endings _ _ _ _ _ _ (init_loop s) _ eq_refl eq_refl eq_refl eq_refl
              (Forall_nil_2 _) Hloop)
    as [(Hre & Hall & _)|(pre & a & Happ & Hpre & [(Hre & Hc & _)|(Hre & Hna & Hnt & _)])].
  - destruct Hre as [-> | [-> | ->]]; done.
  - rewrite Hre. by exists pre, a.
  - rewrite Hre. by exists pre, a.
Qed.

Lemma X4_witness :
  apply_turn sample_state RED "FRUIT" 2 ["apple "; "river"; "CAT"] true
  = (c4_state', inr c4_outcome)
  ∧ ∃ pre a, applied c4_outcome = pre ++ [a] ∧ card_type a ≠ card_of_team RED
             ∧ Forall (λ x, card_type x = card_of_team RED) pre.
Proof.
  assert (H : apply_turn sample_state RED "FRUIT" 2 ["apple "; "river"; "CAT"] true
              = (c4_state', inr c4_outcome)) by (vm_compute; reflexivity).
  split; [exact H|].
  pose proof (X4_reason_matches_cards _ _ _ _ _ _ _ _ H) as Hm. simpl in Hm.
  destruct Hm as (pre & a & H1 & _ & H3 & H4). exists pre, a.
  split; [exact H1|]. split; [exact H3|exact H4].
Defined.

(** *** X5: the applied guesses are the first guesses, in order *)

Lemma loop_prefix b tm ma enf gs : ∀ j l l',
  guess_loop b tm ma enf j gs l = (l', None) →
  ∃ new, l_applied l' = l_applied l ++ new
         ∧ word <$> new = norm <$> take (length new) gs
         ∧ Forall (λ a, index_of (word a) (words b) = Some (index a)
                        ∧ key b !! index a = Some (card_type a)) new.
Proof.
  induction gs as [|g rest IH]; intros j l l' Hloop; simpl in Hloop.
  - inversion Hloop; subst. exists []. by rewrite app_nil_r.
  - pose proof (guess_step_spec b tm ma enf j g l) as Hs.
    destruct (guess_step b tm ma enf j g l) as [l1|l1|l1 e] eqn:E.
    + destruct Hs as (a1 & Hrv & _).
      destruct (IH _ _ _ Hloop) as (new & Happ & Hw & Hall).
      exists (a1 :: new). split_and!.
      * by rewrite Happ, (rv_app _ _ _ _ _ Hrv), <- app_assoc.
      * cbn [length take]. by rewrite !fmap_cons, Hw, (rv_word _ _ _ _ _ Hrv).
      * constructor; [|done]. rewrite (rv_word _ _ _ _ _ Hrv). split; apply Hrv.
    + inversion Hloop; subst l1.
      destruct Hs as [(_ & Happ & _)|(a1 & Hrv & _)].
      * exists []. by rewrite app_nil_r.
      * exists [a1]. split_and!;
          [apply Hrv|cbn [length take]; by rewrite !fmap_cons, (rv_word _ _ _ _ _ Hrv)|].
        constructor; [|done]. rewrite (rv_word _ _ _ _ _ Hrv). split; apply Hrv.
    + inversion Hloop.
Qed.

Lemma applied_prefix_facts s tm cl num gs enf s' o :
  apply_turn s tm cl num gs enf = (s', inr o) →
  word <$> applied o = norm <$> take (length (applied o)) gs
  ∧ Forall (λ a, index_of (word a) (words (board s)) = Some (index a)
                 ∧ words (board s) !! index a = Some (word a)
                 ∧ key (board s) !! index a = Some (card_type a)) (applied o).
Proof.
  intros Hat. apply apply_turn_endings in Hat as (l & Hloop & _ & _ & -> & _).
  destruct (loop_prefix _ _ _ _ _ _ _ _ Hloop) as (new & Happ & Hw & Hall).
  simpl in Happ. subst new. split; [done|].
  eapply Forall_impl; [exact Hall|]. intros a [Hi Hk]. split_and!; try done.
  by apply index_of_lookup.
Qed.

Lemma revealed_outside_applied s tm cl num gs enf s' o :
  apply_turn s tm cl num gs enf = (s', inr o) →
  ∀ i : nat, i ∉ index <$> applied o → revealed s' !! i = revealed s !! i.
Proof.
  intros Hat. apply apply_turn_inr in Hat as (l & Hloop & -> & ->). simpl.
  destruct (loop_frame _ _ _ _ _ _ _ _ Hloop) as (new & Happ & Hrev & Hall & _).
  simpl in Happ, Hrev, Hall. subst new. intros i Hi.
  rewrite Hrev, lookup_reveal_all.
  - by rewrite bool_decide_eq_false_2.
  - eapply Forall_impl; [exact Hall|]. intros a Ha. simpl in Ha.
    by apply lookup_lt_Some in Ha.
Qed.

(** X5. The applied guesses are the first guesses of the list, in order
    and without gaps: their words are the normalised forms (trimmed,
    uppercased) of the first |applied| guesses. Each applied guess records the
    first board position of its word and the card type the key holds there. *)
Theorem X5_applied_prefix s tm cl num gs enf s' o :
  apply_turn s tm cl num gs enf = (s', inr o) →
  word <$> applied o = norm <$> take (length (applied o)) gs
  ∧ (length (applied o) ≤ length gs)%nat
  ∧ Forall (λ a, index_of (word a) (words (board s)) = Some (index a)
                 ∧ words (board s) !! index a = Some (word a)
                 ∧ key (board s) !! index a = Some (card_type a)) (applied o).
Proof.
  intros Hat. destruct (applied_prefix_facts _ _ _ _ _ _ _ _ Hat) as [Hw Hall].
  split_and!; [done| |done].
  apply (f_equal length) in Hw. rewrite !length_fmap, length_take in Hw. lia.
Qed.

Lemma X5_witness :
  apply_turn sample_state RED "FRUIT" 2 ["apple "; "river"; "CAT"] true
  = (c4_state', inr c4_outcome)
  ∧ word <$> applied c4_outcome = norm <$> take 2 ["apple "; "river"; "CAT"].
Proof.
  assert (H : apply_turn sample_state RED "FRUIT" 2 ["apple "; "river"; "CAT"] true
              = (c4_state', inr c4_outcome)) by (vm_compute; reflexivity).
  split; [exact H|]. exact (proj1 (X5_applied_prefix _ _ _ _ _ _ _ _ H)).
Defined.

(** *** X6: what makes a turn stop with invalid_or_repeat *)

Lemma guess_step_seen b tm ma enf j g l :
  match guess_step b tm ma enf j g l with
  | Continue l' => l_seen l' = {[ norm g ]} ∪ l_seen l
  | Break l' =>
      l_applied l' = l_applied l → l_reason l' = invalid_or_repeat →
      l_reason l ≠ invalid_or_repeat →
      norm g = "" ∨ norm g ∈ l_seen l ∨ index_of (norm g) (words b) = None
      ∨ ∃ idx, index_of (norm g) (words b) = Some idx ∧ l_revealed l !! idx = Some true
  | Raise _ _ => True
  end.
Proof.
  unfold guess_step.
  destruct (enf && _); [simpl; congruence|].
  destruct (is_empty (norm g)) eqn:He; [intros _ _ _; left; by destruct (norm g)|].
  case_bool_decide as Hs; [intros _ _ _; right; by left|].
  destruct (index_of _ _) as [idx|] eqn:Hidx; [|intros _ _ _; right; right; by left].
  simpl. destruct (l_revealed l !! idx) as [[|]|] eqn:Hr; [| |done].
  { intros _ _ _. right; right; right. by exists idx. }
  destruct (key b !! idx) as [c|]; [|done].
  assert (Hgrow : ∀ a : AppliedGuess, l_applied l ++ [a] ≠ l_applied l).
  { intros a Happ. apply (f_equal length) in Happ. rewrite length_app in Happ.
    simpl in Happ. lia. }
  destruct (bool_decide (c = ASSASSIN)); [simpl; intros Happ; by apply Hgrow in Happ|].
  destruct (bool_decide (c ≠ card_of_team tm)).
  { destruct (remaining_in _ _ _ =? 0)%nat; simpl; intros Happ; by apply Hgrow in Happ. }
  destruct (remaining_in _ _ _ =? 0)%nat; simpl; [intros Happ; by apply Hgrow in Happ|done].
Qed.

Lemma loop_invalid b tm ma enf gs : ∀ j l l',
  (∀ x, x ∈ l_seen l ↔ x ∈ word <$> l_applied l) →
  l_reason l = stop →
  guess_loop b tm ma enf j gs l = (l', None) →
  l_reason l' = invalid_or_repeat →
  ∃ (k : nat) g,
    gs !! k = Some g ∧ length (l_applied l') = (length (l_applied l) + k)%nat
    ∧ (norm g = "" ∨ norm g ∈ word <$> l_applied l'
       ∨ index_of (norm g) (words b) = None
       ∨ ∃ idx, index_of (norm g) (words b) = Some idx ∧ l_revealed l' !! idx = Some true).
Proof.
  induction gs as [|g rest IH]; intros j l l' Hseen Hre Hloop Hinv; simpl in Hloop.
  - inversion Hloop; subst. congruence.
  - pose proof (guess_step_spec b tm ma enf j g l) as Hs.
    pose proof (guess_step_seen b tm ma enf j g l) as Hs'.
    destruct (guess_step b tm ma enf j g l) as [l1|l1|l1 e] eqn:E.
    + destruct Hs as (a1 & Hrv & _ & Hre1 & _).
      destruct (IH (S j) l1 l') as (k & g' & Hk & Hlen & Hcause); try done.
      { intros x. rewrite Hs', (rv_app _ _ _ _ _ Hrv), fmap_app, elem_of_union, elem_of_app.
        simpl. rewrite (rv_word _ _ _ _ _ Hrv), elem_of_singleton, list_elem_of_singleton.
        rewrite Hseen. tauto. }
      { congruence. }
      exists (S k), g'. split; [done|]. split; [|done].
      rewrite Hlen, (rv_app _ _ _ _ _ Hrv), length_app. simpl. lia.
    + inversion Hloop; subst l1.
      destruct Hs as [(Hrev & Happ & _)|(a1 & _ & _ & Hk)].
      * exists 0%nat, g. split; [done|]. split; [rewrite Happ; lia|].
        rewrite Happ, Hrev.
        destruct (Hs' Happ Hinv) as [?|[Hin|[?|?]]]; [congruence|tauto| |tauto|tauto].
        right; left. by apply Hseen.
      * exfalso.
        destruct Hk as [(_ & Hr & _)|[(_ & _ & Hr & _)|(_ & Hr & _)]]; congruence.
    + inversion Hloop.
Qed.

(** X6. When a turn stops with "invalid_or_repeat", the guess that stopped
    it is the one right after the applied guesses, and it is empty after
    trimming, or a repeat of a guess applied earlier in the turn, or not a
    word of the board, or a word that was already revealed before the turn. *)
Theorem X6_invalid_or_repeat_cause s tm cl num gs enf s' o :
  apply_turn s tm cl num gs enf = (s', inr o) →
  stopped_reason o = invalid_or_repeat →
  ∃ g, gs !! length (applied o) = Some g
       ∧ (norm g = ""
          ∨ norm g ∈ word <$> applied o
          ∨ norm g ∉ words (board s)
          ∨ ∃ idx, index_of (norm g) (words (board s)) = Some idx
                   ∧ revealed s !! idx = Some true).
Proof.
  intros Hat Hinv.
  pose proof (revealed_outside_applied _ _ _ _ _ _ _ _ Hat) as Hout.
  pose proof (applied_prefix_facts _ _ _ _ _ _ _ _ Hat) as (_ & Htrue).
  apply apply_turn_endings in Hat as (l & Hloop & Hrev & _ & Happ & Hre & _).
  rewrite Hre in Hinv.
  assert (Hs0 : ∀ x, x ∈ l_seen (init_loop s) ↔ x ∈ word <$> l_applied (init_loop s)).
  { intros x. simpl. split; intros Hx.
    - by apply not_elem_of_empty in Hx.
    - by apply not_elem_of_nil in Hx. }
  destruct (loop_invalid _ _ _ _ _ _ (init_loop s) _ Hs0 eq_refl Hloop Hinv)
    as (k & g & Hk & Hlen & Hcause).
  simpl in Hlen. rewrite Happ, Hlen. exists g. split; [done|].
  destruct Hcause as [?|[?|[Hn|(idx & Hidx & Hr)]]]; [tauto|tauto| |].
  - right; right; left. by apply index_of_None.
  - destruct (decide (idx ∈ index <$> applied o)) as [Hin|Hnin].
    + right; left. apply list_elem_of_fmap in Hin as (a & -> & Ha).
      rewrite Forall_forall in Htrue. destruct (Htrue a Ha) as (_ & Hwa & _).
      apply index_of_lookup in Hidx. rewrite Hwa in Hidx. inversion Hidx as [Heq].
      rewrite <- Happ. apply list_elem_of_fmap. by exists a.
    + right; right; right. exists idx. split; [done|].
      rewrite <- (Hout idx Hnin). by rewrite Hrev.
Qed.

Lemma X6_witness :
  apply_turn sample_state RED "FRUIT" 2 ["apple"; "APPLE "; "CAT"] true
  = (c3_state', inr x6_outcome)
  ∧ ∃ g, ["apple"; "APPLE "; "CAT"] !! 1%nat = Some g
         ∧ norm g ∈ word <$> applied x6_outcome.
Proof.
  assert (H : apply_turn sample_state RED "FRUIT" 2 ["apple"; "APPLE "; "CAT"] true
              = (c3_state', inr x6_outcome)) by (vm_compute; reflexivity).
  split; [exact H|].
  destruct (X6_invalid_or_repeat_cause _ _ _ _ _ _ _ _ H eq_refl) as (g & Hg & _).
  exists g. split; [exact Hg|].
  simpl in Hg. inversion Hg; subst g. vm_compute. left.
Defined.

(** *** X7: the counts after a turn *)

Lemma remaining_in_insert_exact ks : ∀ rs (i : nat) k t,
  ks !! i = Some k → rs !! i = Some false →
  (remaining_in ks (<[ i := true ]> rs) t + (if bool_decide (k = t) then 1 else 0)
   = remaining_in ks rs t)%nat.
Proof.
  unfold remaining_in.
  induction ks as [|k0 ks IH]; intros [|r rs] i k t Hk Hr; try done.
  destruct i as [|i]; simpl in *.
  - inversion Hk; inversion Hr; subst. rewrite !filter_cons. simpl.
    destruct (decide (true = false ∧ k = t)) as [[? _]|_]; [done|].
    case_bool_decide as Hkt.
    + destruct (decide (false = false ∧ k = t)) as [_|Hn]; [simpl; lia|tauto].
    + destruct (decide (false = false ∧ k = t)) as [[_ ?]|_]; [done|simpl; lia].
  - rewrite !filter_cons. specialize (IH rs i k t Hk Hr).
    destruct (decide (snd (k0, r) = false ∧ fst (k0, r) = t)); simpl; lia.
Qed.

Lemma unrevealed_insert_exact {A : Type} (ws : list A) : ∀ rs (i : nat),
  (i < length ws)%nat → rs !! i = Some false →
  (length (filter (λ wr : A * bool, snd wr = false) (pyzip ws (<[ i := true ]> rs))) + 1
   = length (filter (λ wr : A * bool, snd wr = false) (pyzip ws rs)))%nat.
Proof.
  induction ws as [|w ws IH]; intros [|r rs] i Hi Hr; simpl in *; try lia; try done.
  destruct i as [|i]; simpl in *.
  - inversion Hr; subst. rewrite !filter_cons. simpl.
    destruct (decide (true = false)); [done|].
    destruct (decide (false = false)); [simpl; lia|done].
  - rewrite !filter_cons. specialize (IH rs i (proj2 (Nat.succ_lt_mono _ _) Hi) Hr).
    destruct (decide (snd (w, r) = false)); simpl; lia.
Qed.

Lemma counts_reveal_all (ws : list string) ks new : ∀ rs,
  NoDup (index <$> new) →
  Forall (λ a, rs !! index a = Some false ∧ ks !! index a = Some (card_type a)
               ∧ (index a < length ws)%nat) new →
  (∀ t, (remaining_in ks (reveal_all rs new) t + length (filter (λ a, card_type a = t) new)
         = remaining_in ks rs t)%nat)
  ∧ (length (filter (λ wr : string * bool, snd wr = false) (pyzip ws (reveal_all rs new)))
     + length new
     = length (filter (λ wr : string * bool, snd wr = false) (pyzip ws rs)))%nat.
Proof.
  induction new as [|a new IH]; intros rs Hnd Hall.
  - simpl. split; [intros t|]; lia.
  - apply Forall_cons in Hall as [(Hr & Hk & Hlt) Hall].
    rewrite fmap_cons in Hnd. apply NoDup_cons in Hnd as [Hni Hnd].
    change (reveal_all rs (a :: new)) with (reveal_all (<[index a := true]> rs) new).
    destruct (IH (<[index a := true]> rs) Hnd) as [IH1 IH2].
    { rewrite Forall_forall in Hall |- *. intros x Hx.
      destruct (Hall x Hx) as (Hxr & Hxk & Hxl). split_and!; try done.
      rewrite list_lookup_insert_ne; [done|]. intros Heq. apply Hni.
      apply list_elem_of_fmap. exists x. by split. }
    split.
    + intros t. rewrite filter_cons. specialize (IH1 t).
      pose proof (remaining_in_insert_exact ks rs (index a) (card_type a) t Hk Hr) as Hex.
      case_bool_decide; destruct (decide (card_type a = t)); try done; simpl; lia.
    + pose proof (unrevealed_insert_exact ws rs (index a) Hlt Hr). simpl. lia.
Qed.

(** X7. After a turn, the number of unrevealed cards of a team is the
    number before the turn less the applied guesses of that team's colour,
    and the number of unrevealed words is the number before less the number
    of applied guesses: every applied guess reveals exactly one new card. *)
Theorem X7_counts_after_turn s tm cl num gs enf s' o :
  apply_turn s tm cl num gs enf = (s', inr o) →
  (∀ t : Team,
     (remaining s' t + length (filter (λ a, card_type a = card_of_team t) (applied o))
      = remaining s t)%nat)
  ∧ (length (unrevealed_words s') + length (applied o)
     = length (unrevealed_words s))%nat.
Proof.
  intros Hat.
  pose proof (applied_prefix_facts _ _ _ _ _ _ _ _ Hat) as (_ & Htrue).
  apply apply_turn_inr in Hat as (l & Hloop & -> & ->). simpl in *.
  destruct (loop_frame _ _ _ _ _ _ _ _ Hloop) as (new & Happ & Hrev & Hall & Hnd).
  simpl in Happ, Hrev, Hall. subst new.
  destruct (counts_reveal_all (words (board s)) (key (board s)) (l_applied l) (revealed s) Hnd)
    as [H1 H2].
  { rewrite Forall_forall in Hall, Htrue |- *. intros a Ha.
    destruct (Htrue a Ha) as (_ & Hw & Hk). split_and!; [by apply Hall|done|].
    by apply lookup_lt_Some in Hw. }
  split.
  - intros t. unfold remaining. simpl. rewrite Hrev. apply H1.
  - unfold unrevealed_words. simpl. rewrite !length_fmap, Hrev. apply H2.
Qed.

Lemma X7_witness :
  apply_turn sample_state RED "FRUIT" 2 ["apple "; "river"; "CAT"] true
  = (c4_state', inr c4_outcome)
  ∧ (remaining c4_state' RED + 1 = remaining sample_state RED)%nat
  ∧ (length (unrevealed_words c4_state') + 2 = length (unrevealed_words sample_state))%nat.
Proof.
  assert (H : apply_turn sample_state RED "FRUIT" 2 ["apple "; "river"; "CAT"] true
              = (c4_state', inr c4_outcome)) by (vm_compute; reflexivity).
  split; [exact H|].
  destruct (X7_counts_after_turn _ _ _ _ _ _ _ _ H) as [H1 H2].
  split; [exact (H1 RED)|exact H2].
Defined.

End RulesMore.

(** ** Facts about the string primitives *)

Module PyFacts.
Import Py.

Ltac by_cases_on_char c :=
  destruct c as [[] [] [] [] [] [] [] []]; vm_compute; reflexivity.

Lemma is_space_upper_char c : is_space (upper_char c) = is_space c.
Proof. by_cases_on_char c. Qed.

Lemma is_alpha_upper_char c : is_alpha (upper_char c) = is_alpha c.
Proof. by_cases_on_char c. Qed.

Lemma upper_char_idem c : upper_char (upper_char c) = upper_char c.
Proof. by_cases_on_char c. Qed.

Lemma apostrophe_upper_char c : Ascii.eqb (upper_char c) "'" = Ascii.eqb c "'".
Proof. by_cases_on_char c. Qed.

Lemma is_upper_upper_char c : is_alpha c = true → is_upper (upper_char c) = true.
Proof. destruct c as [[] [] [] [] [] [] [] []]; vm_compute; intros; congruence. Qed.

Lemma space_not_alpha c : is_space c = true → is_alpha c = false.
Proof. destruct c as [[] [] [] [] [] [] [] []]; vm_compute; intros; congruence. Qed.

Lemma upper_idem s : upper (upper s) = upper s.
Proof. induction s as [|c s IH]; simpl; [done|]. by rewrite upper_char_idem, IH. Qed.

Lemma is_empty_upper s : is_empty (upper s) = is_empty s.
Proof. by destruct s. Qed.

Lemma length_upper s : String.length (upper s) = String.length s.
Proof. induction s as [|c s IH]; simpl; [done|]. by rewrite IH. Qed.

Lemma lstrip_upper s : lstrip (upper s) = upper (lstrip s).
Proof.
  induction s as [|c s IH]; simpl; [done|].
  rewrite is_space_upper_char. by destruct (is_space c).
Qed.

Lemma rstrip_upper s : rstrip (upper s) = upper (rstrip s).
Proof.
  induction s as [|c s IH]; simpl; [done|].
  rewrite IH, is_space_upper_char. destruct (rstrip s); simpl; [|done].
  by destruct (is_space c).
Qed.

Lemma strip_upper s : strip (upper s) = upper (strip s).
Proof. unfold strip. by rewrite lstrip_upper, rstrip_upper. Qed.

Lemma rstrip_idem s : rstrip (rstrip s) = rstrip s.
Proof.
  induction s as [|c s IH]; simpl; [done|].
  destruct (rstrip s) as [|c' r'] eqn:E.
  - destruct (is_space c) eqn:Ec; simpl; [done|]. by rewrite Ec.
  - change (rstrip (String c (String c' r')))
      with (match rstrip (String c' r') with
            | EmptyString => if is_space c then EmptyString else String c EmptyString
            | String a r'' => String c (String a r'')
            end).
    by rewrite IH.
Qed.

(** A string without leading blank keeps none when its trailing blanks go. *)
Lemma lstrip_rstrip_fixed t : lstrip t = t → lstrip (rstrip t) = rstrip t.
Proof.
  destruct t as [|c r]; [done|]. simpl.
  destruct (is_space c) eqn:Ec.
  - intros Heq. exfalso.
    assert (Hlen : ∀ s, (String.length (lstrip s) ≤ String.length s)%nat).
    { induction s as [|a s IHs]; simpl; [lia|]. destruct (is_space a); simpl; lia. }
    specialize (Hlen r). rewrite Heq in Hlen. simpl in Hlen. lia.
  - intros _. destruct (rstrip r); simpl; by rewrite Ec.
Qed.

Lemma lstrip_idem s : lstrip (lstrip s) = lstrip s.
Proof.
  induction s as [|c s IH]; simpl; [done|].
  destruct (is_space c) eqn:Ec; [done|]. simpl. by rewrite Ec.
Qed.

Lemma strip_idem s : strip (strip s) = strip s.
Proof.
  unfold strip. rewrite (lstrip_rstrip_fixed (lstrip s)) by apply lstrip_idem.
  apply rstrip_idem.
Qed.

End PyFacts.

(** ** The legality filter: further properties *)

Module LegalityMore.
Import Py PyFacts Env Json Legality Agent Sample.

(** *** X8: what a legal verdict means *)

Lemma check_board_true c bw r :
  check_board c (pyzip bw (normalize_token <$> bw)) = (true, r)
  ↔ r = "ok" ∧ ∀ w, w ∈ bw → word_conflict c w (normalize_token w) = None.
Proof.
  induction bw as [|x bw IH]; simpl.
  - split.
    + intros [= <-]. split; [done|]. intros w Hw. by apply not_elem_of_nil in Hw.
    + by intros [-> _].
  - destruct (word_conflict c x (normalize_token x)) eqn:E.
    + split; [done|]. intros [_ Hall]. specialize (Hall x). rewrite E in Hall.
      discriminate Hall. by left.
    + rewrite IH. split; intros [-> Hall]; (split; [done|]).
      * intros w Hw. apply elem_of_cons in Hw as [->|Hw]; [done|by apply Hall].
      * intros w Hw. apply Hall. by right.
Qed.

Lemma word_conflict_None c w wn :
  word_conflict c w wn = None
  ↔ c ≠ wn
    ∧ (c ≠ "" → wn ≠ "" → contains c wn = false ∧ contains wn c = false)
    ∧ (c +:+ "S") ≠ wn ∧ (wn +:+ "S") ≠ c.
Proof.
  unfold word_conflict.
  destruct (String.eqb c wn) eqn:E1.
  { apply String.eqb_eq in E1. split; [done|]. by intros [? _]. }
  apply String.eqb_neq in E1.
  destruct (negb (is_empty c) && negb (is_empty wn) && (contains c wn || contains wn c)) eqn:E2.
  { split; [done|]. intros (_ & Hc & _).
    apply andb_true_iff in E2 as [E2 E3]. apply andb_true_iff in E2 as [Ec Ew].
    assert (Hcn : c ≠ "") by (intros ->; discriminate Ec).
    assert (Hwn : wn ≠ "") by (intros ->; discriminate Ew).
    destruct (Hc Hcn Hwn) as [H1 H2]. by rewrite H1, H2 in E3. }
  destruct (String.eqb (c +:+ "S") wn) eqn:E3.
  { apply String.eqb_eq in E3. simpl. split; [done|]. by intros (_ & _ & ? & _). }
  destruct (String.eqb (wn +:+ "S") c) eqn:E4.
  { apply String.eqb_eq in E4. simpl. split; [done|]. by intros (_ & _ & _ & ?). }
  apply String.eqb_neq in E3, E4. simpl. split; [|done]. intros _.
  split_and!; try done. intros Hc Hw.
  destruct c; [done|]. destruct wn; [done|]. simpl in E2.
  by apply orb_false_iff in E2.
Qed.

(** X8. [is_legal_clue] answers True exactly when the trimmed clue matches
    the single-word pattern, its normalisation has a letter and is not a
    banned word, and for every board word the normalised clue differs from
    the normalised word, neither contains the other (when the word has a
    letter), and neither is the other followed by S. The reason returned with
    True is always "ok". *)
Theorem X8_legal_iff (clue : string) (bw : list string) (r : string) :
  is_legal_clue clue bw = (true, r)
  ↔ r = "ok"
    ∧ strip clue ≠ ""
    ∧ is_single_word (strip clue) = true
    ∧ normalize_token (strip clue) ≠ ""
    ∧ (normalize_token (strip clue) ∉ _BANNED_CLUES)
    ∧ (∀ w, w ∈ bw →
         normalize_token (strip clue) ≠ normalize_token w
         ∧ (normalize_token w ≠ "" →
            contains (normalize_token (strip clue)) (normalize_token w) = false
            ∧ contains (normalize_token w) (normalize_token (strip clue)) = false)
         ∧ (normalize_token (strip clue) +:+ "S") ≠ normalize_token w
         ∧ (normalize_token w +:+ "S") ≠ normalize_token (strip clue)).
Proof.
  unfold is_legal_clue.
  destruct (is_empty (strip clue)) eqn:E1.
  { split; [done|]. intros (_ & Hne & _). by destruct (strip clue). }
  destruct (is_single_word (strip clue)) eqn:E2; simpl; [|split; [done|]; by intros (_ & _ & ? & _)].
  destruct (is_empty (normalize_token (strip clue))) eqn:E3.
  { split; [done|]. intros (_ & _ & _ & Hne & _). by destruct (normalize_token (strip clue)). }
  case_bool_decide as E4; [split; [done|]; by intros (_ & _ & _ & _ & ? & _)|].
  rewrite check_board_true. split.
  - intros [-> Hall]. split_and!; try done; [by destruct (strip clue)
      |by destruct (normalize_token (strip clue))|].
    intros w Hw. apply Hall, word_conflict_None in Hw as (H1 & H2 & H3 & H4).
    split_and!; try done. intros Hwn. apply H2; [|done].
    by destruct (normalize_token (strip clue)).
  - intros (-> & _ & _ & Hn & _ & Hall). split; [done|]. intros w Hw.
    apply word_conflict_None. destruct (Hall w Hw) as (H1 & H2 & H3 & H4).
    by split_and!.
Qed.

Lemma X8_witness :
  is_legal_clue " Fruit " sample_words = (true, "ok")
  ∧ normalize_token (strip " Fruit ") ≠ normalize_token "APPLE".
Proof.
  assert (H : is_legal_clue " Fruit " sample_words = (true, "ok")) by (vm_compute; reflexivity).
  split; [exact H|].
  destruct (proj1 (X8_legal_iff " Fruit " sample_words "ok") H) as (_ & _ & _ & _ & _ & Hall).
  destruct (Hall "APPLE") as [H1 _]; [by left|exact H1].
Defined.

(** *** X9: a clue that overlaps a board word is never legal *)

(** X9. Whatever the case or punctuation of the clue, it is rejected when
    its normalisation equals the normalisation of a board word, or when the
    two normalisations have a letter and one contains the other. *)
Theorem X9_overlap_rejected (clue : string) (bw : list string) (w : string) :
  w ∈ bw →
  normalize_token (strip clue) = normalize_token w
  ∨ (normalize_token (strip clue) ≠ "" ∧ normalize_token w ≠ ""
     ∧ (contains (normalize_token (strip clue)) (normalize_token w) = true
        ∨ contains (normalize_token w) (normalize_token (strip clue)) = true)) →
  fst (is_legal_clue clue bw) = false.
Proof.
  intros Hin Hov. unfold is_legal_clue.
  repeat (case_match; [done|]).
  eapply LegalityFacts.check_board_rejects; [exact Hin|].
  intros Hnone. apply word_conflict_None in Hnone as (Hne & Hsub & _).
  destruct Hov as [?|(Hn & Hw & Hc)]; [done|].
  destruct (Hsub Hn Hw) as [Hc1 Hc2]. destruct Hc; congruence.
Qed.

Lemma X9_witness :
  "CAT" ∈ sample_words ∧ fst (is_legal_clue "  c'a't " sample_words) = false.
Proof.
  assert (Hin : "CAT" ∈ sample_words) by (right; right; left).
  split; [exact Hin|].
  apply (X9_overlap_rejected "  c'a't " sample_words "CAT" Hin).
  left. vm_compute. reflexivity.
Defined.

(** *** X10: the filter is a partition *)

(** X10. [filter_legal_clues] splits the candidates in two without losing
    or reordering any: the legal list is the candidates whose trimmed clue
    [is_legal_clue] accepts, in their order, each with its clue replaced by
    the trimmed string; the rejected list is the others, in their order, each
    with the reason [is_legal_clue] gave. *)
Theorem X10_filter_partition `{PyBuiltins} (cs : list CandDict) (bw : list string) :
  fst (filter_legal_clues cs bw)
  = with_stripped_clue
    <$> filter (λ c, fst (is_legal_clue (stripped_clue c) bw) = true) cs
  ∧ snd (filter_legal_clues cs bw)
    = (λ c, RejectedCand (snd (is_legal_clue (stripped_clue c) bw)) (with_stripped_clue c))
      <$> filter (λ c, fst (is_legal_clue (stripped_clue c) bw) ≠ true) cs
  ∧ (length (fst (filter_legal_clues cs bw)) + length (snd (filter_legal_clues cs bw))
     = length cs)%nat.
Proof.
  induction cs as [|c cs (IH1 & IH2 & IH3)]; [done|].
  cbn [filter_legal_clues]. cbv zeta.
  change (strip (py_str (d_clue c))) with (stripped_clue c).
  change (mkCandDict (JStr (stripped_clue c)) (d_number c) (d_intended_targets c)
                     (d_danger_words c) (d_raw c)) with (with_stripped_clue c).
  destruct (filter_legal_clues cs bw) as [legal rejected]. cbn [fst snd] in IH1, IH2, IH3.
  rewrite !filter_cons.
  destruct (is_legal_clue (stripped_clue c) bw) as [[|] reason] eqn:E; cbn [fst snd].
  - rewrite decide_True by done. rewrite decide_False by (by intros ?).
    rewrite fmap_cons, <- IH1, <- IH2. split_and!; [done|done|]. simpl. lia.
  - rewrite decide_False by done. rewrite decide_True by done.
    rewrite fmap_cons, E, <- IH1, <- IH2. split_and!; [done|done|]. simpl. lia.
Qed.

(** *** X11 and X12: normalisation *)

Lemma letters_only_upper s : letters_only (upper s) = upper (letters_only s).
Proof.
  induction s as [|c s IH]; simpl; [done|].
  rewrite is_alpha_upper_char. destruct (is_alpha c); simpl; by rewrite IH.
Qed.

Lemma letters_only_idem s : letters_only (letters_only s) = letters_only s.
Proof.
  induction s as [|c s IH]; simpl; [done|].
  destruct (is_alpha c) eqn:E; simpl; [|done]. by rewrite E, IH.
Qed.

Lemma letters_only_lstrip s : letters_only (lstrip s) = letters_only s.
Proof.
  induction s as [|c s IH]; simpl; [done|].
  destruct (is_space c) eqn:E; [|done]. by rewrite (space_not_alpha c E).
Qed.

Lemma letters_only_rstrip s : letters_only (rstrip s) = letters_only s.
Proof.
  induction s as [|c s IH]; simpl; [done|].
  destruct (rstrip s) as [|c' r'] eqn:E.
  - simpl in IH. destruct (is_space c) eqn:Ec.
    + rewrite (space_not_alpha c Ec). by rewrite <- IH.
    + simpl. by rewrite <- IH.
  - cbn [letters_only]. cbn [letters_only] in IH. by rewrite IH.
Qed.

Lemma normalize_token_upper s : normalize_token (upper s) = normalize_token s.
Proof. unfold normalize_token. by rewrite letters_only_upper, upper_idem. Qed.

Lemma normalize_token_strip s : normalize_token (strip s) = normalize_token s.
Proof. unfold normalize_token, strip. by rewrite letters_only_rstrip, letters_only_lstrip. Qed.

Lemma normalize_token_letters s : only_upper_letters (normalize_token s) = true.
Proof.
  unfold normalize_token. induction s as [|c s IH]; simpl; [done|].
  destruct (is_alpha c) eqn:E; simpl; [|done]. by rewrite (is_upper_upper_char c E), IH.
Qed.

(** X11. [normalize_token] yields uppercase letters only, is idempotent,
    and does not see surrounding blanks; on ASCII text it does not see
    letter case either: a string and its uppercase form have the same
    normalisation. *)
Theorem X11_normalize_token (s : string) :
  only_upper_letters (normalize_token s) = true
  ∧ normalize_token (normalize_token s) = normalize_token s
  ∧ normalize_token (strip s) = normalize_token s
  ∧ (ascii_only s = true → normalize_token (upper s) = normalize_token s).
Proof.
  split_and!.
  - apply normalize_token_letters.
  - unfold normalize_token. by rewrite letters_only_upper, letters_only_idem, upper_idem.
  - apply normalize_token_strip.
  - intros _. apply normalize_token_upper.
Qed.

Lemma X11_witness :
  ascii_only "Ice-Cream" = true
  ∧ normalize_token (upper "Ice-Cream") = normalize_token "Ice-Cream".
Proof.
  assert (Ha : ascii_only "Ice-Cream" = true) by reflexivity.
  split; [exact Ha|].
  exact (proj2 (proj2 (proj2 (X11_normalize_token "Ice-Cream"))) Ha).
Defined.

Lemma word_chars_upper s : word_chars (upper s) = word_chars s.
Proof.
  induction s as [|c s IH]; simpl; [done|].
  by rewrite is_alpha_upper_char, apostrophe_upper_char, IH.
Qed.

Lemma is_single_word_upper s : is_single_word (upper s) = is_single_word s.
Proof.
  unfold is_single_word. rewrite strip_upper. destruct (strip s) as [|c r]; simpl; [done|].
  by rewrite is_alpha_upper_char, word_chars_upper, length_upper.
Qed.

Lemma word_conflict_is_None c w w' wn :
  word_conflict c w wn = None ↔ word_conflict c w' wn = None.
Proof. unfold word_conflict. by repeat case_match. Qed.

Lemma check_board_verdict c (f : string → string) bw :
  (∀ w, normalize_token (f w) = normalize_token w) →
  fst (check_board c (pyzip (f <$> bw) (normalize_token <$> (f <$> bw))))
  = fst (check_board c (pyzip bw (normalize_token <$> bw))).
Proof.
  intros Hf. induction bw as [|w bw IH]; simpl; [done|]. rewrite Hf.
  pose proof (word_conflict_is_None c w (f w) (normalize_token w)) as Hiff.
  destruct (word_conflict c w (normalize_token w)) as [r|] eqn:E1;
    destruct (word_conflict c (f w) (normalize_token w)) as [r'|] eqn:E2; try done.
  - destruct Hiff as [_ Hi]. discriminate (Hi eq_refl).
  - destruct Hiff as [Hi _]. discriminate (Hi eq_refl).
Qed.

(** X12. On ASCII text the legality of a clue does not depend on letter
    case: the uppercase form of an ASCII clue gets the same answer, reason
    included, as the clue itself, and uppercasing ASCII board words does not
    change whether the clue is accepted. *)
Theorem X12_case_insensitive (clue : string) (bw : list string) :
  (ascii_only clue = true →
   is_legal_clue (upper clue) bw = is_legal_clue clue bw)
  ∧ (Forall (λ w, ascii_only w = true) bw →
     fst (is_legal_clue clue (upper <$> bw)) = fst (is_legal_clue clue bw)).
Proof.
  split.
  - intros _. unfold is_legal_clue.
    by rewrite !strip_upper, is_empty_upper, is_single_word_upper, normalize_token_upper.
  - intros _. unfold is_legal_clue. repeat (case_match; [done|]).
    apply check_board_verdict, normalize_token_upper.
Qed.

Lemma X12_witness :
  ascii_only "fruit" = true
  ∧ Forall (λ w, ascii_only w = true) sample_words
  ∧ is_legal_clue (upper "fruit") sample_words = is_legal_clue "fruit" sample_words
  ∧ fst (is_legal_clue "fruit" (upper <$> sample_words))
    = fst (is_legal_clue "fruit" sample_words).
Proof.
  assert (Hc : ascii_only "fruit" = true) by reflexivity.
  assert (Hb : Forall (λ w, ascii_only w = true) sample_words).
  { apply Forall_forall. intros w Hw. vm_compute in Hw.
    repeat (apply elem_of_cons in Hw as [->|Hw]; [reflexivity|]).
    by apply not_elem_of_nil in Hw. }
  split; [exact Hc|]. split; [exact Hb|].
  destruct (X12_case_insensitive "fruit" sample_words) as [H1 H2].
  split; [exact (H1 Hc)|exact (H2 Hb)].
Defined.

End LegalityMore.

(** ** The LLM client: further properties *)

Module ClientMore.
Import Py Env Json Client ClientFacts Sample.

Section Budget.
Context `{PyBuiltins}.
Variable _cache_key : Payload → string.

(** What the end of an attempt leaves of the world: only the cache can
    change, at the key of the call, and only when the cache is in use. *)
Lemma finish_attempt_frame uc key sc body w r w' :
  finish_attempt uc key sc body w = (r, w') →
  server w' = server w ∧ posts w' = posts w ∧ slept w' = slept w
  ∧ (cache w' = cache w
     ∨ ∃ data, uc = true ∧ body = Some data ∧ r = _parse_response data
               ∧ cache w' = (insert key data <$> cache w)).
Proof.
  unfold finish_attempt. destruct ((400 <=? sc) && (sc <? 600)).
  - intros [= <- <-]. split_and!; try done. by left.
  - destruct body as [data|]; [|intros [= <- <-]; split_and!; try done; by left].
    destruct uc; intros [= <- <-]; simpl; split_and!; try done; [|by left].
    right. by exists data.
Qed.

Lemma attempt_loop_spec uc key n : ∀ backoff last w r w',
  attempt_loop uc key n backoff last w = (r, w') →
  server w' = server w
  ∧ (uc = false → cache w' = cache w)
  ∧ ∃ k, (k ≤ n)%nat ∧ posts w' = (posts w + k)%nat
         ∧ match r with
           | inr _ => (1 ≤ k)%nat ∧ slept w' = backoffs (k - 1) backoff ++ slept w
           | inl _ => k = n ∧ slept w' = backoffs n backoff ++ slept w
           end.
Proof.
  induction n as [|n IH]; intros backoff last w r w'; cbn [attempt_loop].
  - intros [= <- <-]. split; [done|]. split; [done|]. exists 0%nat.
    split; [lia|]. split; [lia|]. done.
  - unfold post.
    assert (Hstep : ∀ last' w1,
              server w1 = server w → posts w1 = S (posts w) → slept w1 = slept w →
              (uc = false → cache w1 = cache w) →
              attempt_loop uc key n (backoff * Q2Qc 2)%Qc last' (sleep backoff w1) = (r, w') →
              server w' = server w
              ∧ (uc = false → cache w' = cache w)
              ∧ ∃ k, (k ≤ S n)%nat ∧ posts w' = (posts w + k)%nat
                     ∧ match r with
                       | inr _ => (1 ≤ k)%nat
                                  ∧ slept w' = backoffs (k - 1) backoff ++ slept w
                       | inl _ => k = S n ∧ slept w' = backoffs (S n) backoff ++ slept w
                       end).
    { intros last' w1 Hs Hp Hsl Hc Hl.
      apply IH in Hl as (Hs' & Hc' & k & Hk & Hp' & Hr). cbn [sleep server posts slept cache] in *.
      split; [congruence|]. split; [intros Hu; rewrite (Hc' Hu); by apply Hc|].
      exists (S k). split; [lia|]. split; [lia|].
      destruct r as [e|resp].
      - destruct Hr as [-> ->]. split; [done|].
        cbn [backoffs]. rewrite <- app_assoc. cbn [app]. by rewrite Hsl.
      - destruct Hr as [Hk1 ->]. split; [lia|].
        destruct k as [|k]; [lia|]. cbn [Nat.sub]. rewrite Nat.sub_0_r.
        cbn [backoffs]. rewrite <- app_assoc. cbn [app]. by rewrite Hsl. }
    destruct (server w (posts w)) as [|sc body].
    + apply Hstep; done.
    + destruct ((sc =? 429) || (500 <=? sc) && (sc <? 600)); [apply Hstep; done|].
      destruct (finish_attempt uc key sc body _) as [[e|resp] w2] eqn:Hf;
        apply finish_attempt_frame in Hf as (Hs & Hp & Hsl & Hc);
        cbn [server posts slept cache] in *.
      * apply Hstep; try done.
        intros Hu. destruct Hc as [Hc|(data & Hu' & _)]; [done|congruence].
      * intros [= <- <-]. split; [done|]. split.
        { intros Hu. destruct Hc as [Hc|(data & Hu' & _)]; [done|congruence]. }
        exists 1%nat. split; [lia|]. split; [lia|]. split; [lia|]. by rewrite Hsl.
Qed.

(** X22. What a call of [create_json] does to the world. Either it makes no
    attempt and leaves the world as it is: the mode is invalid, or the cache
    answers (and then the result is the parse of the cached response). Or it
    makes k posts, k no more than the retry budget: when it returns, it slept
    after each of the k - 1 failed attempts; when it raises, it used the whole
    budget, slept after every attempt, and raises the "request failed" error.
    The sleeps double from 1 second. The server is left as it is, and so is the
    cache of a call that does not use it. *)
Theorem X22_retry_budget (rq : Request) (w : World) (r : raises LLMResponse)
    (w' : World) :
  create_json _cache_key rq w = (r, w') →
  (w' = w
   ∧ (r = inl (ValueError "mode must be json_schema or json_object")
      ∨ ∃ data, use_cache rq w = true
                ∧ cache_get (_cache_key (payload_of rq)) w = Some data
                ∧ r = _parse_response data))
  ∨ (server w' = server w
     ∧ (use_cache rq w = false → cache w' = cache w)
     ∧ ∃ k, (k ≤ Z.to_nat (rq_retries rq))%nat ∧ posts w' = (posts w + k)%nat
            ∧ ((∃ resp, r = inr resp ∧ (1 ≤ k)%nat
                        ∧ slept w' = backoffs (k - 1) (Q2Qc 1) ++ slept w)
               ∨ (∃ last, r = inl (RequestFailed (rq_retries rq) last)
                          ∧ k = Z.to_nat (rq_retries rq)
                          ∧ slept w' = backoffs k (Q2Qc 1) ++ slept w))).
Proof.
  unfold create_json.
  destruct (negb _); [intros [= <- <-]; left; split; [done|by left]|].
  destruct (if use_cache rq w then _ else None) as [data|] eqn:Hhit.
  - intros [= <- <-]. left. split; [done|]. right. exists data.
    destruct (use_cache rq w); [done|discriminate].
  - destruct (attempt_loop _ _ _ _ _ w) as [[last|resp] w1] eqn:Hl; intros [= <- <-];
      apply attempt_loop_spec in Hl as (Hs & Hc & k & Hk & Hp & Hr); right;
      (split; [done|]); (split; [done|]); exists k; (split; [done|]); (split; [done|]).
    + right. exists last. destruct Hr as [-> ->]. done.
    + left. exists resp. destruct Hr as [Hk1 ->]. done.
Qed.

End Budget.

Lemma X22_witness :
  ∃ r w',
    create_json sample_cache_key sample_request refusing_world = (r, w')
    ∧ posts w' = 5%nat
    ∧ slept w' = [Q2Qc 16; Q2Qc 8; Q2Qc 4; Q2Qc 2; Q2Qc 1].
Proof.
  destruct (create_json sample_cache_key sample_request refusing_world) as [r w'] eqn:Hrun.
  exists r, w'. split; [reflexivity|].
  destruct (X22_retry_budget sample_cache_key sample_request refusing_world r w' Hrun)
    as [[Hw _]|(_ & _ & k & _ & Hp & [(resp & Hr & _)|(last & _ & Hk & Hsl)])].
  - exfalso. subst w'. vm_compute in Hrun. inversion Hrun.
  - exfalso. subst r. vm_compute in Hrun. discriminate Hrun.
  - subst k. split; [exact Hp|].
    rewrite Hsl. cbn. repeat (f_equal; try (apply Qc_is_canon; reflexivity)).
Defined.

(** *** X23 and X24: the cache *)

Section Cache.
Context `{PyBuiltins}.
Variable _cache_key : Payload → string.

(** A cached response: the table of the client holds [data] under [key]. *)
Lemma finish_attempt_cached key sc body w resp w' :
  finish_attempt true key sc body w = (inr resp, w') →
  ∃ data, _parse_response data = inr resp
          ∧ cache w' = (insert key data <$> cache w).
Proof.
  unfold finish_attempt. destruct ((400 <=? sc) && (sc <? 600)); [done|].
  destruct body as [data|]; [|done]. intros [= Hp <-]. by exists data.
Qed.

Lemma attempt_loop_cached key n : ∀ backoff last w resp w',
  is_Some (cache w) →
  attempt_loop true key n backoff last w = (inr resp, w') →
  ∃ tbl data, cache w' = Some tbl ∧ tbl !! key = Some data
              ∧ _parse_response data = inr resp.
Proof.
  induction n as [|n IH]; intros backoff last w resp w' Hsome; cbn [attempt_loop]; [done|].
  unfold post. destruct (server w (posts w)) as [|sc body].
  - apply IH. done.
  - destruct ((sc =? 429) || (500 <=? sc) && (sc <? 600)); [by apply IH|].
    destruct (finish_attempt true key sc body _) as [[e|r] w2] eqn:Hf.
    + apply IH. apply finish_attempt_frame in Hf as (_ & _ & _ & [Hc|(d & _ & _ & _ & Hc)]);
        cbn [sleep cache] in *; rewrite Hc; [done|].
      destruct Hsome as [tbl ->]. by eexists.
    + intros [= <- <-]. apply finish_attempt_cached in Hf as (data & Hp & Hc).
      cbn [cache] in Hc. destruct Hsome as [tbl Ht]. rewrite Ht in Hc.
      exists (<[key:=data]> tbl), data. split; [done|].
      split; [apply lookup_insert_eq|done].
Qed.

Lemma parse_response_null : _parse_response JNull = inl AttributeError.
Proof. reflexivity. Qed.

(** X23. A call that uses the cache and returns has left the response
    under its key: the same call made again returns the same response from
    the cache, and leaves the world as it is (no post, no sleep). *)
Theorem X23_cache_round_trip (rq : Request) (w : World) (resp : LLMResponse)
    (w' : World) :
  use_cache rq w = true →
  create_json _cache_key rq w = (inr resp, w') →
  create_json _cache_key rq w' = (inr resp, w')
  ∧ ∃ data, cache_get (_cache_key (payload_of rq)) w' = Some data
            ∧ _parse_response data = inr resp.
Proof.
  intros Huc. unfold create_json.
  destruct (negb _) eqn:Hmode; [done|]. rewrite Huc.
  destruct (cache_get _ w) as [data|] eqn:Hhit.
  - intros [= Hp <-]. rewrite Huc, Hhit. split; [by rewrite Hp|]. by exists data.
  - destruct (attempt_loop _ _ _ _ _ w) as [[last|r] w1] eqn:Hl; [done|].
    intros [= <- <-].
    assert (Hsome : is_Some (cache w)).
    { unfold use_cache in Huc. destruct (cache w); [by eexists|done]. }
    apply attempt_loop_cached in Hl as (tbl & data & Hc & Hk & Hp); [|done].
    assert (Huc' : use_cache rq w1 = true).
    { unfold use_cache in *. rewrite Hc. destruct (cache w); [done|discriminate]. }
    assert (Hget : cache_get (_cache_key (payload_of rq)) w1 = Some data).
    { unfold cache_get. rewrite Hc, Hk. destruct data; [|done..].
      by rewrite parse_response_null in Hp. }
    rewrite Huc', Hget. split; [by rewrite Hp|]. by exists data.
Qed.

(** Attempts that are all answered by the same unparsable response. *)
Lemma attempt_loop_unparsable key sc data e n : ∀ backoff last w,
  sc ≠ 429 → ¬ (400 ≤ sc < 600) → _parse_response data = inl e →
  is_Some (cache w) →
  (∀ k, (k < n)%nat → server w (posts w + k) = Response sc (Some data)) →
  ∃ w', attempt_loop true key n backoff last w
        = (inl (match n with O => last | S _ => Some e end), w')
        ∧ posts w' = (posts w + n)%nat
        ∧ is_Some (cache w')
        ∧ (n ≠ 0%nat ∨ (cache w ≫= (.!! key)) = Some data →
           (cache w' ≫= (.!! key)) = Some data).
Proof.
  intros backoff last w Hsc1 Hsc2 Hparse. revert backoff last w.
  induction n as [|n IH]; intros backoff last w Hsome Hall; cbn [attempt_loop].
  - exists w. split; [done|]. split; [lia|]. split; [done|]. by intros [?|?].
  - unfold post. pose proof (Hall 0%nat (Nat.lt_0_succ n)) as Hfirst.
    rewrite Nat.add_0_r in Hfirst. rewrite Hfirst.
    assert (Hretry : (sc =? 429) || (500 <=? sc) && (sc <? 600) = false).
    { apply orb_false_iff. split; [by apply Z.eqb_neq|].
      apply andb_false_iff.
      destruct (Z.leb_spec 500 sc); [right; apply Z.ltb_ge; lia|by left]. }
    rewrite Hretry. unfold finish_attempt.
    assert (Hst : (400 <=? sc) && (sc <? 600) = false).
    { apply andb_false_iff.
      destruct (Z.leb_spec 400 sc); [right; apply Z.ltb_ge; lia|by left]. }
    rewrite Hst, Hparse. cbn [server posts slept cache]. destruct Hsome as [tbl Ht].
    destruct (IH (backoff * Q2Qc 2)%Qc (Some e)
                 (sleep backoff
                    (mkWorld (server w) (S (posts w)) (slept w)
                             (insert key data <$> cache w))))
      as (w' & Heq & Hp & Hs & Hk).
    { cbn [sleep cache]. rewrite Ht. by eexists. }
    { intros k Hk. cbn [sleep server posts].
      replace (S (posts w) + k)%nat with (posts w + S k)%nat by lia. apply Hall. lia. }
    exists w'. rewrite Heq. split; [by destruct n|].
    cbn [sleep posts] in Hp. split; [lia|]. split; [done|].
    intros _. apply Hk. right. cbn [sleep cache]. rewrite Ht. simpl.
    apply lookup_insert_eq.
Qed.

(** X24. The cache is written before the response is parsed, so a response
    that cannot be parsed is cached all the same. When the server gives such
    a response to every attempt of a call that uses the cache, the call uses
    up its retries and raises the "request failed" error; the same call made
    again makes no post at all and raises the parse error itself, from the
    cached response. *)
Theorem X24_failed_parse_is_cached (rq : Request) (w : World) (sc : Z) (data : json)
    (e : PyExn) :
  String.eqb (rq_mode rq) "json_schema" || String.eqb (rq_mode rq) "json_object" = true →
  use_cache rq w = true →
  cache_get (_cache_key (payload_of rq)) w = None →
  1 ≤ rq_retries rq →
  sc ≠ 429 → ¬ (400 ≤ sc < 600) →
  data ≠ JNull → _parse_response data = inl e →
  (∀ k, (k < Z.to_nat (rq_retries rq))%nat →
        server w (posts w + k) = Response sc (Some data)) →
  ∃ w', create_json _cache_key rq w = (inl (RequestFailed (rq_retries rq) (Some e)), w')
        ∧ posts w' = (posts w + Z.to_nat (rq_retries rq))%nat
        ∧ create_json _cache_key rq w' = (inl e, w').
Proof.
  intros Hmode Huc Hmiss Hr Hsc1 Hsc2 Hnull Hparse Hall.
  assert (Hsome : is_Some (cache w)).
  { unfold use_cache in Huc. destruct (cache w); [by eexists|done]. }
  destruct (attempt_loop_unparsable (_cache_key (payload_of rq)) sc data e
              (Z.to_nat (rq_retries rq)) (Q2Qc 1) None w Hsc1 Hsc2 Hparse Hsome Hall)
    as (w' & Heq & Hp & [tbl' Hc] & Hk).
  exists w'. unfold create_json. rewrite Hmode, Huc, Hmiss, Heq. cbn [negb].
  split; [|split; [done|]].
  - destruct (Z.to_nat (rq_retries rq)) eqn:Hn; [lia|done].
  - assert (Huc' : use_cache rq w' = true).
    { unfold use_cache in *. rewrite Hc. destruct (cache w); [done|discriminate]. }
    assert (Hget : cache_get (_cache_key (payload_of rq)) w' = Some data).
    { unfold cache_get. rewrite Hc in Hk |- *. simpl in Hk. rewrite Hk by (left; lia).
      by destruct data. }
    by rewrite Huc', Hget, Hparse.
Qed.

End Cache.

Lemma X23_witness :
  use_cache sample_request answering_world = true
  ∧ ∃ resp w',
      @create_json reading_builtins sample_cache_key sample_request answering_world
      = (inr resp, w')
      ∧ posts w' = 1%nat
      ∧ @create_json reading_builtins sample_cache_key sample_request w' = (inr resp, w').
Proof.
  assert (Huc : use_cache sample_request answering_world = true) by reflexivity.
  split; [exact Huc|].
  destruct (@create_json reading_builtins sample_cache_key sample_request answering_world)
    as [[e|resp] w'] eqn:Hrun.
  - vm_compute in Hrun. discriminate Hrun.
  - exists resp, w'. split; [reflexivity|]. split.
    + vm_compute in Hrun. by inversion Hrun.
    + exact (proj1 (@X23_cache_round_trip reading_builtins sample_cache_key sample_request
                      answering_world resp w' Huc Hrun)).
Defined.

Lemma X24_witness :
  ∃ w', create_json sample_cache_key sample_request caching_refusing_world
        = (inl (RequestFailed 5
                  (Some (RuntimeError "Model refusal: I cannot help with that."))), w')
        ∧ posts w' = 5%nat
        ∧ create_json sample_cache_key sample_request w'
          = (inl (RuntimeError "Model refusal: I cannot help with that."), w').
Proof.
  apply (X24_failed_parse_is_cached sample_cache_key sample_request caching_refusing_world
           200 refusal_body (RuntimeError "Model refusal: I cannot help with that.")).
  - reflexivity.
  - reflexivity.
  - reflexivity.
  - simpl. lia.
  - lia.
  - lia.
  - discriminate.
  - reflexivity.
  - intros k _. reflexivity.
Defined.

End ClientMore.

(** ** The turn engine: further properties *)

Module AgentMore.
Import Py PyFacts Env EnvFacts Json Client Legality Agent AgentFacts Sample.

Lemma norm_idem g : norm (norm g) = norm g.
Proof. unfold norm. by rewrite strip_upper, strip_idem, upper_idem. Qed.

(** *** X13: the parsed guesser output *)

Lemma clamp01_range c : (Q2Qc 0 ≤ clamp01 c)%Qc ∧ (clamp01 c ≤ Q2Qc 1)%Qc.
Proof.
  assert (H01 : (Q2Qc 0 ≤ Q2Qc 1)%Qc) by (by apply (bool_decide_unpack _)).
  unfold clamp01. destruct (decide (Q2Qc 1 < c)%Qc) as [H1|H1].
  - rewrite (bool_decide_eq_true_2 _ H1).
    rewrite (bool_decide_eq_true_2 (Q2Qc 0 < Q2Qc 1)%Qc) by (by apply (bool_decide_unpack _)).
    split; [done|apply Qcle_refl].
  - rewrite (bool_decide_eq_false_2 _ H1). apply Qcnot_lt_le in H1.
    destruct (decide (Q2Qc 0 < c)%Qc) as [H0|H0].
    + rewrite (bool_decide_eq_true_2 _ H0). split; [by apply Qclt_le_weak|done].
    + rewrite (bool_decide_eq_false_2 _ H0). split; [apply Qcle_refl|done].
Qed.

Section Parse.
Context `{PyBuiltins}.

Lemma parse_items_spec items :
  length (fst (parse_items items)) = length (snd (parse_items items))
  ∧ (length (fst (parse_items items)) ≤ length items)%nat
  ∧ Forall (λ g, g ≠ "" ∧ norm g = g) (fst (parse_items items))
  ∧ Forall (λ c, (Q2Qc 0 ≤ c)%Qc ∧ (c ≤ Q2Qc 1)%Qc) (snd (parse_items items)).
Proof.
  induction items as [|item items (IH1 & IH2 & IH3 & IH4)]; simpl.
  - split_and!; [done|lia|done|done].
  - destruct item; try (split_and!; [done|lia|done|done]).
    destruct (parse_items items) as [gs cs]. simpl in *.
    destruct (is_empty _) eqn:E; simpl; [split_and!; [done|lia|done|done]|].
    split_and!; [by rewrite IH1|lia| |].
    + constructor; [|done]. split; [by destruct (upper _)|apply norm_idem].
    + constructor; [apply clamp01_range|done].
Qed.

(** X13. [_parse_guesser_output] returns two lists of the same length, no
    longer than the "guesses" array: the guesses are non-empty and already in
    the form [apply_turn] normalises to (trimmed, uppercase), the confidences
    lie between 0 and 1. An object that is not a dict, a dict without
    "guesses", and a dict whose "guesses" is not a list each give two empty
    lists. *)
Theorem X13_parse_guesser_output (obj : json) :
  length (fst (_parse_guesser_output obj)) = length (snd (_parse_guesser_output obj))
  ∧ Forall (λ g, g ≠ "" ∧ norm g = g) (fst (_parse_guesser_output obj))
  ∧ Forall (λ c, (Q2Qc 0 ≤ c)%Qc ∧ (c ≤ Q2Qc 1)%Qc) (snd (_parse_guesser_output obj))
  ∧ (∀ d g, obj = JDict d → lookup_key "guesses" d = Some (JList g) →
       (length (fst (_parse_guesser_output obj)) ≤ length g)%nat)
  ∧ ((∀ d, obj ≠ JDict d) → _parse_guesser_output obj = ([], []))
  ∧ (∀ d, obj = JDict d → lookup_key "guesses" d = None →
       _parse_guesser_output obj = ([], []))
  ∧ (∀ d v, obj = JDict d → lookup_key "guesses" d = Some v → (∀ g, v ≠ JList g) →
       _parse_guesser_output obj = ([], [])).
Proof.
  assert (Hnotlist : ∀ d v, obj = JDict d → lookup_key "guesses" d = Some v →
            (∀ g, v ≠ JList g) → _parse_guesser_output obj = ([], [])).
  { intros d v -> Hv Hnl. unfold _parse_guesser_output, get. rewrite Hv.
    destruct v as [| | | | |g|]; try done. by destruct (Hnl g). }
  unfold _parse_guesser_output in *.
  assert (Hempty : ∀ o : json,
            length (@nil string) = length (@nil Qc)
            ∧ Forall (λ g, g ≠ "" ∧ norm g = g) []
            ∧ Forall (λ c, (Q2Qc 0 ≤ c)%Qc ∧ (c ≤ Q2Qc 1)%Qc) []).
  { intros _. split_and!; [done|constructor|constructor]. }
  destruct obj as [| | | | | |d];
    try (destruct (Hempty JNull) as (E1 & E2 & E3); split_and!;
         [exact E1|exact E2|exact E3|by intros ? ? ?|done|by intros ? ?
         |by intros ? ? ?]).
  unfold get in *. destruct (lookup_key "guesses" d) as [v|] eqn:E.
  - assert (Hd : ¬ ∀ d0, JDict d ≠ JDict d0) by (intros Hd; by apply (Hd d)).
    destruct v as [| | | | |g|];
      try (destruct (Hempty JNull) as (E1 & E2 & E3); split_and!;
           [exact E1|exact E2|exact E3|intros ? ? [= <-]; by rewrite E
           |intros Hd0; by destruct (Hd0 d)|done|exact Hnotlist]).
    destruct (parse_items_spec g) as (H1 & H2 & H3 & H4).
    split_and!; [done|done|done| | | |exact Hnotlist].
    + intros d0 g0 [= <-]. rewrite E. by intros [= <-].
    + intros Hd0. by destruct (Hd0 d).
    + intros d0 [= <-]. by rewrite E.
  - simpl. destruct (Hempty JNull) as (E1 & E2 & E3).
    split_and!; [exact E1|exact E2|exact E3| |done|done|exact Hnotlist].
    intros d0 g0 [= <-]. by rewrite E.
Qed.

End Parse.

(** *** X14 and X15: sanitised guesses *)

Lemma sanitize_loop_tidy ma gs : ∀ out seen,
  Forall tidy out → Forall tidy (sanitize_loop ma gs out seen).
Proof.
  induction gs as [|g gs IH]; intros out seen Hout; simpl; [done|].
  destruct (is_empty (upper (strip g))) eqn:He; simpl; [by apply IH|].
  case_bool_decide; simpl; [by apply IH|].
  assert (Hout' : Forall tidy (out ++ [upper (strip g)])).
  { apply Forall_app. split; [done|]. constructor; [|done]. split.
    - by destruct (upper (strip g)).
    - apply norm_idem. }
  destruct (ma <=? _); [done|by apply IH].
Qed.

Lemma sanitize_loop_sublist ma gs : ∀ out seen,
  ∃ k, sanitize_loop ma gs out seen = out ++ k ∧ k `sublist_of` (norm <$> gs).
Proof.
  induction gs as [|g gs IH]; intros out seen; simpl.
  - exists []. by rewrite app_nil_r.
  - destruct (is_empty (upper (strip g)) || bool_decide (upper (strip g) ∈ seen)).
    + destruct (IH out seen) as (k & -> & Hk). exists k. split; [done|].
      by apply sublist_cons.
    + destruct (ma <=? _).
      * exists [norm g]. split; [done|]. apply sublist_skip, sublist_nil_l.
      * destruct (IH (out ++ [upper (strip g)]) ({[upper (strip g)]} ∪ seen))
          as (k & -> & Hk).
        exists (norm g :: k). split; [by rewrite <- app_assoc|]. by apply sublist_skip.
Qed.

(** A tidy list without duplicates that fits the bound passes unchanged. *)
Lemma sanitize_loop_fixed ma l : ∀ out seen,
  Forall tidy l → NoDup (out ++ l) → (∀ x, x ∈ seen → x ∈ out) →
  (Z.of_nat (length (out ++ l)) ≤ ma ∨ (length l ≤ 1)%nat) →
  sanitize_loop ma l out seen = out ++ l.
Proof.
  induction l as [|g l IH]; intros out seen Ht Hnd Hseen Hlen; simpl.
  - by rewrite app_nil_r.
  - apply Forall_cons in Ht as [[Hne Hn] Ht]. fold (norm g). rewrite Hn.
    assert (He : is_empty g = false) by (by destruct g). rewrite He. simpl.
    assert (Hg : g ∉ seen).
    { intros Hin. apply Hseen in Hin. apply NoDup_app in Hnd as (_ & Hd & _).
      apply (Hd g Hin). by left. }
    rewrite (bool_decide_eq_false_2 _ Hg).
    destruct (ma <=? Z.of_nat (length (out ++ [g]))) eqn:Hle.
    + apply Z.leb_le in Hle. rewrite length_app in Hle. simpl in Hle.
      destruct l as [|g' l]; [done|]. exfalso.
      rewrite length_app in Hlen. simpl in Hlen. lia.
    + rewrite (cons_middle g out l), app_assoc. apply IH; try done.
      * by rewrite <- app_assoc.
      * intros x Hx. apply elem_of_union in Hx as [Hx|Hx].
        -- apply elem_of_singleton in Hx. subst. apply elem_of_app. right. by left.
        -- apply elem_of_app. left. by apply Hseen.
      * rewrite <- app_assoc. simpl. destruct Hlen as [Hlen|Hlen]; [by left|].
        right. simpl in Hlen. lia.
Qed.

Lemma sanitize_loop_short ma gs : ∀ out seen,
  Z.of_nat (length (sanitize_loop ma gs out seen))
  ≤ Z.max (Z.of_nat (length out) + 1) ma.
Proof.
  induction gs as [|g gs IH]; intros out seen; simpl; [lia|].
  destruct (is_empty (upper (strip g)) || bool_decide (upper (strip g) ∈ seen)); [apply IH|].
  destruct (ma <=? Z.of_nat (length (out ++ [upper (strip g)]))) eqn:Hle.
  - rewrite length_app. simpl. lia.
  - apply Z.leb_gt in Hle. specialize (IH (out ++ [upper (strip g)])
                                           ({[upper (strip g)]} ∪ seen)). lia.
Qed.

(** X15. The sanitised list is a subsequence of the trimmed, uppercased
    guesses (nothing is invented or reordered), and sanitising is idempotent:
    a sanitised list passes through [_sanitize_guesses] unchanged. *)
Theorem X15_sanitize_idempotent (raw : list string) (m : Z) :
  _sanitize_guesses raw m `sublist_of` (norm <$> raw)
  ∧ _sanitize_guesses (_sanitize_guesses raw m) m = _sanitize_guesses raw m.
Proof.
  unfold _sanitize_guesses. split.
  - destruct (sanitize_loop_sublist m raw [] ∅) as (k & -> & Hk). done.
  - destruct (AgentFacts.sanitize_loop_spec m raw [] ∅) as (_ & Hnd & Hlen);
      [constructor|constructor|intros x Hx; by apply not_elem_of_nil in Hx|].
    pose proof (sanitize_loop_short m raw [] ∅) as Hshort. simpl in Hlen, Hshort.
    apply (sanitize_loop_fixed m _ [] ∅).
    + apply sanitize_loop_tidy. constructor.
    + done.
    + intros x Hx. by apply not_elem_of_empty in Hx.
    + simpl. destruct (Z.le_gt_cases 1 m) as [Hm|Hm]; [left; apply Hlen; lia|right; lia].
Qed.

(** What stops a turn with invalid_or_repeat (as in X6), kept here for use
    with sanitised guesses. *)
Lemma invalid_cause s tm cl num gs enf s' o :
  apply_turn s tm cl num gs enf = (s', inr o) →
  stopped_reason o = invalid_or_repeat →
  ∃ g, gs !! length (applied o) = Some g
       ∧ (norm g = ""
          ∨ norm g ∈ word <$> applied o
          ∨ norm g ∉ words (board s)
          ∨ ∃ idx, index_of (norm g) (words (board s)) = Some idx
                   ∧ revealed s !! idx = Some true).
Proof.
  intros Hat Hinv.
  pose proof (RulesMore.revealed_outside_applied _ _ _ _ _ _ _ _ Hat) as Hout.
  pose proof (RulesMore.applied_prefix_facts _ _ _ _ _ _ _ _ Hat) as (_ & Htrue).
  apply RulesMore.apply_turn_endings in Hat as (l & Hloop & Hrev & _ & Happ & Hre & _).
  rewrite Hre in Hinv.
  assert (Hs0 : ∀ x, x ∈ l_seen (init_loop s) ↔ x ∈ word <$> l_applied (init_loop s)).
  { intros x. simpl. split; intros Hx.
    - by apply not_elem_of_empty in Hx.
    - by apply not_elem_of_nil in Hx. }
  destruct (RulesMore.loop_invalid _ _ _ _ _ _ (init_loop s) _ Hs0 eq_refl Hloop Hinv)
    as (k & g & Hk & Hlen & Hcause).
  simpl in Hlen. rewrite Happ, Hlen. exists g. split; [done|].
  destruct Hcause as [?|[?|[Hn|(idx & Hidx & Hr)]]]; [tauto|tauto| |].
  - right; right; left. by apply RulesMore.index_of_None.
  - destruct (decide (idx ∈ index <$> applied o)) as [Hin|Hnin].
    + right; left. apply list_elem_of_fmap in Hin as (a & -> & Ha).
      rewrite Forall_forall in Htrue. destruct (Htrue a Ha) as (_ & Hwa & _).
      apply RulesMore.index_of_lookup in Hidx. rewrite Hwa in Hidx. inversion Hidx as [Heq].
      rewrite <- Happ. apply list_elem_of_fmap. by exists a.
    + right; right; right. exists idx. split; [done|].
      rewrite <- (Hout idx Hnin). by rewrite Hrev.
Qed.

(** X14. Sanitised guesses meet [apply_turn] in the form it normalises to:
    the words of the applied guesses are the first sanitised guesses
    themselves, and a turn played on sanitised guesses is never stopped for an
    empty or repeated guess: when it stops with "invalid_or_repeat", the
    guess that stopped it is not a board word or was revealed before the
    turn. *)
Theorem X14_sanitized_in_turn (raw : list string) (m : Z) s tm cl num enf s' o :
  apply_turn s tm cl num (_sanitize_guesses raw m) enf = (s', inr o) →
  word <$> applied o = take (length (applied o)) (_sanitize_guesses raw m)
  ∧ (stopped_reason o = invalid_or_repeat →
     ∃ g, _sanitize_guesses raw m !! length (applied o) = Some g
          ∧ (g ∉ words (board s)
             ∨ ∃ idx, index_of g (words (board s)) = Some idx
                      ∧ revealed s !! idx = Some true)).
Proof.
  intros Hat.
  assert (Htidy : Forall tidy (_sanitize_guesses raw m)).
  { apply sanitize_loop_tidy. constructor. }
  assert (Hnd : NoDup (_sanitize_guesses raw m)).
  { destruct (AgentFacts.sanitize_loop_spec m raw [] ∅) as (_ & Hnd & _);
      [constructor|constructor|intros x Hx; by apply not_elem_of_nil in Hx|done]. }
  assert (Hfix : ∀ l, Forall tidy l → norm <$> l = l).
  { induction l as [|x l IHl]; intros Hl; [done|].
    apply Forall_cons in Hl as [[_ Hx] Hl]. by rewrite fmap_cons, Hx, IHl. }
  pose proof (RulesMore.applied_prefix_facts _ _ _ _ _ _ _ _ Hat) as (Hw & _).
  rewrite Hfix in Hw by (by apply Forall_take).
  split; [done|]. intros Hinv.
  destruct (invalid_cause _ _ _ _ _ _ _ _ Hat Hinv) as (g & Hg & Hcause).
  assert (Hgt : tidy g).
  { rewrite Forall_forall in Htidy. apply Htidy. by eapply list_elem_of_lookup_2. }
  destruct Hgt as [Hne Hn]. rewrite Hn in Hcause.
  exists g. split; [done|].
  destruct Hcause as [?|[Hrep|[?|?]]]; [done| |by left|by right].
  exfalso. rewrite Hw in Hrep.
  apply list_elem_of_lookup in Hrep as (i & Hi).
  pose proof (lookup_lt_Some _ _ _ Hi) as Hlt. rewrite length_take in Hlt.
  rewrite lookup_take_lt in Hi by lia.
  pose proof (NoDup_lookup _ _ _ _ Hnd Hi Hg). lia.
Qed.

Lemma X14_witness :
  apply_turn sample_state RED "FRUIT" 2 (_sanitize_guesses ["apple "; "Zzz"; "APPLE"] 3) true
  = (c3_state', inr x14_outcome)
  ∧ ∃ g, _sanitize_guesses ["apple "; "Zzz"; "APPLE"] 3 !! 1%nat = Some g
         ∧ g ∉ words (board sample_state).
Proof.
  assert (H : apply_turn sample_state RED "FRUIT" 2
                (_sanitize_guesses ["apple "; "Zzz"; "APPLE"] 3) true
              = (c3_state', inr x14_outcome)) by (vm_compute; reflexivity).
  split; [exact H|].
  destruct (X14_sanitized_in_turn _ _ _ _ _ _ _ _ _ H) as [_ Hc].
  destruct (Hc eq_refl) as (g & Hg & [Hn|(idx & Hidx & Hr)]).
  - exists g. split; [exact Hg|exact Hn].
  - exfalso. vm_compute in Hg. inversion Hg; subst g. vm_compute in Hidx. discriminate Hidx.
Defined.

(** *** X16 and X17: candidate generation and the fallback *)

Section Generation.
Context `{PyBuiltins} {W : Type}.
Variable create_json : Request → W → raises LLMResponse * W.
Variable self : TeamAgent.

Lemma spymaster_msgs_registered state tm :
  c_prompt_id (sp_llm (spymaster (cfg self))) ∈ _SPYMASTER_PROMPTS →
  spymaster_msgs self state tm
  = inr (SpymasterMessages (c_prompt_id (sp_llm (spymaster (cfg self))))
           (words (board state)) (key (board state)) (revealed state) tm).
Proof.
  intros Hreg. unfold spymaster_msgs, spymaster_messages.
  by rewrite (bool_decide_eq_true_2 _ Hreg).
Qed.

Lemma spymaster_msgs_unregistered state tm :
  c_prompt_id (sp_llm (spymaster (cfg self))) ∉ _SPYMASTER_PROMPTS →
  spymaster_msgs self state tm
  = inl (KeyError ("Unknown spymaster prompt_id: "
                   +:+ c_prompt_id (sp_llm (spymaster (cfg self))))).
Proof.
  intros Hreg. unfold spymaster_msgs, spymaster_messages.
  by rewrite (bool_decide_eq_false_2 _ Hreg).
Qed.

Lemma k_calls_returns m rq_of k : ∀ results rejected w,
  Forall generation_failure rejected →
  ∃ res rej w',
    k_calls create_json (inr m) rq_of k results rejected w = (inr (res, rej), w')
    ∧ (length res + length rej = length results + length rejected + k)%nat
    ∧ Forall generation_failure rej.
Proof.
  induction k as [|k IH]; intros results rejected w Hrej; simpl.
  - exists results, rejected, w. split; [done|]. split; [lia|done].
  - destruct (create_json (rq_of m) w) as [[e|resp] w1].
    + destruct (IH results (rejected ++ [RejectedCall "spymaster_call_failed" e]) w1)
        as (res & rej & w' & Heq & Hlen & Hall).
      { apply Forall_app. split; [done|]. constructor; [|done]. left. by exists e. }
      exists res, rej, w'. split; [done|]. rewrite length_app in Hlen. simpl in Hlen.
      split; [lia|done].
    + destruct (parsed resp) eqn:Hp;
        try (destruct (IH results (rejected ++ [RejectedRaw "spymaster_non_dict" (parsed resp)]) w1)
               as (res & rej & w' & Heq & Hlen & Hall);
             [apply Forall_app; split; [done|]; constructor; [|done]; right; by eexists
             |exists res, rej, w'; rewrite Hp in Heq; split; [done|];
              rewrite length_app in Hlen; simpl in Hlen; split; [lia|done]]).
      destruct (IH (results ++ [d]) rejected w1 Hrej) as (res & rej & w' & Heq & Hlen & Hall).
      exists res, rej, w'. split; [done|]. rewrite length_app in Hlen. simpl in Hlen.
      split; [lia|done].
Qed.

(** X16. With a registered spymaster prompt id and in the default mode (K
    separate calls), [_generate_candidates] never raises, whatever the client
    does: a failed call or a response that is not a dict becomes a rejection
    entry, and candidates and rejections together number
    K = max(1, candidates_per_turn). In the one-call mode a failure of the
    client's call is raised to the caller. With a prompt id that is not
    registered it raises KeyError in either mode, before any call is made:
    the messages are built outside the [try]. *)
Theorem X16_generate_candidates (state : GameState) (tm : Team) (w : W) :
  (c_prompt_id (sp_llm (spymaster (cfg self))) ∈ _SPYMASTER_PROMPTS →
   generation_mode (spymaster (cfg self)) ≠ "one_call_list" →
   ∃ res rej w',
     _generate_candidates create_json self state tm w = (inr (res, rej), w')
     ∧ Z.of_nat (length res + length rej)
       = Z.max 1 (candidates_per_turn (spymaster (cfg self)))
     ∧ Forall generation_failure rej)
  ∧ (c_prompt_id (sp_llm (spymaster (cfg self))) ∈ _SPYMASTER_PROMPTS →
     generation_mode (spymaster (cfg self)) = "one_call_list" →
     ∀ e w1,
       create_json
         (spymaster_request self
            (SpymasterMessages (c_prompt_id (sp_llm (spymaster (cfg self))))
               (words (board state)) (key (board state)) (revealed state) tm)
            "spymaster_candidates"
            (spymaster_list_schema (Z.max 1 (candidates_per_turn (spymaster (cfg self)))))
            (c_temperature (sp_llm (spymaster (cfg self))))
            (c_top_p (sp_llm (spymaster (cfg self))))) w = (inl e, w1) →
       _generate_candidates create_json self state tm w = (inl e, w1))
  ∧ (c_prompt_id (sp_llm (spymaster (cfg self))) ∉ _SPYMASTER_PROMPTS →
     _generate_candidates create_json self state tm w
     = (inl (KeyError ("Unknown spymaster prompt_id: "
                       +:+ c_prompt_id (sp_llm (spymaster (cfg self))))), w)).
Proof.
  unfold _generate_candidates. split_and!.
  - intros Hreg Hmode. apply String.eqb_neq in Hmode. rewrite Hmode.
    rewrite (spymaster_msgs_registered state tm Hreg).
    destruct (k_calls_returns
                (SpymasterMessages (c_prompt_id (sp_llm (spymaster (cfg self))))
                   (words (board state)) (key (board state)) (revealed state) tm)
                (fun msgs => spymaster_request self msgs "spymaster_clue"
                               spymaster_single_schema
                               (c_temperature (sp_llm (spymaster (cfg self))))
                               (c_top_p (sp_llm (spymaster (cfg self)))))
                (Z.to_nat (Z.max 1 (candidates_per_turn (spymaster (cfg self)))))
                [] [] w (Forall_nil_2 _)) as (res & rej & w' & Heq & Hlen & Hall).
    exists res, rej, w'. split; [done|]. split; [|done]. simpl in Hlen. lia.
  - intros Hreg Hmode e w1 Hcall. apply String.eqb_eq in Hmode. rewrite Hmode.
    rewrite (spymaster_msgs_registered state tm Hreg).
    unfold mbind, M_bind, bind, lift. by rewrite Hcall.
  - intros Hreg. rewrite (spymaster_msgs_unregistered state tm Hreg).
    destruct (String.eqb _ "one_call_list"); [done|].
    destruct (Z.to_nat (Z.max 1 (candidates_per_turn (spymaster (cfg self))))) eqn:HK;
      [lia|done].
Qed.

(** X17. With a registered spymaster prompt id [_fallback_candidate] never
    raises: it returns a candidate whose clue is a trimmed string and whose
    number is an integer, and when the client's call fails the candidate is
    the hardcoded clue MYSTERY with number 1. With a prompt id that is not
    registered it raises KeyError without calling the client: the messages
    are built before the [try]. *)
Theorem X17_fallback_candidate (state : GameState) (tm : Team) (w : W) :
  (c_prompt_id (sp_llm (spymaster (cfg self))) ∈ _SPYMASTER_PROMPTS →
   ∃ c w',
     _fallback_candidate create_json self state tm w = (inr c, w')
     ∧ (∃ cl n, d_clue c = JStr cl ∧ strip cl = cl ∧ d_number c = JInt n)
     ∧ (∀ e, fst (create_json
                    (spymaster_request self
                       (SpymasterMessages (c_prompt_id (sp_llm (spymaster (cfg self))))
                          (words (board state)) (key (board state)) (revealed state) tm)
                       "spymaster_clue" spymaster_single_schema
                       (if bool_decide (c_temperature (sp_llm (spymaster (cfg self)))
                                        < Q2Qc (1 # 5))%Qc
                        then c_temperature (sp_llm (spymaster (cfg self)))
                        else Q2Qc (1 # 5))
                       (Q2Qc 1)) w) = inl e →
             c = MYSTERY))
  ∧ (c_prompt_id (sp_llm (spymaster (cfg self))) ∉ _SPYMASTER_PROMPTS →
     _fallback_candidate create_json self state tm w
     = (inl (KeyError ("Unknown spymaster prompt_id: "
                       +:+ c_prompt_id (sp_llm (spymaster (cfg self))))), w)).
Proof.
  unfold _fallback_candidate. split.
  - intros Hreg. rewrite (spymaster_msgs_registered state tm Hreg).
    unfold try_except, mbind, M_bind, bind, lift.
    destruct (create_json _ w) as [[e|resp] w1] eqn:Hcall.
    + exists MYSTERY, w1. split; [done|]. split; [|done].
      exists "MYSTERY", 1. by split_and!.
    + destruct (py_int _) as [e|n] eqn:Hn.
      * exists MYSTERY, w1. split; [done|]. split; [|done].
        exists "MYSTERY", 1. by split_and!.
      * eexists _, w1. split; [reflexivity|]. split; [|by intros e].
        eexists _, n. simpl. split_and!; [done|apply strip_idem|done].
  - intros Hreg. by rewrite (spymaster_msgs_unregistered state tm Hreg).
Qed.

End Generation.

Lemma X16_witness :
  c_prompt_id (sp_llm (spymaster (cfg sample_agent))) ∈ _SPYMASTER_PROMPTS
  ∧ generation_mode (spymaster (cfg sample_agent)) ≠ "one_call_list"
  ∧ ∃ res rej w',
      _generate_candidates failing_client sample_agent sample_state RED 0%nat
      = (inr (res, rej), w')
      ∧ Z.of_nat (length res + length rej) = 2.
Proof.
  assert (Hreg : c_prompt_id (sp_llm (spymaster (cfg sample_agent))) ∈ _SPYMASTER_PROMPTS)
    by (by left).
  assert (Hm : generation_mode (spymaster (cfg sample_agent)) ≠ "one_call_list")
    by (vm_compute; discriminate).
  split; [exact Hreg|]. split; [exact Hm|].
  destruct (X16_generate_candidates failing_client sample_agent sample_state RED 0%nat)
    as [Hk _].
  destruct (Hk Hreg Hm) as (res & rej & w' & Heq & Hlen & _).
  exists res, rej, w'. split; [exact Heq|exact Hlen].
Defined.

Lemma X17_witness :
  c_prompt_id (sp_llm (spymaster (cfg sample_agent))) ∈ _SPYMASTER_PROMPTS
  ∧ ∃ c w',
      _fallback_candidate failing_client sample_agent sample_state RED 0%nat = (inr c, w')
      ∧ ∃ cl n, d_clue c = JStr cl ∧ strip cl = cl ∧ d_number c = JInt n.
Proof.
  assert (Hreg : c_prompt_id (sp_llm (spymaster (cfg sample_agent))) ∈ _SPYMASTER_PROMPTS)
    by (by left).
  split; [exact Hreg|].
  destruct (X17_fallback_candidate failing_client sample_agent sample_state RED 0%nat)
    as [Hk _].
  destruct (Hk Hreg) as (c & w' & Heq & Hc & _).
  exists c, w'. split; [exact Heq|exact Hc].
Defined.

(** *** X18 and X19: the evaluation of a candidate *)

Local Open Scope Qc_scope.

(** The mean of the examples, on one value. *)
Lemma sample_mean_singleton (u : Qc) : @mean sample_builtins [u] = u.
Proof.
  cbn [mean sample_builtins fold_left length]. rewrite Qcplus_0_l.
  change (Q2Qc (inject_Z (Z.of_nat 1))) with (Q2Qc 1). field. discriminate.
Qed.

(** The aggregates that do no arithmetic, on a single utility. *)
Lemma aggregate_singleton `{PyBuiltins} (u std_u lam : Qc) (agg : string) :
  agg = "mean" ∨ agg = "p10" →
  _aggregate_score u std_u [u] agg lam = u.
Proof. intros [-> | ->]; reflexivity. Qed.

(** X19. With the aggregate "p10" the selection score is one of the
    utilities, and for up to ten rollouts it is the least of them. *)
Theorem X19_p10_is_minimum `{PyBuiltins} (mean_u std_u lam : Qc) (us : list Qc) :
  us ≠ [] →
  _aggregate_score mean_u std_u us "p10" lam ∈ us
  ∧ ((length us ≤ 10)%nat →
     ∀ u, u ∈ us → _aggregate_score mean_u std_u us "p10" lam ≤ u).
Proof.
  intros Hne. unfold _aggregate_score. cbn [String.eqb Ascii.eqb Bool.eqb].
  destruct us as [|u0 us]; [done|].
  set (l := merge_sort Qcle (u0 :: us)).
  assert (Hperm : l ≡ₚ u0 :: us) by apply merge_sort_Permutation.
  assert (Hsorted : StronglySorted Qcle l) by apply (StronglySorted_merge_sort _).
  assert (Hlen : length l = S (length us)) by (by rewrite Hperm).
  cbv zeta. rewrite Hlen.
  destruct (lookup_lt_is_Some_2 l (Z.to_nat ((Z.of_nat (S (length us)) - 1) / 10)))
    as [x Hx].
  { rewrite Hlen. apply Nat2Z.inj_lt. rewrite Z2Nat.id by (apply Z.div_pos; lia).
    apply Z.div_lt_upper_bound; lia. }
  rewrite Hx. cbn [default from_option]. split.
  - rewrite <- Hperm. by eapply list_elem_of_lookup_2.
  - intros Hle u Hu. cbn [length] in Hle.
    assert (Hidx : Z.to_nat ((Z.of_nat (S (length us)) - 1) / 10) = 0%nat).
    { rewrite Z.div_small by lia. done. }
    rewrite Hidx in Hx. destruct l as [|y l']; [done|]. injection Hx as ->.
    rewrite <- Hperm in Hu. apply StronglySorted_inv in Hsorted as [_ Hall].
    apply elem_of_cons in Hu as [->|Hu]; [apply Qcle_refl|].
    rewrite Forall_forall in Hall. by apply Hall.
Qed.

Lemma X19_witness :
  [Q2Qc 1; Q2Qc (-10); Q2Qc 2] ≠ []
  ∧ _aggregate_score (Q2Qc 0) (Q2Qc 0) [Q2Qc 1; Q2Qc (-10); Q2Qc 2] "p10" (Q2Qc 0)
    ≤ Q2Qc (-10).
Proof.
  assert (Hne : [Q2Qc 1; Q2Qc (-10); Q2Qc 2] ≠ []) by discriminate.
  split; [exact Hne|].
  apply (X19_p10_is_minimum (Q2Qc 0) (Q2Qc 0) (Q2Qc 0) _ Hne).
  - simpl. lia.
  - right. left.
Defined.

Section Evaluation.
Context `{PyBuiltins} {W : Type}.
Variable create_json : Request → W → raises LLMResponse * W.
Variable self : TeamAgent.

Lemma rollouts_spec state tm cand g : ∀ samples w out w',
  rollouts create_json self state tm cand g samples w = (inr out, w') →
  ∃ new, out = samples ++ new ∧ length new = g
         ∧ Forall (rollout_of (selection_weights self) state tm cand) new.
Proof.
  induction g as [|g IH]; intros samples w out w' Hrun; cbn [rollouts] in Hrun.
  - apply ret_inr in Hrun as [-> _]. exists []. by rewrite app_nil_r.
  - unfold mbind, M_bind in Hrun.
    apply bind_inr in Hrun as (msgs & w0 & _ & Hrun).
    apply bind_inr in Hrun as (resp & w1 & _ & Hrun).
    destruct (guesses_of _ _ _) as [gs cf].
    destruct (apply_turn _ _ _ _ _ _) as [sim [e|o]] eqn:Hat; [done|].
    apply IH in Hrun as (new & -> & Hlen & Hall).
    eexists (_ :: new). rewrite <- app_assoc. split; [reflexivity|].
    split; [simpl; by rewrite Hlen|].
    constructor; [|done]. split; [by exists sim|done].
Qed.

(** X18. An evaluation that [_evaluate_candidate] returns is of the candidate
    given; it holds G = max(1, eval_samples_per_candidate) samples, each the
    outcome of [apply_turn] on a copy of the state with the utility of that
    outcome; its mean is [statistics.mean] of the samples' utilities. With a
    single rollout the standard deviation is 0; the mean is that rollout's
    utility, [statistics.mean] of one value being that value; and with the
    aggregates "mean" and "p10", which do no arithmetic, the selection score
    is that utility too. *)
Theorem X18_evaluate_candidate (state : GameState) (tm : Team) (cand : Candidate)
    (w : W) (ev : CandidateEvaluation) (w' : W) :
  _evaluate_candidate create_json self state tm cand w = (inr ev, w') →
  candidate ev = cand
  ∧ Z.of_nat (length (samples ev))
    = Z.max 1 (eval_samples_per_candidate (selection (cfg self)))
  ∧ Forall (rollout_of (selection_weights self) state tm cand) (samples ev)
  ∧ mean_utility ev = mean (s_utility <$> samples ev)
  ∧ ((eval_samples_per_candidate (selection (cfg self)) ≤ 1)%Z →
     ∃ s, samples ev = [s] ∧ std_utility ev = Q2Qc 0
          ∧ (mean [s_utility s] = s_utility s →
             mean_utility ev = s_utility s
             ∧ (aggregate (selection (cfg self)) = "mean"
                ∨ aggregate (selection (cfg self)) = "p10" →
                selection_score ev = s_utility s))).
Proof.
  unfold _evaluate_candidate, mbind, M_bind. intros Hrun.
  apply bind_inr in Hrun as (ss & w1 & Hroll & Hrun).
  apply ret_inr in Hrun as [-> _]. cbn [candidate samples mean_utility std_utility
                                        selection_score].
  apply rollouts_spec in Hroll as (new & -> & Hlen & Hall). rewrite app_nil_l.
  assert (Hpos : (0 < length new)%nat) by lia.
  split; [done|]. split; [lia|]. split; [done|]. split.
  - destruct new as [|s new]; [simpl in Hpos; lia|done].
  - intros HG. rewrite Z.max_l in Hlen by done.
    destruct new as [|s [|s2 new]]; [done| |done].
    exists s. cbn [fmap list_fmap length Nat.ltb Nat.leb].
    split; [done|]. split; [done|]. intros Hmean. rewrite Hmean.
    split; [done|]. apply aggregate_singleton.
Qed.

End Evaluation.

Lemma X18_witness :
  ∃ ev w',
    _evaluate_candidate helpful_client sample_agent sample_state RED
      (mkCandidate "fruit" 2 JNull JNull JNull) 0%nat = (inr ev, w')
    ∧ candidate ev = mkCandidate "fruit" 2 JNull JNull JNull
    ∧ ∃ s, samples ev = [s] ∧ std_utility ev = Q2Qc 0 ∧ mean_utility ev = s_utility s.
Proof.
  destruct (_evaluate_candidate helpful_client sample_agent sample_state RED
              (mkCandidate "fruit" 2 JNull JNull JNull) 0%nat)
    as [[e|ev] w'] eqn:Hrun.
  - vm_compute in Hrun. discriminate Hrun.
  - exists ev, w'. split; [reflexivity|].
    destruct (X18_evaluate_candidate helpful_client sample_agent sample_state RED
                _ 0%nat ev w' Hrun) as (Hc & _ & _ & _ & Hone).
    split; [exact Hc|].
    destruct Hone as (s & Hs & Hstd & Hmean); [vm_compute; discriminate|].
    exists s. split; [exact Hs|]. split; [exact Hstd|].
    exact (proj1 (Hmean (sample_mean_singleton _))).
Defined.

(** *** X20: what [take_turn] returns and logs *)

Section TakeTurn.
Context `{PyBuiltins} {W : Type}.
Variable create_json : Request → W → raises LLMResponse * W.
Variable self : TeamAgent.

Lemma filter_legal_clues_length bw cs : ∀ legal rejected,
  filter_legal_clues cs bw = (legal, rejected) → (length legal ≤ length cs)%nat.
Proof.
  induction cs as [|c cs IH]; simpl; intros legal rejected.
  - by intros [= <- <-].
  - destruct (filter_legal_clues cs bw) as [lg rj]. specialize (IH lg rj eq_refl).
    destruct (is_legal_clue _ bw) as [[|] reason]; intros [= <- <-]; simpl; lia.
Qed.

Lemma filter_numbers_range rem legal : ∀ final rejected,
  filter_numbers rem legal = (final, rejected) →
  (length final ≤ length legal)%nat
  ∧ ∀ c, c ∈ final →
      ∃ n, py_int (d_number c) = inr n ∧ (1 ≤ n ≤ Z.min 9 (Z.of_nat rem))%Z.
Proof.
  induction legal as [|c legal IH]; simpl; intros final rejected.
  - intros [= <- <-]. split; [done|]. intros x Hx. by apply not_elem_of_nil in Hx.
  - destruct (filter_numbers rem legal) as [fl rj].
    destruct (IH fl rj eq_refl) as [Hlen Hin].
    destruct (py_int (d_number c)) as [e|n] eqn:Hn;
      [intros [= <- <-]; split; [lia|done]|].
    destruct (n <? 1)%Z eqn:Hlo; [intros [= <- <-]; split; [lia|done]|].
    destruct (Z.min 9 (Z.of_nat rem) <? n)%Z eqn:Hhi; intros [= <- <-].
    + split; [lia|done].
    + split; [simpl; lia|]. intros x Hx.
      apply elem_of_cons in Hx as [->|Hx]; [|by apply Hin].
      exists n. split; [done|]. apply Z.ltb_ge in Hlo, Hhi. lia.
Qed.

Lemma evaluate_all_numbers state tm cs : ∀ w evs w',
  evaluate_all create_json self state tm cs w = (inr evs, w') →
  length evs = length cs
  ∧ Forall (λ ev, ∃ c, c ∈ cs ∧ py_int (d_number c) = inr (cand_number (candidate ev)))
           evs.
Proof.
  induction cs as [|c cs IH]; simpl; intros w evs w' Hrun.
  - apply ret_inr in Hrun as [-> _]. by split.
  - unfold mbind, M_bind in Hrun.
    apply bind_inr in Hrun as (num & w1 & Hnum & Hrun).
    apply lift_inr in Hnum as [Hnum ->].
    apply bind_inr in Hrun as (ev & w2 & Hev & Hrun).
    apply bind_inr in Hrun as (evs' & w3 & Hevs & Hrun).
    apply ret_inr in Hrun as [-> _].
    apply evaluate_candidate_of in Hev. apply IH in Hevs as [Hlen Hall].
    split; [simpl; by rewrite Hlen|]. constructor.
    + exists c. split; [by left|]. by rewrite Hev.
    + eapply Forall_impl; [exact Hall|].
      intros ev' (c' & Hc' & Heq). exists c'. split; [by right|done].
Qed.

Lemma slice_to_length {A : Type} (n : Z) (l : list A) :
  (length (slice_to n l) ≤ length l)%nat.
Proof. unfold slice_to. destruct (0 <=? n)%Z; rewrite length_take; lia. Qed.

(** The turn that [take_turn] plays and logs. *)
Lemma take_turn_applies state tm w state' cl num gs log w' :
  take_turn create_json self state tm w = (inr (state', (cl, num, gs, log)), w') →
  apply_turn state tm cl num gs true = (state', inr (actual_outcome log))
  ∧ tl_team log = tm.
Proof.
  unfold take_turn, mbind, M_bind. intros Hrun.
  apply bind_inr in Hrun as ([raw rejg] & w1 & _ & Hrun).
  destruct (filter_legal_clues _ _) as [legal rejl].
  destruct (filter_numbers _ legal) as [fl0 rejn].
  apply bind_inr in Hrun as ([fl rej] & w2 & _ & Hrun).
  apply bind_inr in Hrun as (evals & w3 & _ & Hrun).
  apply bind_inr in Hrun as (best & w4 & _ & Hrun).
  apply bind_inr in Hrun as (msgs & w4' & _ & Hrun).
  apply bind_inr in Hrun as (resp & w5 & _ & Hrun).
  destruct (guesses_of _ _ _) as [gs0 cf].
  destruct (apply_turn _ _ _ _ _ _) as [st1 [e|o]] eqn:Hat; [done|].
  apply ret_inr in Hrun as [Heq _]. inversion Heq; subst; clear Heq. done.
Qed.

(** X20. When [take_turn] returns, the state it leaves is the state given
    after one [apply_turn] of the returned clue, number and guesses, and the
    logged outcome is the outcome of that call; the log repeats the team, the
    guesses and the chosen clue and number; at least one candidate was
    evaluated and no more than were legal. When the fallback was not used, the
    clue is not a word of the board, the number lies between 1 and
    min(9, remaining cards of the team), and the legal candidates are no more
    than the generated ones. *)
Theorem X20_take_turn_log (state : GameState) (tm : Team) (w : W)
    (state' : GameState) (cl : string) (num : Z) (gs : list string) (log : TurnLog)
    (w' : W) :
  take_turn create_json self state tm w = (inr (state', (cl, num, gs, log)), w') →
  apply_turn state tm cl num gs true = (state', inr (actual_outcome log))
  ∧ actual_guesses log = gs ∧ tl_team log = tm
  ∧ ch_clue (chosen log) = cl ∧ ch_number (chosen log) = num
  ∧ (1 ≤ length (candidate_evaluations log) ≤ legal_candidates log)%nat
  ∧ ((∀ fb, FallbackUsed fb ∉ rejected_candidates log) →
     (cl ∉ words (board state))
     ∧ (1 ≤ num ≤ Z.min 9 (Z.of_nat (remaining state tm)))%Z
     ∧ (legal_candidates log ≤ generated_candidates log)%nat).
Proof.
  intros Hrun. pose proof (played_clue_off_board create_json self _ _ _ _ _ _ _ _ _ Hrun) as Hoff.
  unfold take_turn, mbind, M_bind in Hrun.
  apply bind_inr in Hrun as ([raw rejg] & w1 & _ & Hrun).
  destruct (filter_legal_clues _ _) as [legal rejl] eqn:Hlegal.
  destruct (filter_numbers _ legal) as [fl0 rejn] eqn:Hnum.
  apply bind_inr in Hrun as ([fl rej] & w2 & Hfl & Hrun).
  apply bind_inr in Hrun as (evals & w3 & Hevals & Hrun).
  apply bind_inr in Hrun as (best & w4 & Hbest & Hrun).
  apply lift_inr in Hbest as [Hbest ->].
  apply bind_inr in Hrun as (msgs & w4' & _ & Hrun).
  apply bind_inr in Hrun as (resp & w5 & _ & Hrun).
  destruct (guesses_of _ _ _) as [gs0 cf].
  destruct (apply_turn _ _ _ _ _ _) as [st1 [e|o]] eqn:Hat; [done|].
  apply ret_inr in Hrun as [Heq _]. inversion Heq; subst; clear Heq.
  cbn [actual_outcome actual_guesses tl_team chosen ch_clue ch_number
       candidate_evaluations legal_candidates rejected_candidates
       generated_candidates] in *.
  apply pick_best_elem in Hbest.
  apply evaluate_all_numbers in Hevals as [Hlen Hall].
  pose proof (slice_to_length
                match max_eval_candidates (selection (cfg self)) with
                | Some n => if (n =? 0)%Z then Z.of_nat (length fl) else n
                | None => Z.of_nat (length fl)
                end fl) as Hslice.
  split_and!; try done.
  - destruct evals; [by apply not_elem_of_nil in Hbest|simpl; lia].
  - lia.
  - intros Hnofb. split; [by apply Hoff|].
    destruct fl0 as [|c0 fl0].
    + apply bind_inr in Hfl as (fb & w6 & _ & Hfl).
      apply ret_inr in Hfl as [[= -> ->] _].
      exfalso. apply (Hnofb fb). apply elem_of_app. right. by left.
    + apply ret_inr in Hfl as [[= -> ->] _].
      apply filter_numbers_range in Hnum as [Hlen2 Hrange].
      apply filter_legal_clues_length in Hlegal. rewrite length_fmap in Hlegal.
      split; [|lia].
      rewrite Forall_forall in Hall.
      destruct (Hall _ Hbest) as (c & Hc & Hn). apply slice_to_subset in Hc.
      destruct (Hrange _ Hc) as (n & Hn' & Hr).
      rewrite Hn in Hn'. by injection Hn' as ->.
Qed.

End TakeTurn.

Lemma X20_witness :
  ∃ state' num gs log calls,
    take_turn helpful_client sample_agent sample_state RED 0%nat
    = (inr (state', ("fruit", num, gs, log)), calls)
    ∧ apply_turn sample_state RED "fruit" num gs true
      = (state', inr (actual_outcome log))
    ∧ (1 ≤ num ≤ 9)%Z.
Proof.
  destruct (take_turn helpful_client sample_agent sample_state RED 0%nat)
    as [[e|[state' [[[cl num] gs] log]]] calls] eqn:Hrun.
  - vm_compute in Hrun. discriminate Hrun.
  - assert (Hcl : cl = "fruit") by (vm_compute in Hrun; by inversion Hrun).
    subst cl. exists state', num, gs, log, calls. split; [reflexivity|].
    destruct (X20_take_turn_log helpful_client sample_agent sample_state RED 0%nat
                state' "fruit" num gs log calls Hrun) as (Hat & _ & _ & _ & _ & _ & Hno).
    split; [exact Hat|].
    assert (Hnofb : ∀ fb, FallbackUsed fb ∉ rejected_candidates log).
    { intros fb Hin. vm_compute in Hrun. inversion Hrun; subst.
      by apply not_elem_of_nil in Hin. }
    destruct (Hno Hnofb) as (_ & [Hlo Hhi] & _).
    split; [exact Hlo|]. etrans; [exact Hhi|]. apply Z.le_min_l.
Defined.

(** *** X21: the utility of a turn *)

Lemma count_succ (n : nat) :
  Q2Qc (inject_Z (Z.of_nat (S n))) = Q2Qc (inject_Z (Z.of_nat n)) + Q2Qc 1.
Proof.
  apply Qc_is_canon. unfold Qcplus, Q2Qc. cbn [this]. rewrite !Qred_correct.
  unfold Qeq, Qplus, inject_Z. cbn [Qnum Qden]. lia.
Qed.

(** A run of the team's own cards adds [w_correct] once per card. *)
Lemma utility_own_cards (o : TurnOutcome) (ws : option Weights) :
  Forall (λ a, card_type a = card_of_team (team o)) (applied o) →
  turn_utility o ws
  = Q2Qc (inject_Z (Z.of_nat (length (applied o))))
    * w_correct (default DEFAULT_WEIGHTS ws).
Proof.
  unfold turn_utility. generalize (applied o). intros l.
  induction l as [|a l IH] using rev_ind; intros Hall.
  - cbn [fold_left length]. change (Q2Qc (inject_Z (Z.of_nat 0))) with (Q2Qc 0). ring.
  - apply Forall_app in Hall as [Hl Ha]. apply Forall_cons in Ha as [Ha _].
    rewrite fold_left_app. cbn [fold_left]. rewrite (IH Hl).
    rewrite (bool_decide_eq_true_2 _ Ha).
    rewrite length_app. cbn [length]. rewrite Nat.add_1_r, count_succ. ring.
Qed.

(** The team's own cards, then one card of another kind. *)
Lemma utility_last_card (o : TurnOutcome) (ws : option Weights)
    (pre : list AppliedGuess) (a : AppliedGuess) :
  applied o = pre ++ [a] →
  Forall (λ x, card_type x = card_of_team (team o)) pre →
  card_type a ≠ card_of_team (team o) →
  turn_utility o ws
  = Q2Qc (inject_Z (Z.of_nat (length pre))) * w_correct (default DEFAULT_WEIGHTS ws)
    + (if bool_decide (card_type a = ASSASSIN)
       then w_assassin (default DEFAULT_WEIGHTS ws)
       else if bool_decide (card_type a = NEUTRAL)
            then w_neutral (default DEFAULT_WEIGHTS ws)
            else w_opponent (default DEFAULT_WEIGHTS ws)).
Proof.
  intros Happ Hpre Ha.
  pose proof (utility_own_cards
                (mkOutcome (team o) (clue o) (number o) (max_allowed o) (guesses o) pre
                           (stopped_reason o) (game_over o) (winner o) (loser o))
                ws Hpre) as Hown.
  unfold turn_utility in *. cbn [applied team] in Hown.
  rewrite Happ, fold_left_app. cbn [fold_left]. rewrite Hown.
  rewrite (bool_decide_eq_false_2 _ Ha).
  destruct (card_type a) eqn:Hc; try reflexivity.
Qed.

(** X21. With the default weights the utility of a turn is fixed by the
    number of applied guesses and the way the turn stopped: a turn that
    stopped with "stop", "limit" or "invalid_or_repeat" scores one point per
    applied guess; a turn that hit the assassin scores one point per earlier
    guess and -10; a turn that ended on a wrong card scores one point per
    earlier guess and -0.3 for a neutral card, -1 for a card of the opponent. *)
Theorem X21_default_utility (s : GameState) (tm : Team) (cl : string) (num : Z)
    (gs : list string) (enf : bool) (s' : GameState) (o : TurnOutcome) :
  apply_turn s tm cl num gs enf = (s', inr o) →
  match stopped_reason o with
  | assassin =>
      turn_utility o None
      = Q2Qc (inject_Z (Z.of_nat (length (applied o)))) - Q2Qc 1 + Q2Qc (-10)
  | wrong =>
      ∃ a, last (applied o) = Some a
           ∧ turn_utility o None
             = Q2Qc (inject_Z (Z.of_nat (length (applied o)))) - Q2Qc 1
               + (if bool_decide (card_type a = NEUTRAL)
                  then Q2Qc (-3 # 10) else Q2Qc (-1))
  | stop | limit | invalid_or_repeat =>
      turn_utility o None = Q2Qc (inject_Z (Z.of_nat (length (applied o))))
  end.
Proof.
  intros Hat. apply apply_turn_inr in Hat as (l & Hloop & _ & ->).
  cbn [stopped_reason applied].
  destruct (RulesMore.loop_endings _ _ _ _ _ _ (init_loop s) _ eq_refl eq_refl eq_refl
              eq_refl (Forall_nil_2 _) Hloop)
    as [(Hre & Hall & _)|(pre & a & Happ & Hpre & [(Hre & Hc & _)|(Hre & Hna & Hnt & _)])].
  - assert (Hu : turn_utility
                   (mkOutcome tm cl num (Z.max 0 (num + 1)) gs (l_applied l) (l_reason l)
                              (l_game_over l) (l_winner l) (l_loser l)) None
                 = Q2Qc (inject_Z (Z.of_nat (length (l_applied l))))).
    { rewrite utility_own_cards by done. cbn [applied default from_option
                                              DEFAULT_WEIGHTS w_correct]. ring. }
    destruct Hre as [Hre | [Hre | Hre]]; rewrite Hre; exact Hu.
  - rewrite Hre.
    rewrite (utility_last_card _ None pre a) by
      (try done; cbn [team]; rewrite Hc; apply not_eq_sym, card_of_team_not_assassin).
    rewrite (bool_decide_eq_true_2 _ Hc).
    rewrite Happ, length_app. cbn [length]. rewrite Nat.add_1_r, count_succ.
    cbn [default from_option DEFAULT_WEIGHTS w_correct w_assassin]. ring.
  - rewrite Hre. exists a. split; [rewrite Happ; apply last_snoc|].
    rewrite (utility_last_card _ None pre a) by done.
    rewrite (bool_decide_eq_false_2 _ Hna).
    rewrite Happ, length_app. cbn [length]. rewrite Nat.add_1_r, count_succ.
    cbn [default from_option DEFAULT_WEIGHTS w_correct w_neutral w_opponent].
    case_bool_decide; ring.
Qed.

Lemma X21_witness :
  apply_turn sample_state RED "FRUIT" 2 ["apple "; "river"; "CAT"] true
  = (c4_state', inr c4_outcome)
  ∧ ∃ a, last (applied c4_outcome) = Some a
         ∧ turn_utility c4_outcome None
           = Q2Qc (inject_Z (Z.of_nat (length (applied c4_outcome)))) - Q2Qc 1
             + (if bool_decide (card_type a = NEUTRAL)
                then Q2Qc (-3 # 10) else Q2Qc (-1)).
Proof.
  assert (H : apply_turn sample_state RED "FRUIT" 2 ["apple "; "river"; "CAT"] true
              = (c4_state', inr c4_outcome)) by (vm_compute; reflexivity).
  split; [exact H|].
  exact (X21_default_utility _ _ _ _ _ _ _ _ H).
Defined.

End AgentMore.

(** ** Word lists and board generation *)

Module BoardsMore.
Import Py PyFacts Env EnvFacts Boards AgentFacts Sample.

(** *** X27: the word list *)

Lemma keep_words_spec lines w :
  w ∈ keep_words lines
  ↔ ∃ line, line ∈ lines ∧ w = upper (strip line) ∧ strip line ≠ ""
            ∧ starts_with_hash (strip line) = false ∧ has_blank w = false.
Proof.
  induction lines as [|line lines IH]; cbn [keep_words].
  - split; [by intros ?%not_elem_of_nil|]. intros (l & Hl & _). by apply not_elem_of_nil in Hl.
  - destruct (is_empty (strip line)) eqn:He; cbn [orb].
    { rewrite IH. split; intros (l & Hl & Hrest).
      - exists l. split; [by right|done].
      - apply elem_of_cons in Hl as [->|Hl]; [|by exists l].
        destruct Hrest as (_ & Hne & _). by destruct (strip line). }
    destruct (starts_with_hash (strip line)) eqn:Hh.
    { rewrite IH. split; intros (l & Hl & Hrest).
      - exists l. split; [by right|done].
      - apply elem_of_cons in Hl as [->|Hl]; [|by exists l].
        destruct Hrest as (_ & _ & Hh' & _). congruence. }
    destruct (has_blank (upper (strip line))) eqn:Hb.
    { rewrite IH. split; intros (l & Hl & Hrest).
      - exists l. split; [by right|done].
      - apply elem_of_cons in Hl as [->|Hl]; [|by exists l].
        destruct Hrest as (-> & _ & _ & Hb'). congruence. }
    rewrite elem_of_cons, IH. split.
    + intros [->|(l & Hl & Hrest)].
      * exists line. split; [by left|]. split_and!; try done. by destruct (strip line).
      * exists l. split; [by right|done].
    + intros (l & Hl & Hrest). apply elem_of_cons in Hl as [->|Hl].
      * left. by destruct Hrest as (-> & _).
      * right. by exists l.
Qed.

Lemma fromkeys_spec ws : ∀ seen,
  NoDup (fromkeys ws seen)
  ∧ (∀ x, x ∈ fromkeys ws seen ↔ x ∈ ws ∧ x ∉ seen)
  ∧ fromkeys ws seen `sublist_of` ws.
Proof.
  induction ws as [|w ws IH]; intros seen; cbn [fromkeys].
  - split; [constructor|]. split; [|done].
    intros x. split; [by intros ?%not_elem_of_nil|]. by intros [?%not_elem_of_nil _].
  - case_bool_decide as Hw.
    + destruct (IH seen) as (Hnd & Hin & Hsub). split; [done|]. split.
      * intros x. rewrite Hin, elem_of_cons. split; [intros [? ?]; by split; [right|]|].
        intros [[->|Hx] Hs]; [done|by split].
      * by apply sublist_cons.
    + destruct (IH (w :: seen)) as (Hnd & Hin & Hsub). split; [|split].
      * constructor; [|done]. rewrite Hin. intros [_ Hs]. apply Hs. by left.
      * intros x. rewrite !elem_of_cons, Hin, not_elem_of_cons. split.
        -- intros [->|(Hx & Hne & Hs)]; [by split; [left|]|by split; [right|]].
        -- intros [[->|Hx] Hs]; [by left|].
           destruct (decide (x = w)) as [->|Hne]; [by left|right; by split_and!].
      * by apply sublist_skip.
Qed.

Lemma starts_with_hash_upper s : starts_with_hash (upper s) = starts_with_hash s.
Proof.
  destruct s as [|c s]; [done|]. cbn [upper starts_with_hash]. by_cases_on_char c.
Qed.

(** A kept word is not the normal form of a dropped line. *)
Lemma kept_not_dropped lines line w :
  w ∈ keep_words lines →
  is_empty (strip line) || starts_with_hash (strip line) || has_blank (upper (strip line))
  = true →
  w ≠ upper (strip line).
Proof.
  intros Hw Hdrop ->. apply keep_words_spec in Hw as (l & _ & Heq & Hne & Hh & Hb).
  rewrite Hb, orb_false_r in Hdrop. apply orb_true_iff in Hdrop as [He|Hh'].
  - apply Hne. destruct (strip line); [|done]. by destruct (strip l).
  - rewrite <- starts_with_hash_upper, Heq, starts_with_hash_upper in Hh'. congruence.
Qed.

Lemma index_of_cons_ne w n l :
  w ≠ n → index_of w (n :: l) = S <$> index_of w l.
Proof. intros Hne. cbn [index_of]. apply String.eqb_neq in Hne. by rewrite Hne. Qed.

Lemma index_of_elem w l : w ∈ l → ∃ a, index_of w l = Some a.
Proof.
  intros Hw. destruct (index_of w l) as [a|] eqn:E; [by exists a|].
  by apply RulesMore.index_of_None in E.
Qed.

(** The words come in the order in which the lines first show them. *)
Lemma load_order lines : ∀ seen (i j : nat) w1 w2,
  fromkeys (keep_words lines) seen !! i = Some w1 →
  fromkeys (keep_words lines) seen !! j = Some w2 →
  (i < j)%nat →
  ∃ a b, index_of w1 (upper ∘ strip <$> lines) = Some a
         ∧ index_of w2 (upper ∘ strip <$> lines) = Some b ∧ (a < b)%nat.
Proof.
  induction lines as [|line lines IH]; intros seen i j w1 w2 H1 H2 Hij; [done|].
  assert (Hshift : ∀ seen',
            fromkeys (keep_words lines) seen' !! i = Some w1 →
            fromkeys (keep_words lines) seen' !! j = Some w2 →
            w1 ≠ upper (strip line) → w2 ≠ upper (strip line) →
            ∃ a b, index_of w1 (upper ∘ strip <$> line :: lines) = Some a
                   ∧ index_of w2 (upper ∘ strip <$> line :: lines) = Some b
                   ∧ (a < b)%nat).
  { intros seen' H1' H2' Hn1 Hn2.
    destruct (IH seen' i j w1 w2 H1' H2' Hij) as (a & b & Ha & Hb & Hab).
    exists (S a), (S b). rewrite fmap_cons. cbn [compose].
    rewrite !index_of_cons_ne, Ha, Hb by done. split; [done|]. split; [done|lia]. }
  assert (Hin : ∀ seen' (k : nat) w, fromkeys (keep_words lines) seen' !! k = Some w →
                  w ∈ keep_words lines ∧ w ∉ seen').
  { intros seen' k w Hk. apply list_elem_of_lookup_2 in Hk.
    by apply (fromkeys_spec (keep_words lines) seen') in Hk. }
  cbn [keep_words] in H1, H2.
  destruct (is_empty (strip line) || starts_with_hash (strip line)) eqn:Hd1.
  { apply (Hshift seen); try done.
    - apply (kept_not_dropped lines); [by apply (Hin seen i)|]. by rewrite Hd1.
    - apply (kept_not_dropped lines); [by apply (Hin seen j)|]. by rewrite Hd1. }
  destruct (has_blank (upper (strip line))) eqn:Hd2.
  { apply (Hshift seen); try done.
    - apply (kept_not_dropped lines); [by apply (Hin seen i)|]. by rewrite Hd1, Hd2.
    - apply (kept_not_dropped lines); [by apply (Hin seen j)|]. by rewrite Hd1, Hd2. }
  cbn [fromkeys] in H1, H2. case_bool_decide as Hseen.
  { apply (Hshift seen); try done.
    - intros ->. by apply (Hin seen i) in H1 as [_ ?].
    - intros ->. by apply (Hin seen j) in H2 as [_ ?]. }
  destruct j as [|j]; [lia|]. cbn [lookup list_lookup] in H2.
  assert (Hn2 : w2 ≠ upper (strip line)).
  { intros ->. apply (Hin _ j) in H2 as [_ Hn]. apply Hn. by left. }
  destruct i as [|i].
  - injection H1 as <-. apply (Hin _ j) in H2 as [Hk _].
    apply keep_words_spec in Hk as (l & Hl & -> & _).
    destruct (index_of_elem (upper (strip l)) (upper ∘ strip <$> lines)) as [b Hb].
    { apply list_elem_of_fmap. by exists l. }
    exists 0%nat, (S b). rewrite fmap_cons. cbn [compose].
    rewrite (index_of_cons_ne (upper (strip l))), Hb by done.
    split; [|split; [done|lia]]. cbn [index_of]. by rewrite String.eqb_refl.
  - cbn [lookup list_lookup] in H1.
    assert (Hn1 : w1 ≠ upper (strip line)).
    { intros ->. apply (Hin _ i) in H1 as [_ Hn]. apply Hn. by left. }
    assert (Hij' : (i < j)%nat) by lia.
    destruct (IH (upper (strip line) :: seen) i j w1 w2 H1 H2 Hij')
      as (a & b & Ha & Hb & Hab).
    exists (S a), (S b). rewrite fmap_cons. cbn [compose].
    rewrite !index_of_cons_ne, Ha, Hb by done. split; [done|]. split; [done|lia].
Qed.

(** X27. [load_wordlist] returns at least 50 words without duplicates. The
    words are exactly the trimmed, uppercased lines that are not empty, do not
    start with "#" and hold neither a blank nor a tab, and they come in the
    order of their first occurrence in the file: of two words of the result,
    the earlier one is the one whose first line comes first. With fewer than
    50 such words it raises ValueError, naming their number. *)
Theorem X27_load_wordlist (lines : list string) :
  match load_wordlist lines with
  | inr ws =>
      (50 ≤ length ws)%nat ∧ NoDup ws
      ∧ (∀ w, w ∈ ws ↔ ∃ line, line ∈ lines ∧ w = upper (strip line) ∧ strip line ≠ ""
                              ∧ starts_with_hash (strip line) = false
                              ∧ has_blank w = false)
      ∧ Forall (λ w, w ≠ "" ∧ no_lower w = true) ws
      ∧ ws `sublist_of` (upper ∘ strip <$> lines)
      ∧ (∀ (i j : nat) w1 w2,
           ws !! i = Some w1 → ws !! j = Some w2 → (i < j)%nat →
           ∃ a b, index_of w1 (upper ∘ strip <$> lines) = Some a
                  ∧ index_of w2 (upper ∘ strip <$> lines) = Some b ∧ (a < b)%nat)
  | inl e =>
      ∃ ws, (length ws < 50)%nat ∧ NoDup ws ∧ e = too_small (length ws)
            ∧ (∀ w, w ∈ ws ↔ w ∈ keep_words lines)
  end.
Proof.
  unfold load_wordlist.
  destruct (fromkeys_spec (keep_words lines) []) as (Hnd & Hin & Hsub).
  assert (Hmem : ∀ w, w ∈ fromkeys (keep_words lines) [] ↔ w ∈ keep_words lines).
  { intros w. rewrite Hin. split; [by intros [? _]|]. intros Hw. split; [done|].
    apply not_elem_of_nil. }
  destruct (length _ <? 50)%nat eqn:Hlen.
  - apply Nat.ltb_lt in Hlen. by eexists.
  - apply Nat.ltb_ge in Hlen. split; [done|]. split; [done|].
    split; [|split; [|split; [|apply load_order]]].
    + intros w. by rewrite Hmem, keep_words_spec.
    + apply Forall_forall. intros w Hw. apply Hmem, keep_words_spec in Hw
        as (line & _ & -> & Hne & _).
      split; [by destruct (strip line)|apply upper_no_lower].
    + etrans; [exact Hsub|]. clear. induction lines as [|line lines IH]; [done|].
      cbn [keep_words fmap list_fmap].
      destruct (is_empty (strip line) || starts_with_hash (strip line));
        [by apply sublist_cons|].
      destruct (has_blank _); [by apply sublist_cons|by apply sublist_skip].
Qed.

(** *** X28: a generated board *)

Lemma remaining_in_fresh ks t : ∀ n,
  (length ks ≤ n)%nat →
  remaining_in ks (replicate n false) t = length (filter (λ k, k = t) ks).
Proof.
  unfold remaining_in. induction ks as [|k ks IH]; intros n Hn; [by destruct n|].
  destruct n as [|n]; [simpl in Hn; lia|]. cbn [replicate pyzip].
  rewrite !filter_cons. cbn [fst snd].
  destruct (decide (k = t)) as [->|Hk].
  - rewrite decide_True by done. cbn [length]. rewrite IH by (simpl in Hn; lia). done.
  - rewrite decide_False by (by intros [_ ?]). apply IH. simpl in Hn. lia.
Qed.

Section Generated.
Context {Rng : Type}.
Variable rng_sample : Rng → list string → nat → list string * Rng.
Variable rng_choice : Rng → Team * Rng.
Variable rng_shuffle : Rng → list CardType → list CardType * Rng.

(** [random.sample] draws [k] items at distinct positions; [random.shuffle]
    reorders the list. *)
Hypothesis sample_spec : ∀ r l k,
  (k ≤ length l)%nat → ∃ l', l' ≡ₚ l ∧ fst (rng_sample r l k) = take k l'.
Hypothesis shuffle_spec : ∀ r l, fst (rng_shuffle r l) ≡ₚ l.

(** X28. On a word list of fewer than 25 words [generate_board] raises
    ValueError and leaves the generator as it is. On any other it returns a
    board (the assertion on the key's length never fails) with 25 words drawn
    from the list, without duplicates when the list has none, and a key of 25
    cards: 9 of the starting team, 8 of the other team, 7 neutral and one
    assassin. A game started on it has 9 and 8 cards left for the two teams. *)
Theorem X28_generate_board (rng : Rng) (wordlist : list string) (id : string) :
  ((length wordlist < 25)%nat →
   generate_board rng_sample rng_choice rng_shuffle rng wordlist id
   = (inl (GenValueError "Wordlist must contain at least 25 unique words."), rng))
  ∧ ((25 ≤ length wordlist)%nat →
     ∃ b rng',
       generate_board rng_sample rng_choice rng_shuffle rng wordlist id = (inr b, rng')
       ∧ board_id b = id
       ∧ length (words b) = 25%nat ∧ words b ⊆ wordlist
       ∧ (NoDup wordlist → NoDup (words b))
       ∧ length (key b) = 25%nat
       ∧ key b ≡ₚ key_in_order (starting_team b)
       ∧ remaining (init_game_state b) (starting_team b) = 9%nat
       ∧ remaining (init_game_state b) (other_team (starting_team b)) = 8%nat
       ∧ length (filter (λ k, k = NEUTRAL) (key b)) = 7%nat
       ∧ length (filter (λ k, k = ASSASSIN) (key b)) = 1%nat).
Proof.
  unfold generate_board. split.
  - intros Hlt. apply Nat.ltb_lt in Hlt. by rewrite Hlt.
  - intros Hge. pose proof Hge as Hge'. apply Nat.ltb_ge in Hge'. rewrite Hge'.
    destruct (sample_spec rng wordlist 25 Hge) as (l' & Hperm & Hsample).
    destruct (rng_sample rng wordlist 25) as [ws rng1]. cbn [fst] in Hsample. subst ws.
    destruct (rng_choice rng1) as [start rng2].
    pose proof (shuffle_spec rng2 (key_in_order start)) as Hkey.
    destruct (rng_shuffle rng2 (key_in_order start)) as [ks rng3]. cbn [fst] in Hkey.
    assert (Hlen : length ks = 25%nat) by (rewrite Hkey; by destruct start).
    rewrite Hlen. cbn [Nat.eqb negb].
    exists (mkBoard id (take 25 l') ks start), rng3.
    unfold remaining, init_game_state. cbn [board_id words key starting_team board revealed].
    rewrite !remaining_in_fresh by lia.
    split_and!; try done.
    + rewrite length_take, Hperm. lia.
    + intros x Hx. rewrite <- Hperm. by eapply subseteq_take.
    + intros Hnd. rewrite <- Hperm in Hnd.
      rewrite <- (take_drop 25 l') in Hnd. by apply NoDup_app in Hnd as [? _].
    + rewrite Hkey. by destruct start.
    + rewrite Hkey. by destruct start.
    + rewrite Hkey. by destruct start.
    + rewrite Hkey. by destruct start.
Qed.

End Generated.

Lemma X28_witness :
  ∃ b,
    generate_board first_sample first_choice no_shuffle tt sample_words "board-000000"
    = (inr b, tt)
    ∧ remaining (init_game_state b) (starting_team b) = 9%nat
    ∧ remaining (init_game_state b) (other_team (starting_team b)) = 8%nat.
Proof.
  assert (Hsample : ∀ (r : unit) (l : list string) (k : nat),
            (k ≤ length l)%nat → ∃ l', l' ≡ₚ l ∧ fst (first_sample r l k) = take k l').
  { intros r l k _. exists l. split; reflexivity. }
  assert (Hshuffle : ∀ (r : unit) (l : list CardType), fst (no_shuffle r l) ≡ₚ l).
  { intros r l. reflexivity. }
  destruct (X28_generate_board first_sample first_choice no_shuffle Hsample Hshuffle tt
              sample_words "board-000000") as [_ Hgen].
  assert (Hlen : (25 ≤ length sample_words)%nat) by (simpl; lia).
  destruct (Hgen Hlen) as (b & [] & Heq & _ & _ & _ & _ & _ & _ & H9 & H8 & _).
  exists b. split; [exact Heq|]. split; [exact H9|exact H8].
Defined.

End BoardsMore.

(** ** The game runner: further properties *)

Module RunnerMore.
Import Py Env EnvFacts Json Client Agent AgentFacts Runner RunnerFacts Sample.

Lemma other_team_involutive tm : other_team (other_team tm) = tm.
Proof. by destruct tm. Qed.

Lemma turn_of_succ start i : turn_of start (S i) = turn_of (other_team start) i.
Proof.
  unfold turn_of. rewrite Nat.even_succ, <- Nat.negb_even, other_team_involutive.
  by destruct (Nat.even i).
Qed.

(** A turn that ends the game names a winner and the other team as loser. *)
Lemma game_over_winner s tm cl num gs enf s' o :
  apply_turn s tm cl num gs enf = (s', inr o) →
  game_over o = true →
  ∃ t, winner o = Some t ∧ loser o = Some (other_team t).
Proof.
  intros Hat. apply apply_turn_inr in Hat as (l & Hloop & _ & ->).
  cbn [game_over winner loser].
  destruct (RulesMore.loop_endings _ _ _ _ _ _ (init_loop s) _ eq_refl eq_refl eq_refl
              eq_refl (Forall_nil_2 _) Hloop)
    as [(_ & _ & [(Hg & _)|(_ & (_ & Hw & Hl) & _)])
       |(pre & a & _ & _ & [(_ & _ & _ & Hw & Hl)
                           |(_ & _ & _ & [(_ & _ & Hw & Hl)|(_ & Hg & _)])])];
    intros Hover; try congruence.
  - exists tm. by rewrite Hw, Hl.
  - exists (other_team tm). by rewrite Hw, Hl, other_team_involutive.
  - exists (other_team tm). by rewrite Hw, Hl, other_team_involutive.
Qed.

Section Games.
Context `{PyBuiltins} {W : Type}.
Variable create_json : Request → W → raises LLMResponse * W.

(** The loop of [play_game]: the turns it adds, and how it ends. *)
Lemma turn_loop_spec red blue n : ∀ p w p' w',
  turn_loop create_json red blue n p w = (inr p', w') →
  ∃ new, p_turns p' = p_turns p ++ new
    ∧ (length new ≤ n)%nat
    ∧ (∀ i log, new !! i = Some log → tl_team log = turn_of (current_team (p_state p)) i)
    ∧ ((p_winner p' = p_winner p ∧ p_loser p' = p_loser p
        ∧ p_end_reason p' = p_end_reason p ∧ length new = n ∧ Forall goes_on new)
       ∨ (∃ pre log t, new = pre ++ [log] ∧ Forall goes_on pre
            ∧ game_over (actual_outcome log) = true
            ∧ winner (actual_outcome log) = Some t
            ∧ p_winner p' = Some t ∧ p_loser p' = Some (other_team t)
            ∧ p_end_reason p'
              = (if bool_decide (stopped_reason (actual_outcome log) = assassin)
                 then "assassin" else "completed_agents"))).
Proof.
  induction n as [|n IH]; intros p w p' w'; cbn [turn_loop].
  - intros Hr. apply ret_inr in Hr as [-> _]. exists []. rewrite app_nil_r.
    split; [done|]. split; [done|]. split; [by intros i log Hi|]. left. by split_and!.
  - intros Hrun. apply bind_inr in Hrun as ([st [[[cl num] gs] tlog]] & w1 & Ht & Hrun).
    apply (AgentMore.take_turn_applies create_json) in Ht as [Hat Hteam].
    destruct (game_over (actual_outcome tlog)) eqn:Hover.
    + apply ret_inr in Hrun as [-> _]. cbn [p_turns p_winner p_loser p_end_reason].
      destruct (game_over_winner _ _ _ _ _ _ _ _ Hat Hover) as (t & Hw & Hl).
      exists [tlog]. split; [done|]. split; [simpl; lia|]. split.
      { intros [|i] log Hi; [|done]. injection Hi as <-. done. }
      right. exists [], tlog, t. by split_and!.
    + apply IH in Hrun as (new & Hturns & Hlen & Hteams & Hend).
      cbn [p_turns p_state p_winner p_loser p_end_reason current_team] in *.
      exists (tlog :: new). split; [by rewrite Hturns, <- app_assoc|].
      split; [simpl; lia|]. split.
      { intros [|i] log Hi.
        - injection Hi as <-. done.
        - rewrite turn_of_succ. by apply Hteams. }
      destruct Hend as [(Hw & Hl & Hr & Hn & Hall)
                       |(pre & log & t & -> & Hpre & Hg & Hw & Hpw & Hpl & Hr)].
      * left. split_and!; [done|done|done|simpl; by rewrite Hn|by constructor].
      * right. exists (tlog :: pre), log, t. split_and!; try done. by constructor.
Qed.

(** X25. A game that [play_game] returns: the record repeats the board; it
    logs at most max_turns turns, played by the two teams in alternation from
    the starting team. Without a winner the end reason is "max_turns", exactly
    max_turns turns are logged and none of them ended the game. With a winner,
    only the last logged turn ended the game, it named that winner, the loser
    is the other team, and the end reason is "assassin" when that turn hit the
    assassin and "completed_agents" otherwise. *)
Theorem X25_play_game (b : Board) (red blue : AgentConfig) (mt : Z) (w : W)
    (g : GameRecord) (w' : W) :
  play_game create_json b red blue mt w = (inr g, w') →
  (g_board_id g = board_id b ∧ g_words g = words b ∧ g_key g = key b
   ∧ g_starting_team g = starting_team b)
  ∧ (length (turns g) ≤ Z.to_nat mt)%nat
  ∧ (∀ i log, turns g !! i = Some log → tl_team log = turn_of (starting_team b) i)
  ∧ match g_winner g with
    | None =>
        end_reason g = "max_turns" ∧ g_loser g = None
        ∧ length (turns g) = Z.to_nat mt ∧ Forall goes_on (turns g)
    | Some t =>
        ∃ pre log, turns g = pre ++ [log] ∧ Forall goes_on pre
          ∧ game_over (actual_outcome log) = true
          ∧ winner (actual_outcome log) = Some t
          ∧ g_loser g = Some (other_team t)
          ∧ end_reason g
            = (if bool_decide (stopped_reason (actual_outcome log) = assassin)
               then "assassin" else "completed_agents")
    end.
Proof.
  unfold play_game. intros Hrun.
  apply bind_inr in Hrun as (p & w1 & Hloop & Hrun).
  apply ret_inr in Hrun as [-> _].
  cbn [g_board_id g_words g_key g_starting_team g_winner g_loser end_reason turns].
  apply turn_loop_spec in Hloop as (new & Hturns & Hlen & Hteams & Hend).
  cbn [p_turns p_state p_winner p_loser p_end_reason app] in *.
  rewrite Hturns. split; [done|]. split; [done|]. split; [exact Hteams|].
  destruct Hend as [(-> & -> & _ & Hn & Hall)
                   |(pre & log & t & -> & Hpre & Hg & Hw & -> & -> & ->)].
  - by split_and!.
  - by exists pre, log.
Qed.

(** The number of games of a match. *)
Lemma schedule_length boards red blue reps mir :
  length (schedule boards red blue reps mir)
  = (length boards * Z.to_nat reps * (if mir then 2 else 1))%nat.
Proof.
  unfold schedule. induction boards as [|b boards IH]; [done|].
  rewrite bind_cons, length_app, IH. cbn [length].
  assert (Hrep : ∀ n r, length (r' ← seq r n; games_of_replicate b red blue mir r')
                        = (n * (if mir then 2 else 1))%nat).
  { induction n as [|n IHn]; intros r; cbn [seq]; [done|].
    rewrite bind_cons, length_app, IHn. unfold games_of_replicate. destruct mir; simpl; lia. }
  rewrite Hrep. lia.
Qed.

(** The records that [play_all] writes, game by game. *)
Lemma play_all_records mt gs : ∀ o o',
  play_all create_json mt gs o = (inr tt, o') →
  ∃ new, snd o' = snd o ++ new
    ∧ Forall2 (λ m s, run_id m = sc_run_id s ∧ mirror m = sc_mirror s
                      ∧ red_agent m = name (sc_red s) ∧ blue_agent m = name (sc_blue s)
                      ∧ g_board_id (game m) = board_id (sc_board s)
                      ∧ g_words (game m) = words (sc_board s)
                      ∧ g_key (game m) = key (sc_board s)) new gs.
Proof.
  induction gs as [|s gs IH]; intros o o'; cbn [play_all].
  - intros [= <-]. exists []. by rewrite app_nil_r.
  - unfold play_scheduled. destruct o as [w file].
    destruct (play_game create_json _ _ _ _ w) as [[e|rec] w1] eqn:Hg; [done|].
    intros Hl. apply IH in Hl as (new & Hfile & Hall). cbn [snd] in *.
    eexists (_ :: new). split; [by rewrite Hfile, <- app_assoc|].
    constructor; [|done]. cbn [run_id mirror red_agent blue_agent game].
    unfold play_game in Hg. apply bind_inr in Hg as (p & w2 & _ & Hg).
    apply ret_inr in Hg as [-> _]. by split_and!.
Qed.

(** X26. A match that [run_match] completes has written one record per
    game, |boards| * replicates games, twice as many with [mirror]. In file
    order the records are those of the boards in order, for each board the
    replicates in order, and for each replicate the main orientation followed,
    with [mirror], by the game with the two configurations swapped: each
    record carries the run id, the agents' names by colour, the mirror flag and
    the board of its game. *)
Theorem X26_run_match_records (boards : list Board) (red blue : AgentConfig)
    (reps : Z) (mir : bool) (mt : Z) (w w' : W) (file : list MatchRecord) :
  run_match create_json boards red blue reps mir mt w = (inr tt, (w', file)) →
  length file = (length boards * Z.to_nat reps * (if mir then 2 else 1))%nat
  ∧ Forall2 (λ m s, run_id m = sc_run_id s ∧ mirror m = sc_mirror s
                    ∧ red_agent m = name (sc_red s) ∧ blue_agent m = name (sc_blue s)
                    ∧ g_board_id (game m) = board_id (sc_board s)
                    ∧ g_words (game m) = words (sc_board s)
                    ∧ g_key (game m) = key (sc_board s))
            file (schedule boards red blue reps mir)
  ∧ Forall (λ m, (mirror m = false ∧ red_agent m = name red ∧ blue_agent m = name blue)
                 ∨ (mir = true ∧ mirror m = true
                    ∧ red_agent m = name blue ∧ blue_agent m = name red)) file.
Proof.
  rewrite run_match_scheduled. intros Hrun.
  apply play_all_records in Hrun as (new & Hfile & Hall). cbn [snd app] in Hfile. subst new.
  split; [by rewrite (Forall2_length _ _ _ Hall), schedule_length|].
  split; [exact Hall|].
  assert (Hsched : Forall (λ s, (sc_mirror s = false ∧ sc_red s = red ∧ sc_blue s = blue)
                                ∨ (mir = true ∧ sc_mirror s = true
                                   ∧ sc_red s = blue ∧ sc_blue s = red))
                          (schedule boards red blue reps mir)).
  { unfold schedule. apply Forall_bind, Forall_forall. intros b _.
    apply Forall_bind, Forall_forall. intros r _. unfold games_of_replicate.
    constructor; [by left|]. destruct mir; [|done]. constructor; [|done]. by right. }
  revert Hsched. induction Hall as [|m s file gs (Hid & Hm & Hr & Hb & _) _ IH];
    intros Hsched; [done|].
  apply Forall_cons in Hsched as [Hs Hsched]. constructor; [|by apply IH].
  destruct Hs as [(Hm' & Hsr & Hsb)|(Hmir & Hm' & Hsr & Hsb)].
  - left. by rewrite Hm, Hm', Hr, Hb, Hsr, Hsb.
  - right. by rewrite Hm, Hm', Hr, Hb, Hsr, Hsb.
Qed.

End Games.

Lemma X25_witness :
  ∃ g calls,
    play_game helpful_client sample_board sample_cfg sample_cfg 2 0%nat = (inr g, calls)
    ∧ (length (turns g) ≤ 2)%nat
    ∧ ∀ i log, turns g !! i = Some log → tl_team log = turn_of RED i.
Proof.
  destruct (play_game helpful_client sample_board sample_cfg sample_cfg 2 0%nat)
    as [[e|g] calls] eqn:Hrun.
  - vm_compute in Hrun. discriminate Hrun.
  - exists g, calls. split; [reflexivity|].
    destruct (X25_play_game helpful_client sample_board sample_cfg sample_cfg 2 0%nat
                g calls Hrun) as (_ & Hlen & Hteams & _).
    split; [exact Hlen|exact Hteams].
Defined.

Lemma X26_witness :
  ∃ calls file,
    run_match helpful_client [sample_board] sample_cfg sample_cfg 1 true 1 0%nat
    = (inr tt, (calls, file))
    ∧ length file = 2%nat.
Proof.
  destruct (run_match helpful_client [sample_board] sample_cfg sample_cfg 1 true 1 0%nat)
    as [[e|[]] [calls file]] eqn:Hrun.
  - vm_compute in Hrun. discriminate Hrun.
  - exists calls, file. split; [reflexivity|].
    exact (proj1 (X26_run_match_records helpful_client [sample_board] sample_cfg sample_cfg
                    1 true 1 0%nat calls file Hrun)).
Defined.

End RunnerMore.

(** ** The game state: the counting methods *)

Module StateMore.
Import Py Env EnvFacts Sample.

Lemma by_type_fold (l : list (CardType * bool)) (t : CardType) : ∀ out,
  fold_left (fun (out : CardType → nat) (tr : CardType * bool) =>
               if snd tr then out else bump out (fst tr)) l out t
  = (out t + length (filter (λ kr, snd kr = false ∧ fst kr = t) l))%nat.
Proof.
  induction l as [|[k r] l IH]; intros out; cbn [fold_left]; [simpl; lia|].
  rewrite IH, filter_cons. cbn [fst snd]. destruct r.
  - rewrite decide_False by (by intros [? _]). done.
  - unfold bump. destruct (decide (t = k)) as [->|Hne].
    + rewrite decide_True by done. simpl. lia.
    + rewrite decide_False by (intros [_ ?]; congruence). done.
Qed.

Lemma unrevealed_split (l : list (CardType * bool)) :
  (length (filter (λ kr, snd kr = false ∧ fst kr = CRed) l)
   + length (filter (λ kr, snd kr = false ∧ fst kr = CBlue) l)
   + length (filter (λ kr, snd kr = false ∧ fst kr = NEUTRAL) l)
   + length (filter (λ kr, snd kr = false ∧ fst kr = ASSASSIN) l)
   = length (filter (λ kr, snd kr = false) l))%nat.
Proof.
  induction l as [|[k r] l IH]; [done|]. rewrite !filter_cons. cbn [fst snd].
  destruct r.
  - rewrite !decide_False by (by intros [? _]). rewrite decide_False by done. exact IH.
  - rewrite (decide_True (P := false = false)) by done.
    destruct k; repeat (first [rewrite decide_True by done
                              |rewrite decide_False by (by intros [_ ?])]);
      simpl; lia.
Qed.

Lemma unrevealed_from_length (ks : list CardType) : ∀ (rs : list bool) i,
  (length rs ≤ length ks)%nat →
  length (unrevealed_from i rs) = length (filter (λ kr, snd kr = false) (pyzip ks rs)).
Proof.
  induction ks as [|k ks IH]; intros [|r rs] i Hlen; simpl in Hlen; try done; [lia|].
  cbn [unrevealed_from pyzip]. rewrite filter_cons. cbn [snd]. destruct r.
  - rewrite decide_False by done. apply IH. lia.
  - rewrite decide_True by done. simpl. f_equal. apply IH. lia.
Qed.

Lemma unrevealed_from_elem (rs : list bool) : ∀ i j,
  j ∈ unrevealed_from i rs ↔ (i ≤ j)%nat ∧ rs !! (j - i)%nat = Some false.
Proof.
  induction rs as [|r rs IH]; intros i j; cbn [unrevealed_from].
  - split; [by intros ?%not_elem_of_nil|]. by intros [_ ?].
  - assert (Hstep : j ∈ unrevealed_from (S i) rs
                    ↔ (i < j)%nat ∧ (r :: rs) !! (j - i)%nat = Some false).
    { rewrite IH. split; intros [Hle Hl]; (split; [lia|]).
      - replace (j - i)%nat with (S (j - S i)) by lia. done.
      - replace (j - i)%nat with (S (j - S i)) in Hl by lia. done. }
    destruct r.
    + rewrite Hstep. split; intros [Hle Hl]; (split; [lia|done]) || idtac.
      destruct (decide (i = j)) as [->|Hne]; [|split; [lia|done]].
      rewrite Nat.sub_diag in Hl. done.
    + rewrite elem_of_cons, Hstep. split.
      * intros [->|[Hle Hl]]; [|split; [lia|done]].
        split; [lia|]. by rewrite Nat.sub_diag.
      * intros [Hle Hl]. destruct (decide (j = i)) as [->|Hne]; [by left|].
        right. split; [lia|done].
Qed.

(** X29. The counting methods of [GameState] agree. For each card type
    [remaining_by_type] gives the number of unrevealed cards of that type, so
    for a team it gives what [remaining] gives; [unrevealed_indices] lists
    exactly the positions whose flag is unset; and when the key covers the
    reveal bitmap the four counts of [remaining_by_type] add up to the number
    of unrevealed positions. *)
Theorem X29_counts_agree (s : GameState) :
  (∀ tm, remaining_by_type s (card_of_team tm) = remaining s tm)
  ∧ (∀ i, i ∈ unrevealed_indices s ↔ revealed s !! i = Some false)
  ∧ ((length (revealed s) ≤ length (key (board s)))%nat →
     (remaining_by_type s CRed + remaining_by_type s CBlue
      + remaining_by_type s NEUTRAL + remaining_by_type s ASSASSIN
      = length (unrevealed_indices s))%nat).
Proof.
  unfold remaining_by_type, remaining, remaining_in, unrevealed_indices.
  split; [|split].
  - intros tm. by rewrite by_type_fold.
  - intros i. rewrite unrevealed_from_elem, Nat.sub_0_r. split; [by intros [_ ?]|].
    intros Hi. split; [lia|done].
  - intros Hlen. rewrite !by_type_fold. cbn [Nat.add].
    rewrite (unrevealed_from_length (key (board s))) by done.
    apply unrevealed_split.
Qed.

Lemma X29_witness :
  (length (revealed late_state) ≤ length (key (board late_state)))%nat
  ∧ (remaining_by_type late_state CRed + remaining_by_type late_state CBlue
     + remaining_by_type late_state NEUTRAL + remaining_by_type late_state ASSASSIN
     = length (unrevealed_indices late_state))%nat.
Proof.
  assert (Hlen : (length (revealed late_state) ≤ length (key (board late_state)))%nat)
    by (vm_compute; lia).
  split; [exact Hlen|].
  exact (proj2 (proj2 (X29_counts_agree late_state)) Hlen).
Defined.

End StateMore.
